(** * Peggy compiler pipeline: a shallow embedding and its verified properties

    The development follows the TypeScript sources of the compiler:
    [asts.ts], [session.ts], [visitor.ts], the six check passes, the two
    transform passes, the bytecode generator and the [compile] driver.

    Conventions of the embedding:
    - AST nodes are immutable trees; every expression node carries a
      [node_id] standing for the identity of the JavaScript object.  The
      annotation [node.match] of expression nodes lives in a store keyed by
      that identity, the annotations [rule.match] and [rule.bytecode] of rule
      nodes in stores keyed by the identity of the rule node.
    - Code that reports through the session, throws, or may recurse without
      bound runs in the monad [M S A := S -> Res A * S]: the state survives a
      throw, as the mutated JavaScript objects do.
    - A visitor built by [buildVisitor] / [buildExprVisitor] is written as one
      structural function per pass, the defaults of the factory inlined.
    - The diagnostic callbacks of a session are a parameter [Callbacks] of its
      methods and of the passes; [compile] takes them from the parsed
      options, where a key that was not given holds [undefined].
    - A plain JavaScript object used as a map is a [gmap] or an association
      list that never holds the key [__proto__]: an assignment to that key
      makes no own property. *)

From Stdlib Require Import ZArith List String Bool Lia DecimalString.
From stdpp Require Import base option gmap strings list numbers.

Import ListNotations.
Local Open Scope string_scope.
Local Open Scope list_scope.

(** ** Source locations (parser.d.ts) *)

Record Location := mkLocation {
  line : nat;
  column : nat;
  offset : nat;
}.

Record LocationRange := mkRange {
  source : string;
  range_start : Location;
  range_end : Location;
}.

#[global] Instance Location_eq_dec : EqDecision Location.
Proof. solve_decision. Defined.

#[global] Instance LocationRange_eq_dec : EqDecision LocationRange.
Proof. solve_decision. Defined.

(** ** Match results (parser.d.ts, [const enum MatchResult]) *)

Inductive MatchResult := ALWAYS | SOMETIMES | NEVER.

#[global] Instance MatchResult_eq_dec : EqDecision MatchResult.
Proof. solve_decision. Defined.

(** The numeric values of the enumeration. *)
Definition MatchResult_value (m : MatchResult) : Z :=
  match m with
  | ALWAYS => 1
  | SOMETIMES => 0
  | NEVER => -1
  end.

(** Unary minus on a match result, [-match]. *)
Definition negate (m : MatchResult) : MatchResult :=
  match m with
  | ALWAYS => NEVER
  | SOMETIMES => SOMETIMES
  | NEVER => ALWAYS
  end.

(** [node.match || MatchResult.SOMETIMES]: an absent annotation and the falsy
    value 0 both read as SOMETIMES. *)
Definition matchOrSometimes (m : option MatchResult) : MatchResult :=
  match m with
  | Some r => r
  | None => SOMETIMES
  end.

(** ** AST (parser.d.ts) *)

(** What every node has: its identity and its [location]. *)
Record NodeInfo := mkInfo {
  node_id : nat;
  location : LocationRange;
}.

(** One part of a character class: a single symbol or a range. *)
Inductive ClassPart :=
| PartChar (c : string)
| PartRange (lo hi : string).

#[global] Instance ClassPart_eq_dec : EqDecision ClassPart.
Proof. solve_decision. Defined.

#[local] Unset Elimination Schemes.

Inductive Expr :=
| Named (i : NodeInfo) (name : string) (expression : Expr)
| Choice (i : NodeInfo) (alternatives : list Expr)
| Action (i : NodeInfo) (code : string) (codeLocation : LocationRange)
         (expression : Expr)
| Sequence (i : NodeInfo) (elements : list Expr)
| Labeled (i : NodeInfo) (pick : bool) (label : option string)
          (labelLocation : LocationRange) (expression : Expr)
| Text (i : NodeInfo) (expression : Expr)
| SimpleAnd (i : NodeInfo) (expression : Expr)
| SimpleNot (i : NodeInfo) (expression : Expr)
| Optional (i : NodeInfo) (expression : Expr)
| ZeroOrMore (i : NodeInfo) (expression : Expr)
| OneOrMore (i : NodeInfo) (expression : Expr)
| Group (i : NodeInfo) (expression : Expr)
| SemanticAnd (i : NodeInfo) (code : string) (codeLocation : LocationRange)
| SemanticNot (i : NodeInfo) (code : string) (codeLocation : LocationRange)
| RuleRef (i : NodeInfo) (name : string)
| Literal (i : NodeInfo) (value : string) (ignoreCase : bool)
| Class (i : NodeInfo) (parts : list ClassPart) (inverted ignoreCase : bool)
| Any (i : NodeInfo).

#[local] Set Elimination Schemes.

Definition info (e : Expr) : NodeInfo :=
  match e with
  | Named i _ _ | Choice i _ | Action i _ _ _ | Sequence i _
  | Labeled i _ _ _ _ | Text i _ | SimpleAnd i _ | SimpleNot i _
  | Optional i _ | ZeroOrMore i _ | OneOrMore i _ | Group i _
  | SemanticAnd i _ _ | SemanticNot i _ _ | RuleRef i _ | Literal i _ _
  | Class i _ _ _ | Any i => i
  end.

(** Induction over expressions with the children of [Choice] and [Sequence]
    covered by [Forall]. *)
Section ExprInd.
Variable P : Expr -> Prop.
Hypothesis HNamed : forall i n e, P e -> P (Named i n e).
Hypothesis HChoice : forall i l, Forall P l -> P (Choice i l).
Hypothesis HAction : forall i c cl e, P e -> P (Action i c cl e).
Hypothesis HSequence : forall i l, Forall P l -> P (Sequence i l).
Hypothesis HLabeled : forall i p lb ll e, P e -> P (Labeled i p lb ll e).
Hypothesis HText : forall i e, P e -> P (Text i e).
Hypothesis HSimpleAnd : forall i e, P e -> P (SimpleAnd i e).
Hypothesis HSimpleNot : forall i e, P e -> P (SimpleNot i e).
Hypothesis HOptional : forall i e, P e -> P (Optional i e).
Hypothesis HZeroOrMore : forall i e, P e -> P (ZeroOrMore i e).
Hypothesis HOneOrMore : forall i e, P e -> P (OneOrMore i e).
Hypothesis HGroup : forall i e, P e -> P (Group i e).
Hypothesis HSemanticAnd : forall i c cl, P (SemanticAnd i c cl).
Hypothesis HSemanticNot : forall i c cl, P (SemanticNot i c cl).
Hypothesis HRuleRef : forall i n, P (RuleRef i n).
Hypothesis HLiteral : forall i v ic, P (Literal i v ic).
Hypothesis HClass : forall i ps inv ic, P (Class i ps inv ic).
Hypothesis HAny : forall i, P (Any i).

Fixpoint Expr_forall_ind (e : Expr) : P e :=
  let fix all (l : list Expr) : Forall P l :=
    match l with
    | [] => Forall_nil P
    | x :: l' => Forall_cons P x l' (Expr_forall_ind x) (all l')
    end in
  match e with
  | Named i n e => HNamed i n e (Expr_forall_ind e)
  | Choice i l => HChoice i l (all l)
  | Action i c cl e => HAction i c cl e (Expr_forall_ind e)
  | Sequence i l => HSequence i l (all l)
  | Labeled i p lb ll e => HLabeled i p lb ll e (Expr_forall_ind e)
  | Text i e => HText i e (Expr_forall_ind e)
  | SimpleAnd i e => HSimpleAnd i e (Expr_forall_ind e)
  | SimpleNot i e => HSimpleNot i e (Expr_forall_ind e)
  | Optional i e => HOptional i e (Expr_forall_ind e)
  | ZeroOrMore i e => HZeroOrMore i e (Expr_forall_ind e)
  | OneOrMore i e => HOneOrMore i e (Expr_forall_ind e)
  | Group i e => HGroup i e (Expr_forall_ind e)
  | SemanticAnd i c cl => HSemanticAnd i c cl
  | SemanticNot i c cl => HSemanticNot i c cl
  | RuleRef i n => HRuleRef i n
  | Literal i v ic => HLiteral i v ic
  | Class i ps inv ic => HClass i ps inv ic
  | Any i => HAny i
  end.
End ExprInd.

(** Initializer nodes ([CodeBlock]). *)
Record CodeBlock := mkCodeBlock {
  cb_info : NodeInfo;
  cb_code : string;
  cb_codeLocation : LocationRange;
}.

Record Rule := mkRule {
  rule_info : NodeInfo;
  rule_name : string;
  nameLocation : LocationRange;
  rule_expression : Expr;
}.

Record Grammar := mkGrammar {
  grammar_info : NodeInfo;
  topLevelInitializer : option CodeBlock;
  initializer : option CodeBlock;
  rules : list Rule;
}.

(** The union [AnyNode] a visitor dispatches on. *)
Inductive AnyNode :=
| NGrammar (g : Grammar)
| NTopLevelInitializer (c : CodeBlock)
| NInitializer (c : CodeBlock)
| NRule (r : Rule)
| NExpr (e : Expr).

(** ** AST helpers (asts.ts) *)

(** The scan shared by [findRule] and [indexOfRule]: the first rule of that
    name, with its index. *)
Fixpoint scanRules (rs : list Rule) (name : string) (i : nat)
  : option (nat * Rule) :=
  match rs with
  | [] => None
  | r :: rs' =>
      if String.eqb (rule_name r) name then Some (i, r)
      else scanRules rs' name (S i)
  end.

Definition findRuleAt (ast : Grammar) (name : string) : option (nat * Rule) :=
  scanRules (rules ast) name 0.

Definition findRule (ast : Grammar) (name : string) : option Rule :=
  match findRuleAt ast name with
  | Some (_, r) => Some r
  | None => None
  end.

Definition indexOfRule (ast : Grammar) (name : string) : Z :=
  match findRuleAt ast name with
  | Some (i, _) => Z.of_nat i
  | None => -1
  end.

(** ** Results of effectful code *)

Definition Stage := string.

Record DiagnosticNote := mkNote {
  note_message : string;
  note_location : LocationRange;
}.

Inductive Severity := SevError | SevWarning | SevInfo.

(** [Problem]: the tuple [severity, message, location?, notes?]. *)
Record Problem := mkProblem {
  severity : Severity;
  message : string;
  problem_location : option LocationRange;
  problem_notes : option (list DiagnosticNote);
}.

(** The [problems] field of a [GrammarError] is an array reference: either the
    array its constructor allocated, or the very array object held by the
    session ([this._firstError.problems = this.problems]). *)
Inductive ProblemsRef :=
| OwnProblems (ps : list Problem)
| SessionProblems.

Record GrammarError := mkGrammarError {
  ge_message : string;
  ge_location : option LocationRange;
  ge_diagnostics : list DiagnosticNote;
  ge_stage : option Stage;
  ge_problems : ProblemsRef;
}.

(** [new GrammarError(message, location, diagnostics = [])] *)
Definition newGrammarError (msg : string) (loc : option LocationRange)
    (notes : option (list DiagnosticNote)) : GrammarError :=
  let diagnostics := match notes with Some d => d | None => [] end in
  {| ge_message := msg;
     ge_location := loc;
     ge_diagnostics := diagnostics;
     ge_stage := None;
     ge_problems :=
       OwnProblems [mkProblem SevError msg loc (Some diagnostics)] |}.

(** What JavaScript code can throw here: a plain [Error] with a message, a
    [TypeError] (a property read on [undefined]), a [GrammarError], or the
    value [null] ([throw this._firstError] when nothing
    was retained). *)
Inductive Exception :=
| JsError (msg : string)
| TypeError
| GrammarErr (e : GrammarError)
| NullThrown.

(** [OutOfFuel] stands for a recursion that does not come back (in JavaScript
    it ends in a stack overflow). *)
Inductive Res (A : Type) :=
| Ok (a : A)
| Throw (e : Exception)
| OutOfFuel.

Arguments Ok {A} a.
Arguments Throw {A} e.
Arguments OutOfFuel {A}.

Definition M (S A : Type) : Type := S -> Res A * S.

Definition ret {S A : Type} (a : A) : M S A := fun s => (Ok a, s).

Definition bind {S A B : Type} (c : M S A) (k : A -> M S B) : M S B :=
  fun s =>
    match c s with
    | (Ok a, s') => k a s'
    | (Throw e, s') => (Throw e, s')
    | (OutOfFuel, s') => (OutOfFuel, s')
    end.

Definition throw {S A : Type} (e : Exception) : M S A := fun s => (Throw e, s).

Definition outOfFuel {S A : Type} : M S A := fun s => (OutOfFuel, s).

Definition get {S : Type} : M S S := fun s => (Ok s, s).

Definition put {S : Type} (s : S) : M S unit := fun _ => (Ok tt, s).

(** Run a computation on a component of the state. *)
Definition zoom {S T A : Type} (proj : S -> T) (inj : T -> S -> S)
    (c : M T A) : M S A :=
  fun s => let (r, t) := c (proj s) in (r, inj t s).

Notation "'let*' x ':=' c 'in' k" := (bind c (fun x => k))
  (at level 10, x pattern, c at level 100, k at level 200).

Section Loops.
Context {S A T : Type}.

(** [for (const x of l) body(x)] *)
Section ForEach.
Variable body : A -> M S unit.
Fixpoint forEach (l : list A) : M S unit :=
  match l with
  | [] => ret tt
  | x :: l' => let* _ := body x in forEach l'
  end.
End ForEach.

(** A loop over [l] that threads a value, such as an object the iterations
    share and mutate. *)
Section FoldM.
Variable step : A -> T -> M S T.
Fixpoint foldM (l : list A) (t : T) : M S T :=
  match l with
  | [] => ret t
  | x :: l' => let* t' := step x t in foldM l' t'
  end.
End FoldM.
End Loops.

(** [Array.prototype.every] and [Array.prototype.some] over a callback that
    may fail to return: both stop at the first deciding element. *)
Section Short.
Context {A : Type}.
Variable f : A -> Res bool.

Fixpoint every (l : list A) : Res bool :=
  match l with
  | [] => Ok true
  | x :: l' =>
      match f x with
      | Ok true => every l'
      | Ok false => Ok false
      | Throw e => Throw e
      | OutOfFuel => OutOfFuel
      end
  end.

Fixpoint some (l : list A) : Res bool :=
  match l with
  | [] => Ok false
  | x :: l' =>
      match f x with
      | Ok true => Ok true
      | Ok false => some l'
      | Throw e => Throw e
      | OutOfFuel => OutOfFuel
      end
  end.
End Short.

(** A pure result inside a stateful computation. *)
Definition liftRes {S A : Type} (r : Res A) : M S A := fun s => (r, s).

(** ** Diagnostics session (session.ts) *)

Record Session := mkSession {
  problems : list Problem;
  stage : option Stage;
  firstError : option GrammarError;
  errors : nat;
  (** the calls made to the three diagnostic callbacks, in order *)
  notified : list (Stage * Problem);
}.

(** The fields of a session as its constructor leaves them. *)
Definition newSession : Session :=
  {| problems := []; stage := None; firstError := None; errors := 0;
     notified := [] |}.

(** What a key of [Partial<Diagnostics>] holds: a function, or [undefined].
    A function is code of the caller of the compiler; of what it does when it
    is called the model keeps whether it returns, [IsFunction], or throws,
    [Throwing].  The session keeps the calls in [notified]. *)
Inductive Callback := IsFunction | Throwing (e : Exception) | Undefined.

(** [this._callbacks], fixed when the session is made:
    [{error: ignored, info: ignored, warning: ignored, ...options}], where a
    key that [options] has overrides the default also when it holds
    [undefined].  The callbacks are a parameter of the methods of the session
    and of the code that is handed the session. *)
Class Callbacks := mkCallbacks {
  call_error : Callback;
  call_warning : Callback;
  call_info : Callback;
}.

Definition notify (st : Stage) (p : Problem) (s : Session) : Session :=
  {| problems := problems s; stage := stage s;
     firstError := firstError s; errors := errors s;
     notified := notified s ++ [(st, p)] |}.

(** [callback(this.stage, ...args)]: calling [undefined] is a [TypeError]. *)
Definition callCallback (callback : Callback) (st : Stage) (p : Problem)
  : M Session unit :=
  fun s =>
    match callback with
    | IsFunction => (Ok tt, notify st p s)
    | Throwing e => (Throw e, notify st p s)
    | Undefined => (Throw TypeError, s)
    end.

(** [!this.stage] is true for [null] and for the empty string. *)
Definition stageSet (st : option Stage) : option Stage :=
  match st with
  | Some name => if String.eqb name EmptyString then None else Some name
  | None => None
  end.

Definition setStage (st : Stage) : M Session unit :=
  fun s =>
    (Ok tt, {| problems := problems s; stage := Some st;
               firstError := firstError s; errors := errors s;
               notified := notified s |}).

Definition pushProblem (p : Problem) (s : Session) : Session :=
  {| problems := problems s ++ [p]; stage := stage s;
     firstError := firstError s; errors := errors s;
     notified := notified s |}.

(** [++this.errors] and the retention of the first error. *)
Definition countError (msg : string) (loc : option LocationRange)
    (notes : option (list DiagnosticNote)) (s : Session) : Session :=
  {| problems := problems s; stage := stage s;
     firstError :=
       match firstError s with
       | None =>
           let e := newGrammarError msg loc notes in
           Some {| ge_message := ge_message e;
                   ge_location := ge_location e;
                   ge_diagnostics := ge_diagnostics e;
                   ge_stage := stage s;
                   ge_problems := SessionProblems |}
       | Some e => Some e
       end;
     errors := S (errors s);
     notified := notified s |}.

(** The methods of a session, and the passes that are handed one, over the
    callbacks the session was made with. *)
Section WithCallbacks.
Context {callbacks : Callbacks}.

Definition Session_error (msg : string) (loc : option LocationRange)
    (notes : option (list DiagnosticNote)) : M Session unit :=
  fun s =>
    let s1 := countError msg loc notes s in
    match stageSet (stage s1) with
    | None => (Throw (JsError "Impossible"), s1)
    | Some st =>
        let p := mkProblem SevError msg loc notes in
        callCallback call_error st p (pushProblem p s1)
    end.

Definition Session_warning (msg : string) (loc : option LocationRange)
    (notes : option (list DiagnosticNote)) : M Session unit :=
  fun s =>
    let p := mkProblem SevWarning msg loc notes in
    let s1 := pushProblem p s in
    match stageSet (stage s1) with
    | None => (Throw (JsError "Impossible"), s1)
    | Some st => callCallback call_warning st p s1
    end.

Definition Session_info (msg : string) (loc : option LocationRange)
    (notes : option (list DiagnosticNote)) : M Session unit :=
  fun s =>
    let p := mkProblem SevInfo msg loc notes in
    let s1 := pushProblem p s in
    match stageSet (stage s1) with
    | None => (Throw (JsError "Impossible"), s1)
    | Some st => callCallback call_info st p s1
    end.

(** [throw this._firstError] *)
Definition thrownFirstError (s : Session) : Exception :=
  match firstError s with
  | Some e => GrammarErr e
  | None => NullThrown
  end.

Definition checkErrors : M Session unit :=
  fun s =>
    if Nat.eqb (errors s) 0 then (Ok tt, s)
    else (Throw (thrownFirstError s), s).

(** Reading [e.problems] for an exception of the session [s]: an aliased
    reference reads the session's array as it is now. *)
Definition problemsOf (s : Session) (e : GrammarError) : list Problem :=
  match ge_problems e with
  | OwnProblems ps => ps
  | SessionProblems => problems s
  end.

(** ** [alwaysConsumesOnSuccess] (asts.ts)

    [consumes] is the visitor built inside the function.  A [rule_ref] to an
    existing rule continues in that rule (the [rule] default of the factory
    goes on to its expression); each such step spends one unit of [fuel]. *)
Fixpoint consumes (ast : Grammar) (fuel : nat) : Expr -> Res bool :=
  fix visit (e : Expr) : Res bool :=
    match e with
    | Choice _ alternatives => every visit alternatives
    | Sequence _ elements => some visit elements
    | SimpleAnd _ _ | SimpleNot _ _ | Optional _ _ | ZeroOrMore _ _
    | SemanticAnd _ _ _ | SemanticNot _ _ _ => Ok false
    | RuleRef _ name =>
        match findRule ast name with
        | Some rule =>
            match fuel with
            | O => OutOfFuel
            | S fuel' => consumes ast fuel' (rule_expression rule)
            end
        | None => Ok false
        end
    | Literal _ value _ => Ok (negb (String.eqb value EmptyString))
    | Class _ _ _ _ | Any _ => Ok true
    | Named _ _ e' | Action _ _ _ e' | Labeled _ _ _ _ e' | Text _ e'
    | OneOrMore _ e' | Group _ e' => visit e'
    end.

Definition alwaysConsumesOnSuccess (ast : Grammar) (fuel : nat) (n : AnyNode)
  : Res bool :=
  match n with
  | NGrammar _ | NTopLevelInitializer _ | NInitializer _ =>
      Throw (JsError "Impossible")
  | NRule r => consumes ast fuel (rule_expression r)
  | NExpr e => consumes ast fuel e
  end.

(** ** Plain objects used as maps

    An object made by [{}] and used as a map from names is the finite map of
    its own properties: [Object.prototype.hasOwnProperty.call(obj, key)] and
    the spread [{...obj}] see the own properties only.  The assignment
    [obj[key] = value] makes or overwrites the own property [key], except for
    the key [__proto__]: that one is an accessor of [Object.prototype], the
    assignment goes to its setter, and the object gets no own property. *)
Definition objectSet {V : Type} (key : string) (value : V)
    (obj : gmap string V) : gmap string V :=
  if String.eqb key "__proto__" then obj else <[key := value]> obj.

(** ** Check passes *)

Definition dquote : string := String (Ascii.ascii_of_nat 34) EmptyString.

Definition quoted (s : string) : string := dquote ++ s ++ dquote.

(** A JavaScript string in a condition: [null] and the empty string are
    falsy. *)
Definition truthy (s : option string) : option string :=
  match s with
  | Some v => if String.eqb v EmptyString then None else Some v
  | None => None
  end.

(** *** report-undefined-rules.ts *)

Fixpoint undefinedRules_check (ast : Grammar) (e : Expr) : M Session unit :=
  match e with
  | RuleRef i name =>
      match findRule ast name with
      | None =>
          Session_error ("Rule " ++ quoted name ++ " is not defined")
            (Some (location i)) None
      | Some _ => ret tt
      end
  | Choice _ l | Sequence _ l => forEach (undefinedRules_check ast) l
  | Named _ _ e' | Action _ _ _ e' | Labeled _ _ _ _ e' | Text _ e'
  | SimpleAnd _ e' | SimpleNot _ e' | Optional _ e' | ZeroOrMore _ e'
  | OneOrMore _ e' | Group _ e' => undefinedRules_check ast e'
  | SemanticAnd _ _ _ | SemanticNot _ _ _ | Literal _ _ _ | Class _ _ _ _
  | Any _ => ret tt
  end.

Definition reportUndefinedRules (ast : Grammar) : M Session unit :=
  forEach (fun r => undefinedRules_check ast (rule_expression r)) (rules ast).

(** *** report-duplicate-rules.ts *)

Fixpoint duplicateRules_check (rs : list Rule)
    (seen : gmap string LocationRange) : M Session unit :=
  match rs with
  | [] => ret tt
  | r :: rs' =>
      match seen !! rule_name r with
      | Some original =>
          let* _ :=
            Session_error
              ("Rule " ++ quoted (rule_name r) ++ " is already defined")
              (Some (nameLocation r))
              (Some [mkNote "Original rule location" original]) in
          duplicateRules_check rs' seen
      | None =>
          duplicateRules_check rs'
            (objectSet (rule_name r) (nameLocation r) seen)
      end
  end.

Definition reportDuplicateRules (ast : Grammar) : M Session unit :=
  duplicateRules_check (rules ast) ∅.

(** *** report-duplicate-labels.ts

    The environment is an object that [labeled] mutates.  [duplicateLabels_check]
    returns the environment object it was given as it is afterwards; where the
    source passes a clone [{...env}], the caller keeps its own. *)
Fixpoint duplicateLabels_check (e : Expr) (env : gmap string LocationRange)
  : M Session (gmap string LocationRange) :=
  match e with
  | Choice _ alternatives =>
      foldM (fun a env0 => let* _ := duplicateLabels_check a env0 in ret env0)
        alternatives env
  | Action _ _ _ e' | Text _ e' | SimpleAnd _ e' | SimpleNot _ e'
  | Optional _ e' | ZeroOrMore _ e' | OneOrMore _ e' | Group _ e' =>
      let* _ := duplicateLabels_check e' env in ret env
  | Labeled _ _ label labelLocation e' =>
      let* _ :=
        match truthy label with
        | Some l =>
            match env !! l with
            | Some original =>
                Session_error ("Label " ++ quoted l ++ " is already defined")
                  (Some labelLocation)
                  (Some [mkNote "Original label location" original])
            | None => ret tt
            end
        | None => ret tt
        end in
      let* env1 := duplicateLabels_check e' env in
      match truthy label with
      | Some l => ret (objectSet l labelLocation env1)
      | None => ret env1
      end
  | Named _ _ e' => duplicateLabels_check e' env
  | Sequence _ elements => foldM duplicateLabels_check elements env
  | SemanticAnd _ _ _ | SemanticNot _ _ _ | RuleRef _ _ | Literal _ _ _
  | Class _ _ _ _ | Any _ => ret env
  end.

Definition reportDuplicateLabels (ast : Grammar) : M Session unit :=
  forEach
    (fun r => let* _ := duplicateLabels_check (rule_expression r) ∅ in ret tt)
    (rules ast).

(** *** report-infinite-recursion.ts *)

(** The two arrays of the pass and the session it reports to.  Both arrays
    grow at the end ([push]) and shrink at the end ([pop]); a [rule_ref] node
    is kept as its info and its name. *)
Record RecursionState := mkRecursionState {
  visitedRules : list string;
  backtraceRefs : list (NodeInfo * string);
  rec_session : Session;
}.

Definition pushVisited (name : string) : M RecursionState unit :=
  fun st => (Ok tt, mkRecursionState (visitedRules st ++ [name])
                      (backtraceRefs st) (rec_session st)).

Definition popVisited : M RecursionState unit :=
  fun st => (Ok tt, mkRecursionState (removelast (visitedRules st))
                      (backtraceRefs st) (rec_session st)).

Definition pushRef (ref : NodeInfo * string) : M RecursionState unit :=
  fun st => (Ok tt, mkRecursionState (visitedRules st)
                      (backtraceRefs st ++ [ref]) (rec_session st)).

Definition popRef : M RecursionState unit :=
  fun st => (Ok tt, mkRecursionState (visitedRules st)
                      (removelast (backtraceRefs st)) (rec_session st)).

Definition withSession {A : Type} (c : M Session A) : M RecursionState A :=
  zoom rec_session
    (fun s st => mkRecursionState (visitedRules st) (backtraceRefs st) s) c.

Definition string_of_nat (n : nat) : string :=
  NilEmpty.string_of_uint (Nat.to_uint n).

Definition backtraceNotes (refs : list (NodeInfo * string))
  : list DiagnosticNote :=
  imap
    (fun i ref =>
       mkNote
         (if negb (Nat.eqb (i + 1) (length refs))
          then "Step " ++ string_of_nat (i + 1) ++ ": call of the rule "
               ++ quoted (snd ref) ++ " without input consumption"
          else "Step " ++ string_of_nat (i + 1)
               ++ ": call itself without input consumption - left recursion")
         (location (fst ref)))
    refs.

(** [cfuel] bounds each call of [alwaysConsumesOnSuccess], [fuel] the descent
    from a [rule_ref] into its rule. *)
Fixpoint infiniteRecursion_check (ast : Grammar) (cfuel fuel : nat)
  : Expr -> M RecursionState unit :=
  fix check (e : Expr) : M RecursionState unit :=
    match e with
    | Sequence _ elements =>
        (fix loop (l : list Expr) : M RecursionState unit :=
           match l with
           | [] => ret tt
           | element :: l' =>
               let* _ := check element in
               let* stop :=
                 liftRes (alwaysConsumesOnSuccess ast cfuel (NExpr element)) in
               if (stop : bool) then ret tt else loop l'
           end) elements
    | RuleRef i name =>
        let* _ := pushRef (i, name) in
        match findRule ast name with
        | None =>
            throw (JsError ("Could not find rule " ++ name
                            ++ " while looking for infinite recursive parsers"))
        | Some rule =>
            let* st := get in
            if existsb (String.eqb name) (visitedRules st) then
              let* _ := pushVisited name in
              let* st' := get in
              withSession
                (Session_error
                   ("Possible infinite loop when parsing (left recursion: "
                    ++ String.concat " -> " (visitedRules st') ++ ")")
                   (Some (nameLocation rule))
                   (Some (backtraceNotes (backtraceRefs st'))))
            else
              let* _ :=
                match fuel with
                | O => outOfFuel
                | S fuel' =>
                    let* _ := pushVisited (rule_name rule) in
                    let* _ :=
                      infiniteRecursion_check ast cfuel fuel'
                        (rule_expression rule) in
                    popVisited
                end in
              popRef
        end
    | Choice _ alternatives => forEach check alternatives
    | Named _ _ e' | Action _ _ _ e' | Labeled _ _ _ _ e' | Text _ e'
    | SimpleAnd _ e' | SimpleNot _ e' | Optional _ e' | ZeroOrMore _ e'
    | OneOrMore _ e' | Group _ e' => check e'
    | SemanticAnd _ _ _ | SemanticNot _ _ _ | Literal _ _ _ | Class _ _ _ _
    | Any _ => ret tt
    end.

Definition reportInfiniteRecursion (cfuel fuel : nat) (ast : Grammar)
  : M Session unit :=
  fun s =>
    let (r, st) :=
      forEach
        (fun rule =>
           let* _ := pushVisited (rule_name rule) in
           let* _ :=
             infiniteRecursion_check ast cfuel fuel (rule_expression rule) in
           popVisited)
        (rules ast) (mkRecursionState [] [] s) in
    (r, rec_session st).

(** *** report-infinite-repetition *)

Definition infiniteRepetitionMessage : string :=
  "Possible infinite loop when parsing (repetition used with an expression that may not consume any input)".

Fixpoint infiniteRepetition_check (ast : Grammar) (cfuel : nat) (e : Expr)
  : M Session unit :=
  match e with
  | ZeroOrMore i e' | OneOrMore i e' =>
      let* consuming :=
        liftRes (alwaysConsumesOnSuccess ast cfuel (NExpr e')) in
      if (consuming : bool) then ret tt
      else Session_error infiniteRepetitionMessage (Some (location i)) None
  | Choice _ l | Sequence _ l => forEach (infiniteRepetition_check ast cfuel) l
  | Named _ _ e' | Action _ _ _ e' | Labeled _ _ _ _ e' | Text _ e'
  | SimpleAnd _ e' | SimpleNot _ e' | Optional _ e' | Group _ e' =>
      infiniteRepetition_check ast cfuel e'
  | SemanticAnd _ _ _ | SemanticNot _ _ _ | RuleRef _ _ | Literal _ _ _
  | Class _ _ _ _ | Any _ => ret tt
  end.

Definition reportInfiniteRepetition (cfuel : nat) (ast : Grammar)
  : M Session unit :=
  forEach (fun r => infiniteRepetition_check ast cfuel (rule_expression r))
    (rules ast).

(** *** report-incorrect-plucking.ts *)

(** The part of an [action] or predicate node that later code reads. *)
Record CodeNode := mkCodeNode {
  cn_code : string;
  cn_codeLocation : LocationRange;
}.

Fixpoint incorrectPlucking_check (e : Expr) (action : option CodeNode)
  : M Session unit :=
  match e with
  | Action _ code codeLocation e' =>
      incorrectPlucking_check e' (Some (mkCodeNode code codeLocation))
  | Labeled _ pick _ labelLocation e' =>
      let* _ :=
        if pick then
          match action with
          | Some a =>
              Session_error
                (dquote ++ "@" ++ dquote
                 ++ " cannot be used with an action block")
                (Some labelLocation)
                (Some [mkNote "Action block location" (cn_codeLocation a)])
          | None => ret tt
          end
        else ret tt in
      incorrectPlucking_check e' None
  | Choice _ l | Sequence _ l =>
      forEach (fun x => incorrectPlucking_check x action) l
  | Named _ _ e' | Text _ e' | SimpleAnd _ e' | SimpleNot _ e'
  | Optional _ e' | ZeroOrMore _ e' | OneOrMore _ e' | Group _ e' =>
      incorrectPlucking_check e' action
  | SemanticAnd _ _ _ | SemanticNot _ _ _ | RuleRef _ _ | Literal _ _ _
  | Class _ _ _ _ | Any _ => ret tt
  end.

Definition reportIncorrectPlucking (ast : Grammar) : M Session unit :=
  forEach (fun r => incorrectPlucking_check (rule_expression r) None)
    (rules ast).

(** ** Transform pass: remove-proxy-rules.ts *)

(** The pass assigns to the nodes it visits ([node.name = to]) and can throw
    after it has done so.  Such code is a function [InPlace A]: from the
    session to the tree as the code left it, how the code ended, and the
    session then.  When the code does not end normally, the tree is the one
    with the assignments made so far, the rest as it was. *)
Definition InPlace (A : Type) : Type := Session -> (A * Res unit) * Session.

Definition unchanged {A : Type} (a : A) : InPlace A :=
  fun s => ((a, Ok tt), s).

(** The visit of a part of a node: the node has the part as the visit left
    it. *)
Definition inChild {A B : Type} (node : A -> B) (visit : InPlace A)
  : InPlace B :=
  fun s => let '((a, r), s') := visit s in ((node a, r), s').

(** The visit of the items of an array, in order, up to the first visit that
    does not end normally. *)
Section InChildren.
Context {A : Type}.
Variable visit : A -> InPlace A.
Fixpoint inChildren (l : list A) : InPlace (list A) :=
  match l with
  | [] => unchanged []
  | x :: l' =>
      fun s =>
        let '((x', r), s1) := visit x s in
        match r with
        | Ok _ =>
            let '((l'', r'), s2) := inChildren l' s1 in
            ((x' :: l'', r'), s2)
        | _ => ((x' :: l', r), s1)
        end
  end.
End InChildren.

(** The visitor [replace] of [replaceRuleRefs]: every [rule_ref] named [from]
    gets the name [to], before the lookup [findRule(ast, to)] and the note to
    the session.  [ast] serves the lookup, which reads rule names only. *)
Fixpoint replace (ast : Grammar) (from to : string) (e : Expr)
  : InPlace Expr :=
  match e with
  | RuleRef i name =>
      if negb (String.eqb name from) then unchanged e
      else
        match findRule ast to with
        | None =>
            fun s =>
              ((RuleRef i to,
                Throw (JsError ("Rule " ++ to
                                ++ " was not found during proxy removal"))),
               s)
        | Some rule =>
            fun s =>
              let (r, s') :=
                Session_info
                  ("Proxy rule " ++ quoted from ++ " replaced by the rule "
                   ++ quoted to)
                  (Some (location i))
                  (Some [mkNote "This rule will be used" (nameLocation rule)])
                  s in
              ((RuleRef i to, r), s')
        end
  | Named i n e' => inChild (Named i n) (replace ast from to e')
  | Choice i l => inChild (Choice i) (inChildren (replace ast from to) l)
  | Action i c cl e' => inChild (Action i c cl) (replace ast from to e')
  | Sequence i l => inChild (Sequence i) (inChildren (replace ast from to) l)
  | Labeled i p lb ll e' =>
      inChild (Labeled i p lb ll) (replace ast from to e')
  | Text i e' => inChild (Text i) (replace ast from to e')
  | SimpleAnd i e' => inChild (SimpleAnd i) (replace ast from to e')
  | SimpleNot i e' => inChild (SimpleNot i) (replace ast from to e')
  | Optional i e' => inChild (Optional i) (replace ast from to e')
  | ZeroOrMore i e' => inChild (ZeroOrMore i) (replace ast from to e')
  | OneOrMore i e' => inChild (OneOrMore i) (replace ast from to e')
  | Group i e' => inChild (Group i) (replace ast from to e')
  | SemanticAnd _ _ _ | SemanticNot _ _ _ | Literal _ _ _ | Class _ _ _ _
  | Any _ => unchanged e
  end.

Definition setExpression (r : Rule) (e : Expr) : Rule :=
  {| rule_info := rule_info r; rule_name := rule_name r;
     nameLocation := nameLocation r; rule_expression := e |}.

Definition setRules (g : Grammar) (rs : list Rule) : Grammar :=
  {| grammar_info := grammar_info g;
     topLevelInitializer := topLevelInitializer g;
     initializer := initializer g; rules := rs |}.

Definition replaceRuleRefs (ast : Grammar) (from to : string)
  : InPlace Grammar :=
  inChild (setRules ast)
    (inChildren
       (fun r =>
          inChild (setExpression r) (replace ast from to (rule_expression r)))
       (rules ast)).

(** [allowedStartRules.indexOf(name) === -1] *)
Definition notAllowed (allowed : list string) (name : string) : bool :=
  negb (existsb (String.eqb name) allowed).

(** The callback of [ast.rules.forEach], run for the indices [i], [i+1], ...
    ([n] of them) on the grammar as the earlier calls left it. *)
Fixpoint proxyLoop (allowed : list string) (n i : nat) (ast : Grammar)
    (indices : list nat) : InPlace (Grammar * list nat) :=
  match n with
  | O => unchanged (ast, indices)
  | S n' =>
      match rules ast !! i with
      | None => unchanged (ast, indices)
      | Some rule =>
          match rule_expression rule with
          | RuleRef _ target =>
              fun s =>
                let '((ast', r), s1) :=
                  replaceRuleRefs ast (rule_name rule) target s in
                match r with
                | Ok _ =>
                    proxyLoop allowed n' (S i) ast'
                      (if notAllowed allowed (rule_name rule)
                       then indices ++ [i] else indices) s1
                | _ => (((ast', indices), r), s1)
                end
          | _ => proxyLoop allowed n' (S i) ast indices
          end
      end
  end.

(** [for (const i of indices.reverse()) ast.rules.splice(i, 1)] *)
Definition spliceAll (indices : list nat) (rs : list Rule) : list Rule :=
  fold_left (fun acc i => delete i acc) (rev indices) rs.

(** The pass on the grammar: the grammar as the pass left it, whether it
    ended normally or not. *)
Definition removeProxyRules_inPlace (allowed : list string) (ast : Grammar)
  : InPlace Grammar :=
  fun s =>
    let '((out, r), s1) := proxyLoop allowed (length (rules ast)) 0 ast [] s in
    match r with
    | Ok _ =>
        ((setRules (fst out) (spliceAll (snd out) (rules (fst out))), Ok tt),
         s1)
    | _ => ((fst out, r), s1)
    end.

(** The pass as a computation that yields the grammar when it ends
    normally. *)
Definition removeProxyRules_run (allowed : list string) (ast : Grammar)
  : M Session Grammar :=
  fun s =>
    let '((g, r), s1) := removeProxyRules_inPlace allowed ast s in
    (match r with
     | Ok _ => Ok g
     | Throw e => Throw e
     | OutOfFuel => OutOfFuel
     end, s1).

End WithCallbacks.

(** ** Transform pass: match-result inference *)

(** The [match] annotations: of rule nodes and of expression nodes, each keyed
    by the identity of the node. *)
Record Matches := mkMatches {
  ruleMatch : gmap nat MatchResult;
  nodeMatch : gmap nat MatchResult;
}.

Definition noMatches : Matches := mkMatches ∅ ∅.

(** [(node.match = m)], an expression that has the value [m] *)
Definition setNodeMatch (i : NodeInfo) (m : MatchResult)
  : M Matches MatchResult :=
  fun st => (Ok m, mkMatches (ruleMatch st) (<[node_id i := m]> (nodeMatch st))).

Definition setRuleMatch (r : Rule) (m : MatchResult) : M Matches unit :=
  fun st =>
    (Ok tt, mkMatches (<[node_id (rule_info r) := m]> (ruleMatch st))
              (nodeMatch st)).

Definition getRuleMatch (r : Rule) : M Matches (option MatchResult) :=
  fun st => (Ok (ruleMatch st !! node_id (rule_info r)), st).

Definition infinityCycle (r : Rule) : Exception :=
  GrammarErr
    (newGrammarError
       "Infinity cycle detected when trying to evaluate node match result"
       (Some (location (rule_info r))) None).

(** The [do ... while] of the [rule] handler.  [count] is the counter of the
    source; [left] only bounds the recursion: the source raises once [count]
    exceeds 6, so 7 rounds are never used up. *)
Fixpoint ruleLoop (body : M Matches MatchResult) (r : Rule) (left count : nat)
  : M Matches MatchResult :=
  match left with
  | O => outOfFuel
  | S left' =>
      let* oldResult := getRuleMatch r in
      let* m := body in
      let* _ := setRuleMatch r m in
      if Nat.ltb 6 (S count) then throw (infinityCycle r)
      else if decide (oldResult = Some m) then ret m
      else ruleLoop body r left' (S count)
  end.

(** The [rule] handler, over the visitor [visit] it continues with. *)
Definition inferenceRule (visit : Expr -> M Matches MatchResult) (r : Rule)
  : M Matches MatchResult :=
  let* known := getRuleMatch r in
  match known with
  | Some m => ret m
  | None =>
      let* _ := setRuleMatch r SOMETIMES in
      ruleLoop (visit (rule_expression r)) r 7 0
  end.

Section InferenceElements.
Variable visit : Expr -> M Matches MatchResult.

(** The [for] loop of [inferenceElements] with its two counters. *)
Fixpoint countElements (elements : list Expr) (always never : nat)
  : M Matches (nat * nat) :=
  match elements with
  | [] => ret (always, never)
  | x :: rest =>
      let* result := visit x in
      countElements rest
        (if decide (result = ALWAYS) then S always else always)
        (if decide (result = NEVER) then S never else never)
  end.

Definition inferenceElements (elements : list Expr) (forChoice : bool)
  : M Matches MatchResult :=
  let* counts := countElements elements 0 0 in
  let len := length elements in
  if Nat.eqb (fst counts) len then ret ALWAYS
  else if forChoice then
    ret (if Nat.eqb (snd counts) len then NEVER else SOMETIMES)
  else ret (if Nat.ltb 0 (snd counts) then NEVER else SOMETIMES).
End InferenceElements.

(** The visitor [inference] on expression nodes.  Entering the rule of a
    [rule_ref] spends one unit of [fuel]. *)
Fixpoint inference (ast : Grammar) (fuel : nat)
  : Expr -> M Matches MatchResult :=
  fix visit (e : Expr) : M Matches MatchResult :=
    match e with
    | Named i _ e' | Action i _ _ e' | Labeled i _ _ _ e' | Text i e'
    | SimpleAnd i e' | OneOrMore i e' | Group i e' =>
        let* m := visit e' in setNodeMatch i m
    | Choice i alternatives =>
        let* m := inferenceElements visit alternatives true in
        setNodeMatch i m
    | Sequence i elements =>
        let* m := inferenceElements visit elements false in
        setNodeMatch i m
    | SimpleNot i e' => let* m := visit e' in setNodeMatch i (negate m)
    | Optional i e' | ZeroOrMore i e' =>
        let* _ := visit e' in setNodeMatch i ALWAYS
    | SemanticAnd i _ _ | SemanticNot i _ _ | Any i =>
        setNodeMatch i SOMETIMES
    | RuleRef i name =>
        match findRule ast name with
        | Some rule =>
            let* m :=
              inferenceRule
                (match fuel with
                 | O => fun _ => outOfFuel
                 | S fuel' => inference ast fuel'
                 end) rule in
            setNodeMatch i m
        | None => ret SOMETIMES
        end
    | Literal i value _ =>
        setNodeMatch i
          (if Nat.eqb (String.length value) 0 then ALWAYS else SOMETIMES)
    | Class i parts _ _ =>
        setNodeMatch i (if Nat.eqb (length parts) 0 then NEVER else SOMETIMES)
    end.

(** The visitor on any node: [grammar] and the initializers go to
    [ignoreNode]. *)
Definition inferenceNode (ast : Grammar) (fuel : nat) (n : AnyNode)
  : M Matches MatchResult :=
  match n with
  | NGrammar _ | NTopLevelInitializer _ | NInitializer _ => ret NEVER
  | NRule r => inferenceRule (inference ast fuel) r
  | NExpr e => inference ast fuel e
  end.

(** The pass: [inference(ast)]. *)
Definition inferenceMatchResult (fuel : nat) (ast : Grammar) : M Matches unit :=
  let* _ := inferenceNode ast fuel (NGrammar ast) in ret tt.

(** *** The table of the specification

    [specMatch] follows the words of the match-result table: it reads the
    result of a rule from [rm] and computes the tag of an expression from the
    tags of its children. *)
Definition isAlways (m : MatchResult) : bool := bool_decide (m = ALWAYS).
Definition isNever (m : MatchResult) : bool := bool_decide (m = NEVER).

Definition specChoice (rs : list MatchResult) : MatchResult :=
  if forallb isAlways rs then ALWAYS
  else if forallb isNever rs then NEVER
  else SOMETIMES.

Definition specSequence (rs : list MatchResult) : MatchResult :=
  if forallb isAlways rs then ALWAYS
  else if existsb isNever rs then NEVER
  else SOMETIMES.

Fixpoint specMatch (ast : Grammar) (rm : gmap nat MatchResult) (e : Expr)
  : MatchResult :=
  match e with
  | Any _ | SemanticAnd _ _ _ | SemanticNot _ _ _ => SOMETIMES
  | Literal _ value _ =>
      if String.eqb value EmptyString then ALWAYS else SOMETIMES
  | Class _ parts _ _ =>
      match parts with [] => NEVER | _ :: _ => SOMETIMES end
  | Optional _ _ | ZeroOrMore _ _ => ALWAYS
  | SimpleNot _ e' => negate (specMatch ast rm e')
  | SimpleAnd _ e' | Text _ e' | Named _ _ e' | Action _ _ _ e'
  | Labeled _ _ _ _ e' | Group _ e' | OneOrMore _ e' => specMatch ast rm e'
  | Choice _ alternatives => specChoice (map (specMatch ast rm) alternatives)
  | Sequence _ elements => specSequence (map (specMatch ast rm) elements)
  | RuleRef _ name =>
      match findRule ast name with
      | Some rule =>
          match rm !! node_id (rule_info rule) with
          | Some m => m
          | None => SOMETIMES
          end
      | None => SOMETIMES
      end
  end.

(** ** Bytecode generator *)

(** An array element of a bytecode: a number, or [null] where the source puts
    an index it did not compute. *)
Inductive Cell :=
| Num (z : Z)
| Null.

Definition Bytecode := list Cell.

(** Modelled from the spec: the opcode table [opcodes] (its module is not
    among the sources); the numbers are those of the instruction list in the
    header comment of the generator. *)
Module op.
Definition PUSH_EMPTY_STRING : Z := 35.
Definition PUSH_UNDEFINED : Z := 1.
Definition PUSH_NULL : Z := 2.
Definition PUSH_FAILED : Z := 3.
Definition PUSH_EMPTY_ARRAY : Z := 4.
Definition PUSH_CURR_POS : Z := 5.
Definition POP : Z := 6.
Definition POP_CURR_POS : Z := 7.
Definition POP_N : Z := 8.
Definition NIP : Z := 9.
Definition APPEND : Z := 10.
Definition WRAP : Z := 11.
Definition TEXT : Z := 12.
Definition PLUCK : Z := 36.
Definition IF : Z := 13.
Definition IF_ERROR : Z := 14.
Definition IF_NOT_ERROR : Z := 15.
Definition WHILE_NOT_ERROR : Z := 16.
Definition MATCH_ANY : Z := 17.
Definition MATCH_STRING : Z := 18.
Definition MATCH_STRING_IC : Z := 19.
Definition MATCH_CHAR_CLASS : Z := 20.
Definition ACCEPT_N : Z := 21.
Definition ACCEPT_STRING : Z := 22.
Definition FAIL : Z := 23.
Definition LOAD_SAVED_POS : Z := 24.
Definition UPDATE_SAVED_POS : Z := 25.
Definition CALL : Z := 26.
Definition RULE : Z := 27.
Definition SILENT_FAILS_ON : Z := 28.
Definition SILENT_FAILS_OFF : Z := 29.
End op.

(** A one-instruction code [[op.X]]. *)
Definition ins (opcode : Z) : Bytecode := [Num opcode].

(** A pool index, or [null]. *)
Definition idx (i : option nat) : Cell :=
  match i with
  | Some n => Num (Z.of_nat n)
  | None => Null
  end.

Definition len (code : Bytecode) : Cell := Num (Z.of_nat (length code)).

(** *** Constant pools *)

Record CharClassDesc := mkCharClassDesc {
  cc_value : list ClassPart;
  cc_inverted : bool;
  cc_ignoreCase : bool;
}.

Inductive ExpectedConst :=
| ExpectedRule (value : string)
| ExpectedLiteral (value : string) (ignoreCase : bool)
| ExpectedClass (value : list ClassPart) (inverted ignoreCase : bool)
| ExpectedAny.

Record FunctionDesc := mkFunctionDesc {
  fd_predicate : bool;
  fd_params : list string;
  fd_body : string;
  fd_location : LocationRange;
}.

#[global] Instance CharClassDesc_eq_dec : EqDecision CharClassDesc.
Proof. solve_decision. Defined.

#[global] Instance ExpectedConst_eq_dec : EqDecision ExpectedConst.
Proof. solve_decision. Defined.

#[global] Instance FunctionDesc_eq_dec : EqDecision FunctionDesc.
Proof. solve_decision. Defined.

(** The four arrays of the pass, and the [bytecode] fields it has assigned to
    rule nodes so far. *)
Record GenState := mkGenState {
  literals : list string;
  classes : list CharClassDesc;
  expectations : list ExpectedConst;
  functions : list FunctionDesc;
  bytecodes : gmap nat Bytecode;
}.

Definition emptyGenState : GenState := mkGenState [] [] [] [] ∅.

(** [pool.indexOf(x)] / [pool.findIndex(c => JSON.stringify(c) === pattern)]:
    the position of the first entry equal to [x]. *)
Fixpoint indexOf {A : Type} `{EqDecision A} (x : A) (pool : list A)
  : option nat :=
  match pool with
  | [] => None
  | y :: pool' =>
      if decide (y = x) then Some 0
      else match indexOf x pool' with
           | Some i => Some (S i)
           | None => None
           end
  end.

(** [index === -1 ? pool.push(x) - 1 : index], with the pool afterwards *)
Definition addConst {A : Type} `{EqDecision A} (x : A) (pool : list A)
  : nat * list A :=
  match indexOf x pool with
  | Some i => (i, pool)
  | None => (length pool, pool ++ [x])
  end.

Definition addLiteralConst (value : string) : M GenState nat :=
  fun st =>
    let (i, pool) := addConst value (literals st) in
    (Ok i, mkGenState pool (classes st) (expectations st) (functions st)
             (bytecodes st)).

Definition addClassConst (parts : list ClassPart) (inverted ignoreCase : bool)
  : M GenState nat :=
  fun st =>
    let (i, pool) :=
      addConst (mkCharClassDesc parts inverted ignoreCase) (classes st) in
    (Ok i, mkGenState (literals st) pool (expectations st) (functions st)
             (bytecodes st)).

Definition addExpectedConst (expected : ExpectedConst) : M GenState nat :=
  fun st =>
    let (i, pool) := addConst expected (expectations st) in
    (Ok i, mkGenState (literals st) (classes st) pool (functions st)
             (bytecodes st)).

Definition addFunctionConst (predicate : bool) (params : list string)
    (node : CodeNode) : M GenState nat :=
  fun st =>
    let (i, pool) :=
      addConst
        (mkFunctionDesc predicate params (cn_code node) (cn_codeLocation node))
        (functions st) in
    (Ok i, mkGenState (literals st) (classes st) (expectations st) pool
             (bytecodes st)).

Definition setBytecode (r : Rule) (code : Bytecode) : M GenState unit :=
  fun st =>
    (Ok tt, mkGenState (literals st) (classes st) (expectations st)
              (functions st) (<[node_id (rule_info r) := code]> (bytecodes st))).

(** [cond ? c : ret None], for an index that is computed on a condition *)
Definition whenM {S A : Type} (cond : bool) (c : M S A) : M S (option A) :=
  if cond then let* a := c in ret (Some a) else ret None.

(** *** Environments

    [Record<string, number>]: label names with the stack position of their
    value.  The keys are label names, which [Object.keys] lists in the order
    of their first assignment, so the object is an association list that an
    assignment either updates in place or extends at the end.  The key
    [__proto__] is the exception, as for every plain object: an assignment to
    it goes to the setter of [Object.prototype], which ignores a number, and
    the object stays as it was. *)
Definition Env := list (string * Z).


(** The own property [name] made or overwritten. *)
Fixpoint env_put (name : string) (v : Z) (env : Env) : Env :=
  match env with
  | [] => [(name, v)]
  | (k, w) :: env' =>
      if String.eqb k name then (k, v) :: env'
      else (k, w) :: env_put name v env'
  end.

(** [env[name] = v] *)
Definition env_set (name : string) (v : Z) (env : Env) : Env :=
  if String.eqb name "__proto__" then env else env_put name v env.

(** [Object.keys(env)] *)
Definition env_keys (env : Env) : list string := map fst env.

(** The [Context] of the generator.  [env] and [pluck] are the objects the
    context refers to, as they are when the callee starts. *)
Record Context := mkContext {
  sp : Z;
  env : Env;
  pluck : option (list Z);
  action : option CodeNode;
}.

(** What a call of [generate] leaves: the code it returns, and the objects
    [context.env] and [context.pluck] of its caller as they are afterwards. *)
Record Generated := mkGenerated {
  out_code : Bytecode;
  out_env : Env;
  out_pluck : option (list Z);
}.

(** *** Code builders *)

Definition buildCondition (m : MatchResult)
    (condCode thenCode elseCode : Bytecode) : Bytecode :=
  match m with
  | ALWAYS => thenCode
  | NEVER => elseCode
  | SOMETIMES => condCode ++ [len thenCode; len elseCode] ++ thenCode ++ elseCode
  end.

Definition buildLoop (condCode bodyCode : Bytecode) : Bytecode :=
  condCode ++ [len bodyCode] ++ bodyCode.

Definition buildCall (functionIndex : option nat) (delta : Z) (env : Env)
    (sp : Z) : Bytecode :=
  let params := map (fun kv => Num (sp - snd kv)) env in
  [Num op.CALL; idx functionIndex; Num delta; len params] ++ params.

Definition buildAppendLoop (expressionCode : Bytecode) : Bytecode :=
  buildLoop (ins op.WHILE_NOT_ERROR) (ins op.APPEND ++ expressionCode).

(** *** The visitor [generate] *)

Definition isSometimes (m : MatchResult) : bool := bool_decide (m = SOMETIMES).

Section Generate.
(** [String.prototype.toLowerCase] *)
Variable toLowerCase : string -> string.
Variable ast : Grammar.
(** the [match] annotations of the expression nodes *)
Variable nm : gmap nat MatchResult.

(** [node.match || MatchResult.SOMETIMES] *)
Definition matchOf (e : Expr) : MatchResult :=
  matchOrSometimes (nm !! node_id (info e)).

Import op.
Local Open Scope Z_scope.

(** The two recursive helpers of the [choice] and [sequence] handlers, over
    the visitor [gen] they call. *)
Section Builders.
Variable gen : Expr -> Context -> M GenState Generated.

(** [buildAlternativesCode(alternatives, context)]; reading
    [alternatives[0].match] of an empty array is a [TypeError]. *)
Fixpoint buildAlternativesCode (context : Context) (alternatives : list Expr)
  : M GenState Bytecode :=
  match alternatives with
  | [] => throw TypeError
  | first :: rest =>
      let m := matchOf first in
      let* out :=
        gen first (mkContext (sp context) (env context) None None) in
      if isAlways m then ret (out_code out)
      else
        match rest with
        | [] => ret (out_code out)
        | _ :: _ =>
            let* restCode := buildAlternativesCode context rest in
            ret (out_code out
                 ++ buildCondition SOMETIMES (ins IF_ERROR)
                      (ins POP ++ restCode) [])
        end
  end.

(** [buildElementsCode(elements, context)], with [total] for
    [node.elements.length]; it returns the code and the environment object of
    the context as the elements left it. *)
Fixpoint buildElementsCode (total : nat) (elements : list Expr)
    (context : Context) : M GenState (Bytecode * Env) :=
  match elements with
  | first :: rest =>
      let processedCount := (total - length elements + 1)%nat in
      let* out :=
        gen first
          (mkContext (sp context) (env context) (pluck context) None) in
      let* restOut :=
        buildElementsCode total rest
          (mkContext (sp context + 1) (out_env out) (out_pluck out)
             (action context)) in
      ret (out_code out
           ++ buildCondition (matchOf first) (ins IF_NOT_ERROR)
                (fst restOut)
                ((if Nat.ltb 1 processedCount
                  then [Num POP_N; Num (Z.of_nat processedCount)]
                  else ins POP)
                 ++ ins POP_CURR_POS ++ ins PUSH_FAILED),
           snd restOut)
  | [] =>
      match pluck context with
      | Some (p :: pl) =>
          ret ([Num PLUCK; Num (Z.of_nat total + 1);
                Num (Z.of_nat (length (p :: pl)))]
               ++ map (fun eSP => Num (sp context - eSP)) (p :: pl),
               env context)
      | _ =>
          match action context with
          | Some a =>
              let* functionIndex :=
                addFunctionConst false (env_keys (env context)) a in
              ret ([Num LOAD_SAVED_POS; Num (Z.of_nat total)]
                   ++ buildCall (Some functionIndex) (Z.of_nat total + 1)
                        (env context) (sp context),
                   env context)
          | None =>
              ret ([Num WRAP; Num (Z.of_nat total)] ++ ins NIP, env context)
          end
      end
  end.
End Builders.

Fixpoint generate (e : Expr) (context : Context) {struct e}
  : M GenState Generated :=
  match e with
  | Named _ name e' =>
      let m := matchOf e in
      let* nameIndex :=
        whenM (negb (isNever m)) (addExpectedConst (ExpectedRule name)) in
      let* out := generate e' context in
      ret (mkGenerated
             (ins SILENT_FAILS_ON ++ out_code out ++ ins SILENT_FAILS_OFF
              ++ buildCondition m (ins IF_ERROR)
                   [Num FAIL; idx nameIndex] [])
             (out_env out) (out_pluck out))
  | Choice _ alternatives =>
    let* code := buildAlternativesCode generate context alternatives in
    ret (mkGenerated code (env context) (pluck context))
| Action _ code codeLocation e' =>
      let node := mkCodeNode code codeLocation in
      let emitCall :=
        match e' with Sequence _ (_ :: _) => false | _ => true end in
      let* out :=
        generate e'
          (mkContext (sp context + (if emitCall then 1 else 0))
             (env context) None (Some node)) in
      let m := matchOf e' in
      let* functionIndex :=
        whenM (emitCall && negb (isNever m))
          (addFunctionConst false (env_keys (out_env out)) node) in
      ret (mkGenerated
             (if emitCall then
                ins PUSH_CURR_POS ++ out_code out
                ++ buildCondition m (ins IF_NOT_ERROR)
                     ([Num LOAD_SAVED_POS; Num 1]
                      ++ buildCall functionIndex 1 (out_env out)
                           (sp context + 2))
                     []
                ++ ins NIP
              else out_code out)
             (env context) (pluck context))
  | Sequence _ elements =>
    let* r :=
      buildElementsCode generate (length elements) elements
        (mkContext (sp context + 1) (env context) (Some [])
           (action context)) in
    ret (mkGenerated (ins PUSH_CURR_POS ++ fst r) (snd r) (pluck context))
| Labeled _ pick label _ e' =>
      let spv := sp context + 1 in
      let* pl :=
        if pick then
          match pluck context with
          | None => throw (JsError "Impossible")
          | Some p => ret (Some (p ++ [spv]))
          end
        else ret (pluck context) in
      let* out :=
        generate e' (mkContext (sp context) (env context) None None) in
      ret (mkGenerated (out_code out)
             (match truthy label with
              | Some l => env_set l spv (env context)
              | None => out_env out
              end) pl)
  | Text _ e' =>
      let* out :=
        generate e' (mkContext (sp context + 1) (env context) None None) in
      ret (mkGenerated
             (ins PUSH_CURR_POS ++ out_code out
              ++ buildCondition (matchOf e) (ins IF_NOT_ERROR)
                   (ins POP ++ ins TEXT) (ins NIP))
             (env context) (pluck context))
  | SimpleAnd _ e' =>
      let m := matchOf e' in
      let* out :=
        generate e' (mkContext (sp context + 1) (env context) None None) in
      ret (mkGenerated
             (ins PUSH_CURR_POS ++ ins SILENT_FAILS_ON ++ out_code out
              ++ ins SILENT_FAILS_OFF
              ++ buildCondition m (ins IF_NOT_ERROR)
                   (ins POP ++ ins POP_CURR_POS ++ ins PUSH_UNDEFINED)
                   (ins POP ++ ins POP ++ ins PUSH_FAILED))
             (env context) (pluck context))
  | SimpleNot _ e' =>
      let m := matchOf e' in
      let* out :=
        generate e' (mkContext (sp context + 1) (env context) None None) in
      ret (mkGenerated
             (ins PUSH_CURR_POS ++ ins SILENT_FAILS_ON ++ out_code out
              ++ ins SILENT_FAILS_OFF
              ++ buildCondition (negate m) (ins IF_ERROR)
                   (ins POP ++ ins POP ++ ins PUSH_UNDEFINED)
                   (ins POP ++ ins POP_CURR_POS ++ ins PUSH_FAILED))
             (env context) (pluck context))
  | Optional _ e' =>
      let* out :=
        generate e' (mkContext (sp context) (env context) None None) in
      ret (mkGenerated
             (out_code out
              ++ buildCondition (negate (matchOf e')) (ins IF_ERROR)
                   (ins POP ++ ins PUSH_NULL) [])
             (env context) (pluck context))
  | ZeroOrMore _ e' =>
      let* out :=
        generate e' (mkContext (sp context + 1) (env context) None None) in
      ret (mkGenerated
             (ins PUSH_EMPTY_ARRAY ++ out_code out
              ++ buildAppendLoop (out_code out) ++ ins POP)
             (env context) (pluck context))
  | OneOrMore _ e' =>
      let* out :=
        generate e' (mkContext (sp context + 1) (env context) None None) in
      ret (mkGenerated
             (ins PUSH_EMPTY_ARRAY ++ out_code out
              ++ buildCondition (matchOf e') (ins IF_NOT_ERROR)
                   (buildAppendLoop (out_code out) ++ ins POP)
                   (ins POP ++ ins POP ++ ins PUSH_FAILED))
             (env context) (pluck context))
  | Group _ e' =>
      let* out :=
        generate e' (mkContext (sp context) (env context) None None) in
      ret (mkGenerated (out_code out) (env context) (pluck context))
  | SemanticAnd _ code codeLocation =>
      let* functionIndex :=
        addFunctionConst true (env_keys (env context))
          (mkCodeNode code codeLocation) in
      ret (mkGenerated
             (ins UPDATE_SAVED_POS
              ++ buildCall (Some functionIndex) 0 (env context) (sp context)
              ++ buildCondition (matchOf e) (ins IF)
                   (ins POP ++ ins PUSH_UNDEFINED)
                   (ins POP ++ ins PUSH_FAILED))
             (env context) (pluck context))
  | SemanticNot _ code codeLocation =>
      let* functionIndex :=
        addFunctionConst true (env_keys (env context))
          (mkCodeNode code codeLocation) in
      ret (mkGenerated
             (ins UPDATE_SAVED_POS
              ++ buildCall (Some functionIndex) 0 (env context) (sp context)
              ++ buildCondition (matchOf e) (ins IF)
                   (ins POP ++ ins PUSH_FAILED)
                   (ins POP ++ ins PUSH_UNDEFINED))
             (env context) (pluck context))
  | RuleRef _ name =>
      ret (mkGenerated [Num RULE; Num (indexOfRule ast name)]
             (env context) (pluck context))
  | Literal _ value ignoreCase =>
      if Nat.ltb 0 (String.length value) then
        let m := matchOf e in
        let needConst := isSometimes m || (isAlways m && negb ignoreCase) in
        let* stringIndex :=
          whenM needConst
            (addLiteralConst
               (if ignoreCase then toLowerCase value else value)) in
        let* expectedIndex :=
          whenM (negb (isAlways m))
            (addExpectedConst (ExpectedLiteral value ignoreCase)) in
        ret (mkGenerated
               (buildCondition m
                  (if ignoreCase then [Num MATCH_STRING_IC; idx stringIndex]
                   else [Num MATCH_STRING; idx stringIndex])
                  (if ignoreCase
                   then [Num ACCEPT_N; Num (Z.of_nat (String.length value))]
                   else [Num ACCEPT_STRING; idx stringIndex])
                  [Num FAIL; idx expectedIndex])
               (env context) (pluck context))
      else ret (mkGenerated (ins PUSH_EMPTY_STRING)
                  (env context) (pluck context))
  | Class _ parts inverted ignoreCase =>
      let m := matchOf e in
      let* classIndex :=
        whenM (isSometimes m) (addClassConst parts inverted ignoreCase) in
      let* expectedIndex :=
        whenM (negb (isAlways m))
          (addExpectedConst (ExpectedClass parts inverted ignoreCase)) in
      ret (mkGenerated
             (buildCondition m [Num MATCH_CHAR_CLASS; idx classIndex]
                [Num ACCEPT_N; Num 1] [Num FAIL; idx expectedIndex])
             (env context) (pluck context))
  | Any _ =>
      let m := matchOf e in
      let* expectedIndex :=
        whenM (negb (isAlways m)) (addExpectedConst ExpectedAny) in
      ret (mkGenerated
             (buildCondition m (ins MATCH_ANY)
                [Num ACCEPT_N; Num 1] [Num FAIL; idx expectedIndex])
             (env context) (pluck context))
  end.

(** The [rule] handler: a fresh context, and the code kept on the node. *)
Definition generateRule (r : Rule) : M GenState unit :=
  let* out := generate (rule_expression r) (mkContext (-1) [] (Some []) None) in
  setBytecode r (out_code out).

(** The [grammar] handler, up to the assignment of the pools. *)
Definition generateGrammar : M GenState unit :=
  forEach generateRule (rules ast).
End Generate.

(** *** Well-formed bytecode

    The shape an interpreter of the bytecode relies on: every instruction has
    its operands, the two lengths after a condition are those of the branches
    that follow it inline, the length after a loop is that of its body, and
    [RULE r] names one of the [n] rules. *)

(** Instructions without operands, and with one operand that is not a rule. *)
Definition plainArity (opcode : Z) : option nat :=
  if bool_decide (opcode ∈ [op.PUSH_EMPTY_STRING; op.PUSH_UNDEFINED;
                             op.PUSH_NULL; op.PUSH_FAILED; op.PUSH_EMPTY_ARRAY;
                             op.PUSH_CURR_POS; op.POP; op.POP_CURR_POS; op.NIP;
                             op.APPEND; op.TEXT; op.UPDATE_SAVED_POS;
                             op.SILENT_FAILS_ON; op.SILENT_FAILS_OFF])
  then Some 0%nat
  else if bool_decide (opcode ∈ [op.POP_N; op.WRAP; op.ACCEPT_N;
                                  op.ACCEPT_STRING; op.FAIL; op.LOAD_SAVED_POS])
  then Some 1%nat
  else None.

(** Conditions, with the number of operands before the two lengths. *)
Definition condArity (opcode : Z) : option nat :=
  if bool_decide (opcode ∈ [op.IF; op.IF_ERROR; op.IF_NOT_ERROR; op.MATCH_ANY])
  then Some 0%nat
  else if bool_decide (opcode ∈ [op.MATCH_STRING; op.MATCH_STRING_IC;
                                  op.MATCH_CHAR_CLASS])
  then Some 1%nat
  else None.

Definition isNum (c : Cell) : Prop :=
  match c with
  | Num _ => True
  | Null => False
  end.

Inductive WellFormed (n : nat) : Bytecode -> Prop :=
| wf_nil : WellFormed n []
| wf_plain opcode args rest :
    plainArity opcode = Some (length args) ->
    Forall isNum args ->
    WellFormed n rest ->
    WellFormed n (Num opcode :: args ++ rest)
| wf_rule r rest :
    (0 <= r < Z.of_nat n)%Z ->
    WellFormed n rest ->
    WellFormed n (Num op.RULE :: Num r :: rest)
| wf_pluck total offsets rest :
    Forall isNum offsets ->
    WellFormed n rest ->
    WellFormed n (Num op.PLUCK :: Num total :: len offsets :: offsets ++ rest)
| wf_call f delta params rest :
    Forall isNum params ->
    WellFormed n rest ->
    WellFormed n
      (Num op.CALL :: Num f :: Num delta :: len params :: params ++ rest)
| wf_cond opcode operands thenCode elseCode rest :
    condArity opcode = Some (length operands) ->
    Forall isNum operands ->
    WellFormed n thenCode ->
    WellFormed n elseCode ->
    WellFormed n rest ->
    WellFormed n
      (Num opcode :: operands ++ [len thenCode; len elseCode]
       ++ thenCode ++ elseCode ++ rest)
| wf_loop body rest :
    WellFormed n body ->
    WellFormed n rest ->
    WellFormed n (Num op.WHILE_NOT_ERROR :: len body :: body ++ rest).

(** Every [rule_ref] of the expression names a rule of the grammar. *)
Fixpoint refsResolve (ast : Grammar) (e : Expr) : bool :=
  match e with
  | RuleRef _ name =>
      match findRule ast name with Some _ => true | None => false end
  | Choice _ l | Sequence _ l => forallb (refsResolve ast) l
  | Named _ _ e' | Action _ _ _ e' | Labeled _ _ _ _ e' | Text _ e'
  | SimpleAnd _ e' | SimpleNot _ e' | Optional _ e' | ZeroOrMore _ e'
  | OneOrMore _ e' | Group _ e' => refsResolve ast e'
  | SemanticAnd _ _ _ | SemanticNot _ _ _ | Literal _ _ _ | Class _ _ _ _
  | Any _ => true
  end.

Definition allRefsResolve (ast : Grammar) : bool :=
  forallb (fun r => refsResolve ast (rule_expression r)) (rules ast).

(** ** The compiler driver *)

(** The grammar with what the passes have attached to its nodes. *)
Record Ast := mkAst {
  grammar : Grammar;
  matches : Matches;
  ast_bytecodes : gmap nat Bytecode;
  (** [literals], [classes], [expectations], [functions] *)
  pools : option (list string * list CharClassDesc * list ExpectedConst
                  * list FunctionDesc);
  (** [ast.code], the output of the code emitter *)
  code : option string;
}.

Definition parsedAst (g : Grammar) : Ast := mkAst g noMatches ∅ None None.

Record CompilerState := mkCompilerState {
  cs_ast : Ast;
  cs_session : Session;
}.

Record RawOptions := mkRawOptions {
  opt_allowedStartRules : option (list string);
  opt_cache : option bool;
  opt_trace : option bool;
  opt_grammarSource : option string;
  opt_output : option string;
  opt_format : option string;
  opt_error : Callback;
  opt_warning : Callback;
  opt_info : Callback;
}.

(** [{}], the default of [compile] *)
Definition noOptions : RawOptions :=
  mkRawOptions None None None None None None Undefined Undefined Undefined.

(** Options that hold nothing but the three callbacks. *)
Definition callbackOptions : RawOptions :=
  mkRawOptions None None None None None None IsFunction IsFunction IsFunction.

(** The keys [error], [warning] and [info] of the parsed options are
    [on_error], [on_warning] and [on_info] here. *)
Record ParsedOptions := mkParsedOptions {
  output : string;
  allowedStartRules : list string;
  cache : bool;
  trace : bool;
  grammarSource : option string;
  format : option string;
  on_error : Callback;
  on_warning : Callback;
  on_info : Callback;
}.

(** A pass is called with the grammar, the options and the session; of the
    session it gets the state, in [CompilerState], and the callbacks. *)
Record Pass := mkPass {
  pass_name : string;
  pass_run : Callbacks -> ParsedOptions -> M CompilerState unit;
}.

Definition Stages := list (Stage * list Pass).

Definition inSession {A : Type} (c : M Session A) : M CompilerState A :=
  zoom cs_session (fun s cs => mkCompilerState (cs_ast cs) s) c.

Definition memberb (x : string) (l : list string) : bool :=
  existsb (String.eqb x) l.

(** [parseModuleFormats]: the [format] it yields, if any. *)
Definition parseModuleFormats (fmt : option string) : option string :=
  match fmt with
  | None => Some "bare"
  | Some f =>
      if memberb f ["amd"; "commonjs"; "es"; "bare"; "umd"; "globals"]
      then Some f else None
  end.

Definition parseOptions (getFirstRule : Res string) (options : RawOptions)
  : Res ParsedOptions :=
  let withAllowed (allowed : list string) : Res ParsedOptions :=
    let cache := match opt_cache options with Some b => b | None => false end in
    let trace := match opt_trace options with Some b => b | None => false end in
    match truthy (opt_output options) with
    | None =>
        Ok (mkParsedOptions "parser" allowed cache trace
              (opt_grammarSource options) (Some "bare")
              (opt_error options) (opt_warning options) (opt_info options))
    | Some o =>
        if memberb o ["parser"; "ast"] then
          Ok (mkParsedOptions o allowed cache trace
                (opt_grammarSource options) (Some "bare")
                (opt_error options) (opt_warning options) (opt_info options))
        else if memberb o ["source"; "source-and-map";
                           "source-with-inline-map"] then
          Ok (mkParsedOptions o allowed cache trace
                (opt_grammarSource options)
                (parseModuleFormats (opt_format options))
                (opt_error options) (opt_warning options) (opt_info options))
        else Throw (JsError ("Unknown output value: " ++ o))
    end in
  match opt_allowedStartRules options with
  | Some allowed => withAllowed allowed
  | None =>
      match getFirstRule with
      | Ok first => withAllowed [first]
      | Throw e => Throw e
      | OutOfFuel => OutOfFuel
      end
  end.

(** The closure handed to [parseOptions]. *)
Definition firstRuleName (ast : Grammar) : Res string :=
  match rules ast with
  | [] => Throw (JsError "Must have at least one start rule")
  | r :: _ => Ok (rule_name r)
  end.

(** The resolution of ["*"] and the check of the start rules. *)
Definition checkStartRules (ast : Grammar) (options : ParsedOptions)
  : Res ParsedOptions :=
  let allRules := map rule_name (rules ast) in
  if memberb "*" (allowedStartRules options) then
    Ok (mkParsedOptions (output options) allRules (cache options)
          (trace options) (grammarSource options) (format options)
          (on_error options) (on_warning options) (on_info options))
  else
    match List.find (fun r => negb (memberb r allRules))
            (allowedStartRules options) with
    | Some r => Throw (JsError ("Unknown start rule " ++ quoted r))
    | None => Ok options
    end.

Definition checkGrammarSource (options : ParsedOptions) : Res unit :=
  if memberb (output options) ["source-and-map"; "source-with-inline-map"]
     && match truthy (grammarSource options) with
        | Some _ => false
        | None => true
        end
  then Throw (JsError
    "Must provide grammarSource (as a string) in order to generate source maps")
  else Ok tt.

(** [new Session(options)]: the callbacks are what the keys [error],
    [warning] and [info] of the parsed options hold. *)
Definition callbacksOf (options : ParsedOptions) : Callbacks :=
  mkCallbacks (on_error options) (on_warning options) (on_info options).

(** One round of the loop over the stages, for a session with the callbacks
    [callbacks]. *)
Definition runStage (callbacks : Callbacks) (options : ParsedOptions)
    (st : Stage * list Pass) : M CompilerState unit :=
  let* _ := inSession (setStage (fst st)) in
  let* _ :=
    inSession
      (@Session_info callbacks ("Process stage " ++ fst st) None None) in
  let* _ :=
    forEach
      (fun pass =>
         let* _ :=
           inSession
             (@Session_info callbacks
                ("Process pass " ++ fst st ++ "." ++ pass_name pass)
                None None) in
         pass_run pass callbacks options)
      (snd st) in
  inSession checkErrors.

(** What [compile] returns, by [options.output]; the emitted code is kept as
    text. *)
Inductive CompileOutput :=
| OutParser (code : string)
| OutSource (code : string)
| OutSourceAndMap (code : string)
| OutSourceWithInlineMap (code : string)
| OutAst (ast : Ast).

Definition finish (options : ParsedOptions) : M CompilerState CompileOutput :=
  let* cs := get in
  match code (cs_ast cs) with
  | None => throw (JsError "Failed to generate code")
  | Some c =>
      if String.eqb (output options) "parser" then ret (OutParser c)
      else if String.eqb (output options) "source" then ret (OutSource c)
      else if String.eqb (output options) "source-and-map"
      then ret (OutSourceAndMap c)
      else if String.eqb (output options) "source-with-inline-map"
      then ret (OutSourceWithInlineMap c)
      else ret (OutAst (cs_ast cs))
  end.

Definition compile (ast : Ast) (stages : Stages) (rawOptions : RawOptions)
  : Res CompileOutput * CompilerState :=
  (let* options :=
     liftRes (parseOptions (firstRuleName (grammar ast)) rawOptions) in
   let* options := liftRes (checkStartRules (grammar ast) options) in
   let* _ := liftRes (checkGrammarSource options) in
   let* _ := forEach (runStage (callbacksOf options) options) stages in
   finish options)
    (mkCompilerState ast newSession).

(** *** The passes as the driver runs them *)

Definition onGrammar (c : Grammar -> M Session unit) : M CompilerState unit :=
  let* cs := get in inSession (c (grammar (cs_ast cs))).

(** [removeProxyRules(ast, options, session)]: the grammar of the state is
    the one the pass has changed in place, also when the pass throws. *)
Definition removeProxyRules (callbacks : Callbacks) (options : ParsedOptions)
  : M CompilerState unit :=
  fun cs =>
    let a := cs_ast cs in
    let '((g, r), s) :=
      @removeProxyRules_inPlace callbacks (allowedStartRules options)
        (grammar a) (cs_session cs) in
    (r, mkCompilerState
          (mkAst g (matches a) (ast_bytecodes a) (pools a) (code a)) s).

Definition inferenceMatchResult_pass (fuel : nat) : M CompilerState unit :=
  fun cs =>
    let a := cs_ast cs in
    let (r, m) := inferenceMatchResult fuel (grammar a) (matches a) in
    (r, mkCompilerState
          (mkAst (grammar a) m (ast_bytecodes a) (pools a) (code a))
          (cs_session cs)).

Definition generateBytecode (toLowerCase : string -> string)
  : M CompilerState unit :=
  fun cs =>
    let a := cs_ast cs in
    let (r, st) :=
      generateGrammar toLowerCase (grammar a) (nodeMatch (matches a))
        (mkGenState [] [] [] [] (ast_bytecodes a)) in
    (r, mkCompilerState
          (mkAst (grammar a) (matches a) (bytecodes st)
             (match r with
              | Ok _ => Some (literals st, classes st, expectations st,
                              functions st)
              | _ => pools a
              end)
             (code a))
          (cs_session cs)).

Definition checkPasses (fuel : nat) : list Pass :=
  [ mkPass "reportUndefinedRules"
      (fun callbacks _ => onGrammar (@reportUndefinedRules callbacks));
    mkPass "reportDuplicateRules"
      (fun callbacks _ => onGrammar (@reportDuplicateRules callbacks));
    mkPass "reportDuplicateLabels"
      (fun callbacks _ => onGrammar (@reportDuplicateLabels callbacks));
    mkPass "reportInfiniteRecursion"
      (fun callbacks _ =>
         onGrammar (@reportInfiniteRecursion callbacks fuel fuel));
    mkPass "reportInfiniteRepetition"
      (fun callbacks _ =>
         onGrammar (@reportInfiniteRepetition callbacks fuel));
    mkPass "reportIncorrectPlucking"
      (fun callbacks _ => onGrammar (@reportIncorrectPlucking callbacks)) ].

Definition transformPasses (fuel : nat) : list Pass :=
  [ mkPass "removeProxyRules" removeProxyRules;
    mkPass "inferenceMatchResult"
      (fun _ _ => inferenceMatchResult_pass fuel) ].

(** The default stages, [compiler.passes].  The code emitter [generateJS] is
    not among the sources and is a parameter. *)
Definition defaultStages (fuel : nat) (toLowerCase : string -> string)
    (generateJS : Pass) : Stages :=
  [ ("check", checkPasses fuel);
    ("transform", transformPasses fuel);
    ("generate",
      [mkPass "generateBytecode" (fun _ _ => generateBytecode toLowerCase);
       generateJS]) ].

(** The callbacks of [new Session()], the three defaults [ignored], and of
    every session made from options whose three keys hold functions that
    return.  The statements below that name no callbacks are about the
    methods and the passes of such a session. *)
#[global] Instance functionCallbacks : Callbacks :=
  mkCallbacks IsFunction IsFunction IsFunction.

(** ** Example grammars *)

Definition pos (l c o : nat) : Location := mkLocation l c o.

Definition span (o1 o2 : nat) : LocationRange :=
  mkRange "grammar.peggy" (pos 1 (S o1) o1) (pos 1 (S o2) o2).

(** [start = X] *)
Definition undefinedRuleGrammar : Grammar :=
  mkGrammar (mkInfo 0 (span 0 9)) None None
    [mkRule (mkInfo 1 (span 0 9)) "start" (span 0 5)
       (RuleRef (mkInfo 2 (span 8 9)) "X")].

(** [start = "a"] *)
Definition literalGrammar : Grammar :=
  mkGrammar (mkInfo 0 (span 0 11)) None None
    [mkRule (mkInfo 1 (span 0 11)) "start" (span 0 5)
       (Literal (mkInfo 2 (span 8 11)) "a" false)].

(** A grammar without rules. *)
Definition emptyGrammar : Grammar :=
  mkGrammar (mkInfo 0 (span 0 0)) None None [].


(** A stand-in for the code emitter that emits nothing. *)
Definition silentEmitter : Pass := mkPass "generateJS" (fun _ _ => ret tt).

(* ====================================================================== *)
(** * Notions the properties are stated with *)
(* ====================================================================== *)

(** The retained exception exists exactly when errors were counted. *)
Definition sessionConsistent (s : Session) : Prop :=
  errors s = 0%nat <-> firstError s = None.

(** The error that [reportUndefinedRules] records for [start = X]. *)
Definition undefinedRuleProblem : Problem :=
  mkProblem SevError ("Rule " ++ quoted "X" ++ " is not defined")
    (Some (span 8 9)) None.

Definition isErrorProblem (p : Problem) : bool :=
  match severity p with
  | SevError => true
  | _ => false
  end.

(** [alwaysConsumesOnSuccess(ast, e)] returns [b]. *)
Definition consumesOnSuccess (ast : Grammar) (e : Expr) (b : bool) : Prop :=
  exists fuel, alwaysConsumesOnSuccess ast fuel (NExpr e) = Ok b.

(** [start = "a"? "b"] *)
Definition optionalThenLiteral : Grammar :=
  mkGrammar (mkInfo 0 (span 0 16)) None None
    [mkRule (mkInfo 1 (span 0 16)) "start" (span 0 5)
       (Sequence (mkInfo 2 (span 8 16))
          [Optional (mkInfo 3 (span 8 12))
             (Literal (mkInfo 4 (span 8 11)) "a" false);
           Literal (mkInfo 5 (span 13 16)) "b" false])].

(** The identities of the rule nodes of a grammar. *)
Definition ruleIds (ast : Grammar) : gset nat :=
  list_to_set (map (fun r => node_id (rule_info r)) (rules ast)).

(** How many rules have no [match] yet. *)
Definition undefinedRules (ast : Grammar) (rm : gmap nat MatchResult) : nat :=
  size (ruleIds ast ∖ dom rm).

(** Every rule that a [rule_ref] of [e] finds has a [match] in [rm]. *)
Fixpoint refsKnown (ast : Grammar) (rm : gmap nat MatchResult) (e : Expr)
  : Prop :=
  match e with
  | RuleRef _ name =>
      match findRule ast name with
      | Some rule => is_Some (rm !! node_id (rule_info rule))
      | None => True
      end
  | Choice _ l | Sequence _ l =>
      fold_right (fun x acc => refsKnown ast rm x /\ acc) True l
  | Named _ _ e' | Action _ _ _ e' | Labeled _ _ _ _ e' | Text _ e'
  | SimpleAnd _ e' | SimpleNot _ e' | Optional _ e' | ZeroOrMore _ e'
  | OneOrMore _ e' | Group _ e' => refsKnown ast rm e'
  | SemanticAnd _ _ _ | SemanticNot _ _ _ | Literal _ _ _ | Class _ _ _ _
  | Any _ => True
  end.

(** [m'] is [m], or [m] was the undecided SOMETIMES. *)
Definition refines (m m' : MatchResult) : Prop := m = SOMETIMES \/ m = m'.

(** The [match] of a rule, SOMETIMES while it has none. *)
Definition ruleTag (rm : gmap nat MatchResult) (k : nat) : MatchResult :=
  match rm !! k with
  | Some m => m
  | None => SOMETIMES
  end.

(** What the two counters decide is what the table says. *)
Definition decideElements (always never total : nat) (forChoice : bool)
  : MatchResult :=
  if Nat.eqb always total then ALWAYS
  else if forChoice then (if Nat.eqb never total then NEVER else SOMETIMES)
  else (if Nat.ltb 0 never then NEVER else SOMETIMES).

(** What a visit of the body of a rule leaves, for a visitor that has [bound]
    rule entries left to spend. *)
Definition bodyInferred (ast : Grammar) (bound : nat) (body : Expr)
    (st : Matches) (out : Res MatchResult * Matches) : Prop :=
  match out with
  | (Ok m, st') =>
      ruleMatch st ⊆ ruleMatch st'
      /\ refsKnown ast (ruleMatch st') body
      /\ m = specMatch ast (ruleMatch st') body
  | (OutOfFuel, _) => bound <= S (undefinedRules ast (ruleMatch st))
  | (Throw _, _) => False
  end.

(** The node [e] carries the tag [m], unless it is a reference to a rule that
    does not exist: for such a node the visitor returns without an
    assignment. *)
Definition tagged (ast : Grammar) (e : Expr) (m : MatchResult) (st : Matches)
  : Prop :=
  match e with
  | RuleRef i name =>
      match findRule ast name with
      | Some _ => nodeMatch st !! node_id i = Some m
      | None => True
      end
  | _ => nodeMatch st !! node_id (info e) = Some m
  end.

(** What a visit of [e] from the state [st] leaves, for a visitor with [fuel]
    rule entries to spend: it never throws; if it returns [m], the rules keep
    the tags they had, every rule that [e] refers to has one, [m] is what the
    table gives for [e] from the tags of the rules, and the node is tagged
    [m]; it runs out of fuel only if as many rules were still without a tag. *)
Definition inferred (ast : Grammar) (fuel : nat) (e : Expr) (st : Matches)
    (out : Res MatchResult * Matches) : Prop :=
  match out with
  | (Ok m, st') =>
      ruleMatch st ⊆ ruleMatch st'
      /\ refsKnown ast (ruleMatch st') e
      /\ m = specMatch ast (ruleMatch st') e
      /\ tagged ast e m st'
  | (OutOfFuel, _) => fuel <= undefinedRules ast (ruleMatch st)
  | (Throw _, _) => False
  end.

(** The visitor of the rule bodies that a visitor with [fuel] entries left
    goes on with. *)
Definition bodyVisitor (ast : Grammar) (fuel : nat)
  : Expr -> M Matches MatchResult :=
  match fuel with
  | O => fun _ => outOfFuel
  | S fuel' => inference ast fuel'
  end.

(** The sequence ["a"? "b"] of [optionalThenLiteral]. *)
Definition optionalThenLiteral_body : Expr :=
  Sequence (mkInfo 2 (span 8 16))
    [Optional (mkInfo 3 (span 8 12))
       (Literal (mkInfo 4 (span 8 11)) "a" false);
     Literal (mkInfo 5 (span 13 16)) "b" false].

(** The renaming that [replace] performs when it returns. *)
Fixpoint renameRefs (from to : string) (e : Expr) : Expr :=
  match e with
  | RuleRef i name => if String.eqb name from then RuleRef i to else e
  | Named i n e' => Named i n (renameRefs from to e')
  | Choice i l => Choice i (map (renameRefs from to) l)
  | Action i c cl e' => Action i c cl (renameRefs from to e')
  | Sequence i l => Sequence i (map (renameRefs from to) l)
  | Labeled i p lb ll e' => Labeled i p lb ll (renameRefs from to e')
  | Text i e' => Text i (renameRefs from to e')
  | SimpleAnd i e' => SimpleAnd i (renameRefs from to e')
  | SimpleNot i e' => SimpleNot i (renameRefs from to e')
  | Optional i e' => Optional i (renameRefs from to e')
  | ZeroOrMore i e' => ZeroOrMore i (renameRefs from to e')
  | OneOrMore i e' => OneOrMore i (renameRefs from to e')
  | Group i e' => Group i (renameRefs from to e')
  | SemanticAnd _ _ _ | SemanticNot _ _ _ | Literal _ _ _ | Class _ _ _ _
  | Any _ => e
  end.

Definition renameGrammar (from to : string) (g : Grammar) : Grammar :=
  setRules g
    (map (fun r => setExpression r (renameRefs from to (rule_expression r)))
       (rules g)).



(** The name a proxy rule delegates to. *)
Definition proxyTarget (r : Rule) : option string :=
  match rule_expression r with
  | RuleRef _ name => Some name
  | _ => None
  end.




(** The names of the [rule_ref] nodes of an expression, of a grammar. *)
Fixpoint refNames (e : Expr) : list string :=
  match e with
  | RuleRef _ name => [name]
  | Choice _ l | Sequence _ l => flat_map refNames l
  | Named _ _ e' | Action _ _ _ e' | Labeled _ _ _ _ e' | Text _ e'
  | SimpleAnd _ e' | SimpleNot _ e' | Optional _ e' | ZeroOrMore _ e'
  | OneOrMore _ e' | Group _ e' => refNames e'
  | SemanticAnd _ _ _ | SemanticNot _ _ _ | Literal _ _ _ | Class _ _ _ _
  | Any _ => []
  end.







(** The loop of the pass without the session: what it computes whenever it
    returns. *)
Fixpoint proxyLoop_pure (allowed : list string) (n i : nat) (g : Grammar)
    (indices : list nat) : Grammar * list nat :=
  match n with
  | O => (g, indices)
  | S n' =>
      match rules g !! i with
      | None => (g, indices)
      | Some rule =>
          match proxyTarget rule with
          | Some target =>
              proxyLoop_pure allowed n' (S i)
                (renameGrammar (rule_name rule) target g)
                (if notAllowed allowed (rule_name rule)
                 then indices ++ [i] else indices)
          | None => proxyLoop_pure allowed n' (S i) g indices
          end
      end
  end.




(** [S = "x" A] and [A = A], with [S] the start rule. *)
Definition selfProxyGrammar : Grammar :=
  mkGrammar (mkInfo 0 (span 0 17)) None None
    [mkRule (mkInfo 1 (span 0 9)) "S" (span 0 1)
       (Sequence (mkInfo 2 (span 4 9))
          [Literal (mkInfo 3 (span 4 7)) "x" false;
           RuleRef (mkInfo 4 (span 8 9)) "A"]);
     mkRule (mkInfo 5 (span 11 16)) "A" (span 11 12)
       (RuleRef (mkInfo 6 (span 15 16)) "A")].

(** [A = B] and [B = "x"]. *)
Definition proxyGrammar : Grammar :=
  mkGrammar (mkInfo 0 (span 0 16)) None None
    [mkRule (mkInfo 1 (span 0 5)) "A" (span 0 1)
       (RuleRef (mkInfo 2 (span 4 5)) "B");
     mkRule (mkInfo 3 (span 7 14)) "B" (span 7 8)
       (Literal (mkInfo 4 (span 11 14)) "x" false)].

(** The session as the driver has it in the stage [transform]. *)
Definition transformSession : Session :=
  snd (setStage "transform" newSession).

(** The result of the pass on [proxyGrammar] with the start rule [B]. *)
Definition proxyGrammar_result : Grammar :=
  mkGrammar (mkInfo 0 (span 0 16)) None None
    [mkRule (mkInfo 3 (span 7 14)) "B" (span 7 8)
       (Literal (mkInfo 4 (span 11 14)) "x" false)].

(** A computation of the generator that always returns, and leaves the codes
    of the rules alone. *)
Definition returns {A : Type} (c : M GenState A) : Prop :=
  forall st,
    exists a st', c st = (Ok a, st') /\ bytecodes st' = bytecodes st.

(** Every code kept in the state is well formed. *)
Definition bytecodesWellFormed (n : nat) (st : GenState) : Prop :=
  forall k code, bytecodes st !! k = Some code -> WellFormed n code.

(** ** Notions for the helpers of asts.ts *)

(** The expression begins with a reference that leads back to the rule
    [name]: through the nodes that [consumes] looks through, the first
    alternative of a choice, the first element of a sequence, and the bodies
    of the rules referred to on the way. *)
Inductive startsWith (ast : Grammar) (name : string) : Expr -> Prop :=
| sw_self i : startsWith ast name (RuleRef i name)
| sw_rule i n r :
    findRule ast n = Some r ->
    startsWith ast name (rule_expression r) ->
    startsWith ast name (RuleRef i n)
| sw_named i n e : startsWith ast name e -> startsWith ast name (Named i n e)
| sw_action i c cl e :
    startsWith ast name e -> startsWith ast name (Action i c cl e)
| sw_labeled i p lb ll e :
    startsWith ast name e -> startsWith ast name (Labeled i p lb ll e)
| sw_text i e : startsWith ast name e -> startsWith ast name (Text i e)
| sw_one_or_more i e :
    startsWith ast name e -> startsWith ast name (OneOrMore i e)
| sw_group i e : startsWith ast name e -> startsWith ast name (Group i e)
| sw_choice i e l :
    startsWith ast name e -> startsWith ast name (Choice i (e :: l))
| sw_sequence i e l :
    startsWith ast name e -> startsWith ast name (Sequence i (e :: l)).

(** The references of the grammar are not circular: some rank of the rule
    names decreases from each rule to the rules its body refers to. *)
Definition refsRanked (rank : string -> nat) (ast : Grammar) : Prop :=
  forall r n,
    In r (rules ast) -> In n (refNames (rule_expression r)) ->
    (rank n < rank (rule_name r))%nat.

(** ** Notions for the check passes *)

(** The exception that a session in the stage [st] retains for the error
    [p], when [p] is the first one. *)
Definition retained (st : option Stage) (p : Problem) : GrammarError :=
  {| ge_message := message p;
     ge_location := problem_location p;
     ge_diagnostics := match problem_notes p with Some d => d | None => [] end;
     ge_stage := st;
     ge_problems := SessionProblems |}.

(** The session [s] after the errors [ps] were reported to it, in this order,
    while its stage was [st]. *)
Definition withErrors (st : Stage) (ps : list Problem) (s : Session)
  : Session :=
  {| problems := problems s ++ ps;
     stage := stage s;
     firstError :=
       match firstError s, ps with
       | Some e, _ => Some e
       | None, p :: _ => Some (retained (stage s) p)
       | None, [] => None
       end;
     errors := errors s + length ps;
     notified := notified s ++ map (pair st) ps |}.

(** The computation returns on every session whose stage is set, and what it
    does to the session is to report the errors [ps]. *)
Definition reports {A : Type} (c : M Session A) (ps : list Problem) : Prop :=
  forall s st,
    stageSet (stage s) = Some st ->
    exists a, c s = (Ok a, withErrors st ps s).

(** The [rule_ref] nodes of an expression, in the order of a visit. *)
Fixpoint ruleRefs (e : Expr) : list (NodeInfo * string) :=
  match e with
  | RuleRef i name => [(i, name)]
  | Choice _ l | Sequence _ l => flat_map ruleRefs l
  | Named _ _ e' | Action _ _ _ e' | Labeled _ _ _ _ e' | Text _ e'
  | SimpleAnd _ e' | SimpleNot _ e' | Optional _ e' | ZeroOrMore _ e'
  | OneOrMore _ e' | Group _ e' => ruleRefs e'
  | SemanticAnd _ _ _ | SemanticNot _ _ _ | Literal _ _ _ | Class _ _ _ _
  | Any _ => []
  end.

Definition isMissing (ast : Grammar) (ref : NodeInfo * string) : bool :=
  match findRule ast (snd ref) with
  | Some _ => false
  | None => true
  end.

(** The references of the grammar to rules it does not have, in the order
    of the text. *)
Definition missingRefs (ast : Grammar) : list (NodeInfo * string) :=
  List.filter (isMissing ast)
    (flat_map (fun r => ruleRefs (rule_expression r)) (rules ast)).

Definition undefinedProblem (ref : NodeInfo * string) : Problem :=
  mkProblem SevError ("Rule " ++ quoted (snd ref) ++ " is not defined")
    (Some (location (fst ref))) None.

(** A name that a plain object keeps as an own property when it is assigned
    to: any but [__proto__]. *)
Definition ownName (name : string) : bool :=
  negb (String.eqb name "__proto__").

(** The rules among [rs], which sit at the indices [k], [k+1], ..., that are
    not the first rule of their name in the grammar, the rules named
    [__proto__] left aside. *)
Fixpoint repeatedRules (ast : Grammar) (k : nat) (rs : list Rule)
  : list Rule :=
  match rs with
  | [] => []
  | r :: rs' =>
      (if Z.eqb (indexOfRule ast (rule_name r)) (Z.of_nat k)
          || negb (ownName (rule_name r))
       then [] else [r])
      ++ repeatedRules ast (S k) rs'
  end.

(** The error for a repeated rule: it points at the name of the rule, with a
    note that points at the name of the first rule of that name. *)
Definition duplicateRuleProblem (ast : Grammar) (r : Rule) : Problem :=
  mkProblem SevError
    ("Rule " ++ quoted (rule_name r) ++ " is already defined")
    (Some (nameLocation r))
    (Some [mkNote "Original rule location"
             (match findRule ast (rule_name r) with
              | Some original => nameLocation original
              | None => nameLocation r
              end)]).

(** The labels of an expression, all of them, in the order of the text. *)
Fixpoint labelsOf (e : Expr) : list string :=
  match e with
  | Labeled _ _ label _ e' =>
      match truthy label with
      | Some l => l :: labelsOf e'
      | None => labelsOf e'
      end
  | Choice _ l | Sequence _ l => flat_map labelsOf l
  | Named _ _ e' | Action _ _ _ e' | Text _ e' | SimpleAnd _ e'
  | SimpleNot _ e' | Optional _ e' | ZeroOrMore _ e' | OneOrMore _ e'
  | Group _ e' => labelsOf e'
  | SemanticAnd _ _ _ | SemanticNot _ _ _ | RuleRef _ _ | Literal _ _ _
  | Class _ _ _ _ | Any _ => []
  end.

(** What the visitor of [reportDuplicateLabels] does from the environment
    [env]: it returns, what it does to the session is to report the errors
    [ps], the environment keeps its labels and gains labels of the expression
    only, and nothing is reported when the labels of the expression are
    pairwise distinct and none of them is in [env]. *)
Definition labelsChecked (step : gmap string LocationRange ->
                                 M Session (gmap string LocationRange))
    (labels : list string) : Prop :=
  forall env s st,
    stageSet (stage s) = Some st ->
    exists env' ps,
      step env s = (Ok env', withErrors st ps s)
      /\ (forall k, is_Some (env !! k) -> is_Some (env' !! k))
      /\ (forall k, is_Some (env' !! k) -> is_Some (env !! k) \/ In k labels)
      /\ (NoDup labels -> (forall k, In k labels -> env !! k = None) ->
          ps = []).

Definition duplicateLabelProblem (l : string)
    (labelLocation original : LocationRange) : Problem :=
  mkProblem SevError ("Label " ++ quoted l ++ " is already defined")
    (Some labelLocation) (Some [mkNote "Original label location" original]).

(** The sequence [a:"x" b:(c:"y" "z")] of [distinctLabelGrammar]. *)
Definition distinctLabels_body : Expr :=
  Sequence (mkInfo 2 (span 8 26))
    [Labeled (mkInfo 3 (span 8 13)) false (Some "a") (span 8 9)
       (Literal (mkInfo 4 (span 10 13)) "x" false);
     Labeled (mkInfo 5 (span 14 26)) false (Some "b") (span 14 15)
       (Group (mkInfo 6 (span 16 26))
          (Sequence (mkInfo 7 (span 17 25))
             [Labeled (mkInfo 8 (span 17 22)) false (Some "c") (span 17 18)
                (Literal (mkInfo 9 (span 19 22)) "y" false);
              Literal (mkInfo 10 (span 23 26)) "z" false]))].

(** [start = a:"x" b:(c:"y" "z")] *)
Definition distinctLabelGrammar : Grammar :=
  mkGrammar (mkInfo 0 (span 0 26)) None None
    [mkRule (mkInfo 1 (span 0 26)) "start" (span 0 5) distinctLabels_body].

(** [start = a:"x" a:"y"] *)
Definition repeatedLabelGrammar : Grammar :=
  mkGrammar (mkInfo 0 (span 0 19)) None None
    [mkRule (mkInfo 1 (span 0 19)) "start" (span 0 5)
       (Sequence (mkInfo 2 (span 8 19))
          [Labeled (mkInfo 3 (span 8 13)) false (Some "a") (span 8 9)
             (Literal (mkInfo 4 (span 10 13)) "x" false);
           Labeled (mkInfo 5 (span 14 19)) false (Some "a") (span 14 15)
             (Literal (mkInfo 6 (span 16 19)) "y" false)])].

(** Some labeled node of the expression is a pick ([@]). *)
Fixpoint hasPick (e : Expr) : bool :=
  match e with
  | Labeled _ pick _ _ e' => pick || hasPick e'
  | Choice _ l | Sequence _ l => existsb hasPick l
  | Named _ _ e' | Action _ _ _ e' | Text _ e' | SimpleAnd _ e'
  | SimpleNot _ e' | Optional _ e' | ZeroOrMore _ e' | OneOrMore _ e'
  | Group _ e' => hasPick e'
  | SemanticAnd _ _ _ | SemanticNot _ _ _ | RuleRef _ _ | Literal _ _ _
  | Class _ _ _ _ | Any _ => false
  end.

(** Some node of the expression is an action. *)
Fixpoint hasAction (e : Expr) : bool :=
  match e with
  | Action _ _ _ _ => true
  | Choice _ l | Sequence _ l => existsb hasAction l
  | Named _ _ e' | Labeled _ _ _ _ e' | Text _ e' | SimpleAnd _ e'
  | SimpleNot _ e' | Optional _ e' | ZeroOrMore _ e' | OneOrMore _ e'
  | Group _ e' => hasAction e'
  | SemanticAnd _ _ _ | SemanticNot _ _ _ | RuleRef _ _ | Literal _ _ _
  | Class _ _ _ _ | Any _ => false
  end.

Definition pluckProblem (labelLocation codeLocation : LocationRange)
  : Problem :=
  mkProblem SevError
    (dquote ++ "@" ++ dquote ++ " cannot be used with an action block")
    (Some labelLocation)
    (Some [mkNote "Action block location" codeLocation]).

(** The computation returns on every session whose stage is set, and what it
    does to the session is to report errors. *)
Definition reportsErrors {A : Type} (c : M Session A) : Prop :=
  forall s st,
    stageSet (stage s) = Some st ->
    exists a ps, c s = (Ok a, withErrors st ps s).

(** [start = @"x" "y" { return 1 }] *)
Definition pluckInActionGrammar : Grammar :=
  mkGrammar (mkInfo 0 (span 0 30)) None None
    [mkRule (mkInfo 1 (span 0 30)) "start" (span 0 5)
       (Action (mkInfo 2 (span 8 30)) " return 1 " (span 17 29)
          (Sequence (mkInfo 3 (span 8 16))
             [Labeled (mkInfo 4 (span 8 12)) true None (span 8 9)
                (Literal (mkInfo 5 (span 9 12)) "x" false);
              Literal (mkInfo 6 (span 13 16)) "y" false]))].

(** ** Notions for [reportInfiniteRecursion] *)

(** The loop of the [sequence] handler of [reportInfiniteRecursion] over the
    elements that are left, with the visitor [check]. *)
Section SequenceLoop.
Variable ast : Grammar.
Variable cfuel : nat.
Variable check : Expr -> M RecursionState unit.

Fixpoint sequenceLoop (l : list Expr) : M RecursionState unit :=
  match l with
  | [] => ret tt
  | element :: l' =>
      let* _ := check element in
      let* stop :=
        liftRes (alwaysConsumesOnSuccess ast cfuel (NExpr element)) in
      if (stop : bool) then ret tt else sequenceLoop l'
  end.
End SequenceLoop.

(** The error of [reportInfiniteRecursion] for a rule that refers to itself
    at the reference [ref], reached from the rule directly. *)
Definition leftRecursionProblem (r : Rule) (ref : NodeInfo) : Problem :=
  mkProblem SevError
    ("Possible infinite loop when parsing (left recursion: "
     ++ String.concat " -> " [rule_name r; rule_name r] ++ ")")
    (Some (nameLocation r))
    (Some (backtraceNotes [(ref, rule_name r)])).

(** [start = start "a"] *)
Definition leftRecursiveGrammar : Grammar :=
  mkGrammar (mkInfo 0 (span 0 17)) None None
    [mkRule (mkInfo 1 (span 0 17)) "start" (span 0 5)
       (Sequence (mkInfo 2 (span 8 17))
          [RuleRef (mkInfo 3 (span 8 13)) "start";
           Literal (mkInfo 4 (span 14 17)) "a" false])].

(** The step of [reportInfiniteRecursion] does not throw from a state whose
    session has its stage set, and leaves the stage as it is. *)
Definition neverThrows {A : Type} (c : M RecursionState A) : Prop :=
  forall st,
    stageSet (stage (rec_session st)) <> None ->
    (forall exn, fst (c st) <> Throw exn)
    /\ stage (rec_session (snd (c st))) = stage (rec_session st).

(** ** Notions for the session *)

(** A call of the session by the driver or by a pass. *)
Inductive SessionCall :=
| CallStage (st : Stage)
| CallError (msg : string) (loc : option LocationRange)
    (notes : option (list DiagnosticNote))
| CallWarning (msg : string) (loc : option LocationRange)
    (notes : option (list DiagnosticNote))
| CallInfo (msg : string) (loc : option LocationRange)
    (notes : option (list DiagnosticNote)).

Definition runCall (c : SessionCall) : M Session unit :=
  match c with
  | CallStage st => setStage st
  | CallError msg loc notes => Session_error msg loc notes
  | CallWarning msg loc notes => Session_warning msg loc notes
  | CallInfo msg loc notes => Session_info msg loc notes
  end.

(** The problem that the call records, if it records one. *)
Definition callProblem (c : SessionCall) : option Problem :=
  match c with
  | CallStage _ => None
  | CallError msg loc notes => Some (mkProblem SevError msg loc notes)
  | CallWarning msg loc notes => Some (mkProblem SevWarning msg loc notes)
  | CallInfo msg loc notes => Some (mkProblem SevInfo msg loc notes)
  end.

(** The stage names of the calls are not empty. *)
Definition stagesNamed (calls : list SessionCall) : Prop :=
  Forall (fun c => match c with
                   | CallStage st => st <> EmptyString
                   | _ => True
                   end) calls.

(** The error count, the retained exception and the list of problems of the
    session fit together, and the stage is set. *)
Definition sessionCoherent (s : Session) : Prop :=
  (exists st, stageSet (stage s) = Some st)
  /\ errors s = length (List.filter isErrorProblem (problems s))
  /\ match List.filter isErrorProblem (problems s) with
     | [] => firstError s = None
     | p :: _ =>
         exists st,
           st <> EmptyString /\ firstError s = Some (retained (Some st) p)
     end.

(** ** Notions for the driver *)

(** The computation never lowers the measure [mu] of the state, however it
    ends. *)
Definition nondecreasing {S A : Type} (mu : S -> nat) (c : M S A) : Prop :=
  forall s, (mu s <= mu (snd (c s)))%nat.

(** The two computations do the same whenever the first ends normally. *)
Definition sameWhenOk {S A : Type} (c c' : M S A) : Prop :=
  forall s a s', c s = (Ok a, s') -> c' s = (Ok a, s').

(** The outcome is a value, not an exception nor an overflow. *)
Definition endsNormally {A S : Type} (out : Res A * S) : Prop :=
  exists a, fst out = Ok a.

(** [A = "x"] twice. *)
Definition duplicateRuleGrammar : Grammar :=
  mkGrammar (mkInfo 0 (span 0 15)) None None
    [mkRule (mkInfo 1 (span 0 7)) "A" (span 0 1)
       (Literal (mkInfo 2 (span 4 7)) "x" false);
     mkRule (mkInfo 3 (span 8 15)) "A" (span 8 9)
       (Literal (mkInfo 4 (span 12 15)) "y" false)].

(** ** Notions for [removeProxyRules] *)

(** The session [s] after the problems [ps], none of them an error, were
    reported to it, in this order, while its stage was [st]. *)
Definition withProblems (st : Stage) (ps : list Problem) (s : Session)
  : Session :=
  {| problems := problems s ++ ps;
     stage := stage s;
     firstError := firstError s;
     errors := errors s;
     notified := notified s ++ map (pair st) ps |}.

(** The computation returns on every session whose stage is set, and what it
    does to the session is to report informational problems. *)
Definition informs {A : Type} (c : M Session A) : Prop :=
  forall s st,
    stageSet (stage s) = Some st ->
    exists a ps,
      c s = (Ok a, withProblems st ps s)
      /\ Forall (fun p => severity p = SevInfo) ps.

(** The code ends normally on every session whose stage is set, leaves the
    tree [a], and what it does to the session is to report informational
    problems. *)
Definition notes {A : Type} (v : InPlace A) (a : A) : Prop :=
  forall s st,
    stageSet (stage s) = Some st ->
    exists ps,
      v s = ((a, Ok tt), withProblems st ps s)
      /\ Forall (fun p => severity p = SevInfo) ps.

(** ** Notions for the constant pools of the generator *)

(** The four pools of [st'] are those of [st] with entries added at the
    end. *)
Definition poolsExtend (st st' : GenState) : Prop :=
  literals st `prefix_of` literals st'
  /\ classes st `prefix_of` classes st'
  /\ expectations st `prefix_of` expectations st'
  /\ functions st `prefix_of` functions st'.

(** The size of the pool that the operand of the instruction indexes, for
    the instructions that have such an operand. *)
Definition poolSize (st : GenState) (opcode : Z) : option nat :=
  if bool_decide (opcode ∈ [op.MATCH_STRING; op.MATCH_STRING_IC;
                             op.ACCEPT_STRING])
  then Some (length (literals st))
  else if bool_decide (opcode = op.MATCH_CHAR_CLASS)
  then Some (length (classes st))
  else if bool_decide (opcode = op.FAIL)
  then Some (length (expectations st))
  else None.

Definition operandsIndexed (st : GenState) (opcode : Z) (args : list Cell)
  : Prop :=
  match poolSize st opcode with
  | Some n => exists i : nat, args = [Num (Z.of_nat i)] /\ (i < n)%nat
  | None => True
  end.

(** Every operand of the code that names a constant names an entry of the
    pools of [st], and every [CALL] passes as many arguments as the function
    it names has parameters. *)
Inductive Indexed (st : GenState) : Bytecode -> Prop :=
| ix_nil : Indexed st []
| ix_plain opcode args rest :
    plainArity opcode = Some (length args) ->
    operandsIndexed st opcode args ->
    Indexed st rest ->
    Indexed st (Num opcode :: args ++ rest)
| ix_rule r rest :
    Indexed st rest ->
    Indexed st (Num op.RULE :: Num r :: rest)
| ix_pluck total offsets rest :
    Indexed st rest ->
    Indexed st (Num op.PLUCK :: Num total :: len offsets :: offsets ++ rest)
| ix_call (f : nat) desc delta params rest :
    functions st !! f = Some desc ->
    length (fd_params desc) = length params ->
    Indexed st rest ->
    Indexed st
      (Num op.CALL :: Num (Z.of_nat f) :: Num delta :: len params
       :: params ++ rest)
| ix_cond opcode operands thenCode elseCode rest :
    condArity opcode = Some (length operands) ->
    operandsIndexed st opcode operands ->
    Indexed st thenCode ->
    Indexed st elseCode ->
    Indexed st rest ->
    Indexed st
      (Num opcode :: operands ++ [len thenCode; len elseCode]
       ++ thenCode ++ elseCode ++ rest)
| ix_loop body rest :
    Indexed st body ->
    Indexed st rest ->
    Indexed st (Num op.WHILE_NOT_ERROR :: len body :: body ++ rest).

(** The codes kept for the rules so far are indexed by the pools. *)
Definition bytecodesIndexed (st : GenState) : Prop :=
  forall k code, bytecodes st !! k = Some code -> Indexed st code.

(** What a step of the generator does to the state: it returns, extends the
    pools and leaves the codes of the rules alone. *)
Definition extends {A : Type} (c : M GenState A) (P : A -> GenState -> Prop)
  : Prop :=
  forall st,
    exists a st',
      c st = (Ok a, st') /\ poolsExtend st st'
      /\ bytecodes st' = bytecodes st /\ P a st'.

(** The repetitions of an expression that are not inside another repetition,
    each with its node and its body, in the order of a visit. *)
Fixpoint outerRepetitions (e : Expr) : list (NodeInfo * Expr) :=
  match e with
  | ZeroOrMore i e' | OneOrMore i e' => [(i, e')]
  | Choice _ l | Sequence _ l => flat_map outerRepetitions l
  | Named _ _ e' | Action _ _ _ e' | Labeled _ _ _ _ e' | Text _ e'
  | SimpleAnd _ e' | SimpleNot _ e' | Optional _ e' | Group _ e' =>
      outerRepetitions e'
  | SemanticAnd _ _ _ | SemanticNot _ _ _ | RuleRef _ _ | Literal _ _ _
  | Class _ _ _ _ | Any _ => []
  end.

(** The body of the repetition may succeed without consuming input, by the
    answer of [alwaysConsumesOnSuccess]. *)
Definition mayNotConsume (ast : Grammar) (cfuel : nat)
    (rep : NodeInfo * Expr) : bool :=
  match alwaysConsumesOnSuccess ast cfuel (NExpr (snd rep)) with
  | Ok true => false
  | _ => true
  end.

Definition repetitionProblem (rep : NodeInfo * Expr) : Problem :=
  mkProblem SevError infiniteRepetitionMessage (Some (location (fst rep)))
    None.

(** The rule [start] is a sequence of two repetitions: zero or more of an
    optional literal, then one or more of a zero-or-more of a literal. *)
Definition repetitionGrammar : Grammar :=
  mkGrammar (mkInfo 0 (span 0 22)) None None
    [mkRule (mkInfo 1 (span 0 22)) "start" (span 0 5)
       (Sequence (mkInfo 2 (span 8 22))
          [ZeroOrMore (mkInfo 3 (span 8 15))
             (Group (mkInfo 4 (span 8 14))
                (Optional (mkInfo 5 (span 9 13))
                   (Literal (mkInfo 6 (span 9 12)) "a" false)));
           OneOrMore (mkInfo 7 (span 16 22))
             (Group (mkInfo 8 (span 16 21))
                (ZeroOrMore (mkInfo 9 (span 17 21))
                   (Literal (mkInfo 10 (span 17 20)) "b" false)))])].

(** ** Notions for the totality of the generator *)

(** The picks of the expression sit where [generate] has a [pluck] list for
    them, and every choice has an alternative.  [inSequence] tells whether
    the expression is itself generated in a context with a [pluck] list, as
    the elements of a sequence and the body of a rule are. *)
Fixpoint plucksPlaced (inSequence : bool) (e : Expr) : bool :=
  match e with
  | Named _ _ e' => plucksPlaced inSequence e'
  | Choice _ l =>
      negb (Nat.eqb (length l) 0) && forallb (plucksPlaced false) l
  | Sequence _ l => forallb (plucksPlaced true) l
  | Labeled _ pick _ _ e' => implb pick inSequence && plucksPlaced false e'
  | Action _ _ _ e' | Text _ e' | SimpleAnd _ e' | SimpleNot _ e'
  | Optional _ e' | ZeroOrMore _ e' | OneOrMore _ e' | Group _ e' =>
      plucksPlaced false e'
  | SemanticAnd _ _ _ | SemanticNot _ _ _ | RuleRef _ _ | Literal _ _ _
  | Class _ _ _ _ | Any _ => true
  end.

(** The call of the visitor returns, with a [pluck] list if it was given
    one. *)
Definition generates (gen : Context -> M GenState Generated) (inSequence : bool)
  : Prop :=
  forall ctx st,
    (inSequence = true -> pluck ctx <> None) ->
    exists out st',
      gen ctx st = (Ok out, st')
      /\ (pluck ctx <> None -> out_pluck out <> None).


(** No pool holds a constant twice. *)
Definition poolsNoDup (st : GenState) : Prop :=
  NoDup (literals st) /\ NoDup (classes st) /\ NoDup (expectations st)
  /\ NoDup (functions st).

(** The step of the generator keeps the pools without repetition. *)
Definition keepsNoDup {A : Type} (c : M GenState A) : Prop :=
  forall st a st', c st = (Ok a, st') -> poolsNoDup st -> poolsNoDup st'.

(* ====================================================================== *)
(** * Properties *)
(* ====================================================================== *)

(** ** The session *)

Lemma newSession_consistent : sessionConsistent newSession.
Proof. unfold sessionConsistent. simpl. tauto. Qed.

Lemma Session_error_consistent msg loc notes s :
  sessionConsistent (snd (Session_error msg loc notes s)).
Proof.
  unfold Session_error, sessionConsistent.
  destruct (stageSet (stage (countError msg loc notes s))); simpl;
    destruct (firstError s); split; intro H; discriminate H.
Qed.

Lemma Session_warning_state msg loc notes s :
  let s' := snd (Session_warning msg loc notes s) in
  problems s' = problems s ++ [mkProblem SevWarning msg loc notes]
  /\ errors s' = errors s /\ firstError s' = firstError s
  /\ stage s' = stage s.
Proof.
  unfold Session_warning. simpl.
  destruct (stageSet (stage s)); simpl; auto.
Qed.

Lemma Session_info_state msg loc notes s :
  let s' := snd (Session_info msg loc notes s) in
  problems s' = problems s ++ [mkProblem SevInfo msg loc notes]
  /\ errors s' = errors s /\ firstError s' = firstError s
  /\ stage s' = stage s.
Proof.
  unfold Session_info. simpl.
  destruct (stageSet (stage s)); simpl; auto.
Qed.

Lemma Session_warning_ok msg loc notes s st :
  stageSet (stage s) = Some st ->
  fst (Session_warning msg loc notes s) = Ok tt.
Proof. unfold Session_warning. simpl. intros ->. reflexivity. Qed.

Lemma Session_info_ok msg loc notes s st :
  stageSet (stage s) = Some st ->
  fst (Session_info msg loc notes s) = Ok tt.
Proof. unfold Session_info. simpl. intros ->. reflexivity. Qed.

(** C7, as the claim states it, fails: on a session whose stage has not been
    set, [Session.error] throws before it records the problem, so the list of
    problems stays as it was while the count has gone up. *)
Lemma Session_error_without_stage_not_recorded :
  fst (Session_error "boom" None None newSession) = Throw (JsError "Impossible")
  /\ problems (snd (Session_error "boom" None None newSession))
     <> problems newSession ++ [mkProblem SevError "boom" None None]
  /\ errors (snd (Session_error "boom" None None newSession)) = 1%nat.
Proof. repeat split. discriminate. Qed.

(** C7 (amended): on a session whose stage is set, [Session.error] returns
    normally, appends the problem and increments the error count; if no error
    was retained before, it retains an exception that carries the message, the
    session's current stage and, as its problems, a reference to the session's
    own list (so that it reads whatever the session holds later); a retained
    exception is never replaced.  [Session.warning] and [Session.info] append
    their problem and leave the error count and the retained exception alone.
    [checkErrors] throws the retained exception when the count is not zero and
    returns normally when it is zero. *)
Theorem Session_reporting (s : Session) (st : Stage) (msg : string)
    (loc : option LocationRange) (notes : option (list DiagnosticNote)) :
  stageSet (stage s) = Some st ->
  (exists s',
      Session_error msg loc notes s = (Ok tt, s')
      /\ problems s' = problems s ++ [mkProblem SevError msg loc notes]
      /\ errors s' = S (errors s)
      /\ stage s' = stage s
      /\ match firstError s with
         | None =>
             exists e,
               firstError s' = Some e
               /\ ge_message e = msg
               /\ ge_stage e = stage s
               /\ ge_problems e = SessionProblems
               /\ forall later : Session, problemsOf later e = problems later
         | Some e => firstError s' = Some e
         end)
  /\ (exists s',
        Session_warning msg loc notes s = (Ok tt, s')
        /\ problems s' = problems s ++ [mkProblem SevWarning msg loc notes]
        /\ errors s' = errors s /\ firstError s' = firstError s)
  /\ (exists s',
        Session_info msg loc notes s = (Ok tt, s')
        /\ problems s' = problems s ++ [mkProblem SevInfo msg loc notes]
        /\ errors s' = errors s /\ firstError s' = firstError s)
  /\ (errors s <> 0%nat -> checkErrors s = (Throw (thrownFirstError s), s))
  /\ (errors s = 0%nat -> checkErrors s = (Ok tt, s)).
Proof.
  intros Hst. repeat split.
  - unfold Session_error. simpl. rewrite Hst.
    eexists. split; [reflexivity|]. simpl. repeat split.
    destruct (firstError s) as [e|]; [reflexivity|].
    eexists. split; [reflexivity|]. simpl. repeat split.
  - unfold Session_warning. simpl. rewrite Hst.
    eexists. split; [reflexivity|]. simpl. auto.
  - unfold Session_info. simpl. rewrite Hst.
    eexists. split; [reflexivity|]. simpl. auto.
  - intros Hne. unfold checkErrors.
    destruct (errors s); [congruence | reflexivity].
  - intros Hz. unfold checkErrors. rewrite Hz. reflexivity.
Qed.

Lemma Session_reporting_witness :
  stageSet (stage (snd (setStage "check" newSession))) = Some "check"
  /\ exists s',
       Session_error "boom" None None (snd (setStage "check" newSession))
       = (Ok tt, s')
       /\ errors s' = 1%nat.
Proof.
  split; [reflexivity|].
  destruct (Session_reporting (snd (setStage "check" newSession)) "check"
              "boom" None None eq_refl)
    as [[s' (He & _ & Hn & _)] _].
  exists s'. split; [exact He | exact Hn].
Defined.

(** ** The driver *)

(** C9: on a grammar without rules and options without [allowedStartRules],
    [compile] throws "Must have at least one start rule"; whatever the stages
    are, none of their passes has run: the state is the initial one, with a
    session nothing was reported to. *)
Theorem compile_without_rules_throws (ast : Ast) (stages : Stages)
    (options : RawOptions) :
  rules (grammar ast) = [] ->
  opt_allowedStartRules options = None ->
  compile ast stages options
  = (Throw (JsError "Must have at least one start rule"),
     mkCompilerState ast newSession).
Proof.
  intros Hrules Hallowed.
  unfold compile, bind, liftRes, parseOptions, firstRuleName.
  rewrite Hallowed, Hrules. reflexivity.
Qed.

Lemma compile_without_rules_throws_witness :
  compile (parsedAst emptyGrammar)
    (defaultStages 10 (fun s => s) silentEmitter) noOptions
  = (Throw (JsError "Must have at least one start rule"),
     mkCompilerState (parsedAst emptyGrammar) newSession).
Proof.
  apply compile_without_rules_throws; reflexivity.
Defined.

(** ** The check stage on an undefined rule *)

(** [reportInfiniteRecursion] does not get past a reference to a rule that is
    not defined: its [rule_ref] handler throws. *)
Lemma infiniteRecursion_check_undefined_throws ast cfuel fuel i name st :
  findRule ast name = None ->
  fst (infiniteRecursion_check ast cfuel fuel (RuleRef i name) st)
  = Throw (JsError ("Could not find rule " ++ name
                    ++ " while looking for infinite recursive parsers")).
Proof.
  intros Hnone. destruct fuel; simpl; unfold bind, pushRef; simpl;
    rewrite Hnone; reflexivity.
Qed.

(** C1 (the code departs from the claim): compiling [start = X] with the
    default stages and options whose three callbacks return does record the
    one error "Rule "X" is not defined" at the location of [X] during the
    stage [check], and tells the [error] callback so, but the check stage does
    not run to its end: the fourth pass, [reportInfiniteRecursion], throws a
    plain error for the missing rule, so [compile] ends with that error and
    not with the retained [GrammarError].  With the default options [{}]
    [compile] does not get as far: the parsed options hold [undefined] under
    the three callback keys, the session is made from them, and the first
    [session.info] of the loop over the stages ends in a [TypeError] before
    any pass has run and any error is counted. *)
Theorem compile_undefined_rule_throws_in_check (fuel : nat)
    (toLowerCase : string -> string) (generateJS : Pass) :
  let r := compile (parsedAst undefinedRuleGrammar)
             (defaultStages fuel toLowerCase generateJS) callbackOptions in
  let d := compile (parsedAst undefinedRuleGrammar)
             (defaultStages fuel toLowerCase generateJS) noOptions in
  (fst r = Throw (JsError
             "Could not find rule X while looking for infinite recursive parsers")
   /\ filter isErrorProblem (problems (cs_session (snd r)))
      = [undefinedRuleProblem]
   /\ filter (fun n => isErrorProblem (snd n)) (notified (cs_session (snd r)))
      = [("check", undefinedRuleProblem)]
   /\ errors (cs_session (snd r)) = 1%nat
   /\ stage (cs_session (snd r)) = Some "check"
   /\ (exists e, firstError (cs_session (snd r)) = Some e
                /\ ge_stage e = Some "check"
                /\ fst r <> Throw (GrammarErr e)))
  /\ (fst d = Throw TypeError
      /\ problems (cs_session (snd d))
         = [mkProblem SevInfo "Process stage check" None None]
      /\ notified (cs_session (snd d)) = []
      /\ errors (cs_session (snd d)) = 0%nat
      /\ firstError (cs_session (snd d)) = None).
Proof.
  destruct fuel; vm_compute; repeat split; try reflexivity;
    eexists; repeat split; discriminate.
Qed.

(** ** The inference pass as a whole *)

(** The pass hands the grammar node to its visitor, whose [grammar] handler is
    [ignoreNode]: no annotation changes. *)
Lemma inferenceMatchResult_no_effect fuel ast m :
  inferenceMatchResult fuel ast m = (Ok tt, m).
Proof. reflexivity. Qed.

(** C8 (the code departs from the claim): after the inference pass on
    [start = "a"], started without annotations, the literal node has no
    [match] value, and neither has the rule; the visitor itself, applied to
    the rule node, would tag both. *)
Theorem inferenceMatchResult_tags_nothing (fuel : nat) :
  let after := snd (inferenceMatchResult fuel literalGrammar noMatches) in
  fst (inferenceMatchResult fuel literalGrammar noMatches) = Ok tt
  /\ nodeMatch after !! 2%nat = None
  /\ ruleMatch after !! 1%nat = None
  /\ forall r, rules literalGrammar = [r] ->
       let visited := snd (inferenceNode literalGrammar fuel (NRule r) noMatches) in
       nodeMatch visited !! 2%nat = Some SOMETIMES
       /\ ruleMatch visited !! 1%nat = Some SOMETIMES.
Proof.
  cbv zeta. split; [reflexivity|]. split; [reflexivity|].
  split; [reflexivity|].
  intros r Hr. injection Hr as <-. destruct fuel; split; reflexivity.
Qed.

(** ** [alwaysConsumesOnSuccess] *)

(** One step of the visitor, whatever the fuel. *)
Lemma consumes_unfold ast fuel e :
  consumes ast fuel e =
  match e with
  | Choice _ alternatives => every (consumes ast fuel) alternatives
  | Sequence _ elements => some (consumes ast fuel) elements
  | SimpleAnd _ _ | SimpleNot _ _ | Optional _ _ | ZeroOrMore _ _
  | SemanticAnd _ _ _ | SemanticNot _ _ _ => Ok false
  | RuleRef _ name =>
      match findRule ast name with
      | Some rule =>
          match fuel with
          | O => OutOfFuel
          | S fuel' => consumes ast fuel' (rule_expression rule)
          end
      | None => Ok false
      end
  | Literal _ value _ => Ok (negb (String.eqb value EmptyString))
  | Class _ _ _ _ | Any _ => Ok true
  | Named _ _ e' | Action _ _ _ e' | Labeled _ _ _ _ e' | Text _ e'
  | OneOrMore _ e' | Group _ e' => consumes ast fuel e'
  end.
Proof. destruct fuel, e; reflexivity. Qed.

Section ShortFacts.
Context {A : Type}.
Variables f g : A -> Res bool.

Lemma every_transfer l b :
  Forall (fun x => forall c, f x = Ok c -> g x = Ok c) l ->
  every f l = Ok b -> every g l = Ok b.
Proof.
  induction 1 as [|x l Hx _ IH]; simpl; [auto|].
  destruct (f x) as [[|]| |] eqn:E; try discriminate;
    rewrite (Hx _ eq_refl); auto.
Qed.

Lemma some_transfer l b :
  Forall (fun x => forall c, f x = Ok c -> g x = Ok c) l ->
  some f l = Ok b -> some g l = Ok b.
Proof.
  induction 1 as [|x l Hx _ IH]; simpl; [auto|].
  destruct (f x) as [[|]| |] eqn:E; try discriminate;
    rewrite (Hx _ eq_refl); auto.
Qed.

(** [every] answers true exactly when every call did. *)
Lemma every_true l :
  every f l = Ok true <-> Forall (fun x => f x = Ok true) l.
Proof.
  induction l as [|x l IH]; simpl.
  - split; auto.
  - destruct (f x) as [[|]| |] eqn:E.
    + rewrite IH. split; [intros H; constructor; auto|].
      intros H. inversion H; auto.
    + split; [discriminate|]. intros H. inversion H; congruence.
    + split; [discriminate|]. intros H. inversion H; congruence.
    + split; [discriminate|]. intros H. inversion H; congruence.
Qed.

(** [every] answers false when some call did, all calls before it having
    answered true. *)
Lemma every_false l :
  every f l = Ok false -> Exists (fun x => f x = Ok false) l.
Proof.
  induction l as [|x l IH]; simpl; [discriminate|].
  destruct (f x) as [[|]| |] eqn:E; try discriminate.
  - intros H. right. auto.
  - intros _. left. exact E.
Qed.

Lemma some_false l :
  some f l = Ok false <-> Forall (fun x => f x = Ok false) l.
Proof.
  induction l as [|x l IH]; simpl.
  - split; auto.
  - destruct (f x) as [[|]| |] eqn:E.
    + split; [discriminate|]. intros H. inversion H; congruence.
    + rewrite IH. split; [intros H; constructor; auto|].
      intros H. inversion H; auto.
    + split; [discriminate|]. intros H. inversion H; congruence.
    + split; [discriminate|]. intros H. inversion H; congruence.
Qed.

Lemma some_true l :
  some f l = Ok true -> Exists (fun x => f x = Ok true) l.
Proof.
  induction l as [|x l IH]; simpl; [discriminate|].
  destruct (f x) as [[|]| |] eqn:E; try discriminate.
  - intros _. left. exact E.
  - intros H. right. auto.
Qed.

(** Both return once every call returns. *)
Lemma every_returns l :
  Forall (fun x => exists c, f x = Ok c) l -> exists b, every f l = Ok b.
Proof.
  induction 1 as [|x l [c Hc] _ [b IH]]; simpl; [eauto|].
  rewrite Hc. destruct c; eauto.
Qed.

Lemma some_returns l :
  Forall (fun x => exists c, f x = Ok c) l -> exists b, some f l = Ok b.
Proof.
  induction 1 as [|x l [c Hc] _ [b IH]]; simpl; [eauto|].
  rewrite Hc. destruct c; eauto.
Qed.
End ShortFacts.

(** More fuel does not change an answer. *)
Lemma consumes_fuel_mono ast n :
  forall e b m, consumes ast n e = Ok b -> n <= m -> consumes ast m e = Ok b.
Proof.
  induction n as [|n IHn]; intros e; induction e using Expr_forall_ind;
    intros b m Hn Hle; rewrite consumes_unfold in Hn |- *; eauto;
    try (eapply every_transfer; [|exact Hn];
         eapply Forall_impl; [|exact H]; simpl; intros; eauto);
    try (eapply some_transfer; [|exact Hn];
         eapply Forall_impl; [|exact H]; simpl; intros; eauto).
  - destruct (findRule ast n); [discriminate|exact Hn].
  - destruct (findRule ast n0); [|exact Hn].
    destruct m as [|m]; [lia|]. apply IHn; [exact Hn|lia].
Qed.

(** The answer does not depend on the fuel that was enough to get it. *)
Lemma consumes_deterministic ast n m e b c :
  consumes ast n e = Ok b -> consumes ast m e = Ok c -> b = c.
Proof.
  intros Hn Hm.
  apply (consumes_fuel_mono _ _ _ _ (Nat.max n m)) in Hn; [|lia].
  apply (consumes_fuel_mono _ _ _ _ (Nat.max n m)) in Hm; [|lia].
  congruence.
Qed.

Lemma consumesOnSuccess_common_fuel ast l :
  Forall (fun a => exists b, consumesOnSuccess ast a b) l ->
  exists N, Forall (fun a => exists b, consumes ast N a = Ok b) l.
Proof.
  induction 1 as [|a l [b [n Hn]] _ [N IH]].
  - exists 0%nat. constructor.
  - exists (Nat.max n N). constructor.
    + exists b. apply (consumes_fuel_mono _ _ _ _ _ Hn). lia.
    + eapply Forall_impl; [|exact IH]. simpl. intros x [c Hc].
      exists c. apply (consumes_fuel_mono _ _ _ _ _ Hc). lia.
Qed.

(** C6: the table of [alwaysConsumesOnSuccess].  A literal answers by whether
    its value is non-empty; a class and [any] answer true; the six kinds
    [simple_and], [simple_not], [optional], [zero_or_more], [semantic_and],
    [semantic_not] answer false; a choice that returns answers true exactly
    when every alternative does, a sequence exactly when some element does,
    and both return once all their children return; a [rule_ref] answers what
    the body of the referenced rule answers, and false when no rule has that
    name; [named], [action], [labeled], [text], [one_or_more] and [group]
    answer what their child answers. *)
Theorem alwaysConsumesOnSuccess_table (ast : Grammar) :
  (forall fuel i v ic,
      alwaysConsumesOnSuccess ast fuel (NExpr (Literal i v ic))
      = Ok (negb (String.eqb v EmptyString)))
  /\ (forall fuel i ps inv ic,
         alwaysConsumesOnSuccess ast fuel (NExpr (Class i ps inv ic)) = Ok true)
  /\ (forall fuel i, alwaysConsumesOnSuccess ast fuel (NExpr (Any i)) = Ok true)
  /\ (forall fuel i e c cl,
         alwaysConsumesOnSuccess ast fuel (NExpr (SimpleAnd i e)) = Ok false
         /\ alwaysConsumesOnSuccess ast fuel (NExpr (SimpleNot i e)) = Ok false
         /\ alwaysConsumesOnSuccess ast fuel (NExpr (Optional i e)) = Ok false
         /\ alwaysConsumesOnSuccess ast fuel (NExpr (ZeroOrMore i e)) = Ok false
         /\ alwaysConsumesOnSuccess ast fuel (NExpr (SemanticAnd i c cl))
            = Ok false
         /\ alwaysConsumesOnSuccess ast fuel (NExpr (SemanticNot i c cl))
            = Ok false)
  /\ (forall i alternatives b,
         consumesOnSuccess ast (Choice i alternatives) b ->
         (b = true <->
          Forall (fun a => consumesOnSuccess ast a true) alternatives))
  /\ (forall i alternatives,
         Forall (fun a => exists b, consumesOnSuccess ast a b) alternatives ->
         exists b, consumesOnSuccess ast (Choice i alternatives) b)
  /\ (forall i elements b,
         consumesOnSuccess ast (Sequence i elements) b ->
         (b = true <->
          Exists (fun a => consumesOnSuccess ast a true) elements))
  /\ (forall i elements,
         Forall (fun a => exists b, consumesOnSuccess ast a b) elements ->
         exists b, consumesOnSuccess ast (Sequence i elements) b)
  /\ (forall i name rule b,
         findRule ast name = Some rule ->
         (consumesOnSuccess ast (RuleRef i name) b <->
          consumesOnSuccess ast (rule_expression rule) b))
  /\ (forall fuel i name,
         findRule ast name = None ->
         alwaysConsumesOnSuccess ast fuel (NExpr (RuleRef i name)) = Ok false)
  /\ (forall fuel i n c cl p lb ll e,
         let child := alwaysConsumesOnSuccess ast fuel (NExpr e) in
         alwaysConsumesOnSuccess ast fuel (NExpr (Named i n e)) = child
         /\ alwaysConsumesOnSuccess ast fuel (NExpr (Action i c cl e)) = child
         /\ alwaysConsumesOnSuccess ast fuel (NExpr (Labeled i p lb ll e))
            = child
         /\ alwaysConsumesOnSuccess ast fuel (NExpr (Text i e)) = child
         /\ alwaysConsumesOnSuccess ast fuel (NExpr (OneOrMore i e)) = child
         /\ alwaysConsumesOnSuccess ast fuel (NExpr (Group i e)) = child).
Proof.
  unfold consumesOnSuccess, alwaysConsumesOnSuccess.
  repeat apply conj.
  - intros. now rewrite consumes_unfold.
  - intros. now rewrite consumes_unfold.
  - intros. now rewrite consumes_unfold.
  - intros. repeat split; now rewrite consumes_unfold.
  - intros i alternatives b [n Hn]. rewrite consumes_unfold in Hn. split.
    + intros ->. apply every_true in Hn.
      eapply Forall_impl; [|exact Hn]. simpl. intros a Ha. now exists n.
    + intros Hall. destruct b; [reflexivity|].
      apply every_false in Hn. apply Exists_exists in Hn as [a [Hin Ha]].
      rewrite Forall_forall in Hall. destruct (Hall a Hin) as [m Hm].
      exact (consumes_deterministic _ _ _ _ _ _ Ha Hm).
  - intros i alternatives Hall.
    apply consumesOnSuccess_common_fuel in Hall as [N HN].
    apply every_returns in HN as [b Hb].
    exists b, N. now rewrite consumes_unfold.
  - intros i elements b [n Hn]. rewrite consumes_unfold in Hn. split.
    + intros ->. apply some_true in Hn.
      eapply Exists_impl; [|exact Hn]. simpl. intros a Ha. now exists n.
    + intros Hex. destruct b; [reflexivity|].
      apply some_false in Hn. apply Exists_exists in Hex as [a [Hin [m Hm]]].
      rewrite Forall_forall in Hn.
      exact (consumes_deterministic _ _ _ _ _ _ (Hn a Hin) Hm).
  - intros i elements Hall.
    apply consumesOnSuccess_common_fuel in Hall as [N HN].
    apply some_returns in HN as [b Hb].
    exists b, N. now rewrite consumes_unfold.
  - intros i name rule b Hfind. split.
    + intros [n Hn]. rewrite consumes_unfold, Hfind in Hn.
      destruct n as [|n]; [discriminate|]. now exists n.
    + intros [n Hn]. exists (S n). now rewrite consumes_unfold, Hfind.
  - intros fuel i name Hfind. now rewrite consumes_unfold, Hfind.
  - intros. cbv zeta. repeat split; now rewrite consumes_unfold.
Qed.

Lemma alwaysConsumesOnSuccess_table_witness :
  consumesOnSuccess optionalThenLiteral
    (RuleRef (mkInfo 9 (span 0 5)) "start") true.
Proof.
  destruct (alwaysConsumesOnSuccess_table optionalThenLiteral)
    as (_ & _ & _ & _ & _ & _ & _ & _ & Href & _).
  apply (Href (mkInfo 9 (span 0 5)) "start"
           (mkRule (mkInfo 1 (span 0 16)) "start" (span 0 5)
              (Sequence (mkInfo 2 (span 8 16))
                 [Optional (mkInfo 3 (span 8 12))
                    (Literal (mkInfo 4 (span 8 11)) "a" false);
                  Literal (mkInfo 5 (span 13 16)) "b" false]))
           true eq_refl).
  exists 0%nat. reflexivity.
Defined.

(** ** Match-result inference *)

Lemma findRule_in ast name rule :
  findRule ast name = Some rule -> In rule (rules ast).
Proof.
  unfold findRule, findRuleAt. generalize 0%nat.
  induction (rules ast) as [|r rs IH]; simpl; intros i H; [discriminate|].
  destruct (String.eqb (rule_name r) name).
  - injection H as <-. now left.
  - right. exact (IH _ H).
Qed.

Lemma findRule_ruleIds ast name rule :
  findRule ast name = Some rule -> node_id (rule_info rule) ∈ ruleIds ast.
Proof.
  intros H. apply findRule_in in H. unfold ruleIds.
  apply elem_of_list_to_set, list_elem_of_In, in_map_iff. eauto.
Qed.

Lemma undefinedRules_dom ast (rm rm' : gmap nat MatchResult) :
  dom rm ⊆ dom rm' -> undefinedRules ast rm' <= undefinedRules ast rm.
Proof.
  intros H. unfold undefinedRules. apply subseteq_size. set_solver.
Qed.

Lemma undefinedRules_mono ast (rm rm' : gmap nat MatchResult) :
  rm ⊆ rm' -> undefinedRules ast rm' <= undefinedRules ast rm.
Proof. intros H. apply undefinedRules_dom, subseteq_dom, H. Qed.

Lemma undefinedRules_insert ast (rm : gmap nat MatchResult) k m :
  k ∈ ruleIds ast -> rm !! k = None ->
  S (undefinedRules ast (<[k := m]> rm)) <= undefinedRules ast rm.
Proof.
  intros Hin Hnone. unfold undefinedRules.
  assert (Hk : k ∈ ruleIds ast ∖ dom rm).
  { apply elem_of_difference. split; [exact Hin|].
    now apply not_elem_of_dom. }
  assert (Heq : ruleIds ast ∖ dom (<[k := m]> rm)
                = (ruleIds ast ∖ dom rm) ∖ {[k]}).
  { rewrite dom_insert_L. set_solver. }
  rewrite Heq, size_difference by set_solver. rewrite size_singleton.
  assert (Hpos : size (ruleIds ast ∖ dom rm) <> 0%nat).
  { apply size_non_empty_iff. set_solver. }
  lia.
Qed.

Lemma refines_refl m : refines m m.
Proof. now right. Qed.

Lemma refines_negate m m' : refines m m' -> refines (negate m) (negate m').
Proof. intros [->| ->]; [now left | now right]. Qed.

(** *** The counters of [inferenceElements] against the table *)

Lemma filter_length_all {A : Type} (p : A -> bool) (l : list A) :
  length (List.filter p l) = length l <-> forallb p l = true.
Proof.
  induction l as [|x l IH]; simpl; [tauto|].
  pose proof (List.filter_length_le p l) as Hle.
  destruct (p x); simpl.
  - rewrite <- IH. lia.
  - split; [lia | discriminate].
Qed.

Lemma filter_length_pos {A : Type} (p : A -> bool) (l : list A) :
  0 < length (List.filter p l) <-> existsb p l = true.
Proof.
  induction l as [|x l IH]; simpl; [split; [lia | discriminate]|].
  destruct (p x); simpl; [split; [auto | lia]|exact IH].
Qed.

Lemma decideElements_choice rs :
  decideElements (length (List.filter isAlways rs))
    (length (List.filter isNever rs)) (length rs) true
  = specChoice rs.
Proof.
  unfold decideElements, specChoice.
  destruct (forallb isAlways rs) eqn:Ea.
  - apply filter_length_all in Ea. rewrite Ea, Nat.eqb_refl. reflexivity.
  - destruct (Nat.eqb_spec (length (List.filter isAlways rs)) (length rs))
      as [Heq|_].
    + apply filter_length_all in Heq. congruence.
    + destruct (forallb isNever rs) eqn:En.
      * apply filter_length_all in En. rewrite En, Nat.eqb_refl. reflexivity.
      * destruct (Nat.eqb_spec (length (List.filter isNever rs)) (length rs))
          as [Heq|_]; [|reflexivity].
        apply filter_length_all in Heq. congruence.
Qed.

Lemma decideElements_sequence rs :
  decideElements (length (List.filter isAlways rs))
    (length (List.filter isNever rs)) (length rs) false
  = specSequence rs.
Proof.
  unfold decideElements, specSequence.
  destruct (forallb isAlways rs) eqn:Ea.
  - apply filter_length_all in Ea. rewrite Ea, Nat.eqb_refl. reflexivity.
  - destruct (Nat.eqb_spec (length (List.filter isAlways rs)) (length rs))
      as [Heq|_].
    + apply filter_length_all in Heq. congruence.
    + destruct (existsb isNever rs) eqn:En.
      * apply filter_length_pos in En.
        destruct (Nat.ltb_spec 0 (length (List.filter isNever rs)));
          [reflexivity | lia].
      * destruct (Nat.ltb_spec 0 (length (List.filter isNever rs)))
          as [Hpos|_]; [|reflexivity].
        apply filter_length_pos in Hpos. congruence.
Qed.

(** *** The table is monotone and reads only the rules it refers to *)

Lemma refines_always m : refines ALWAYS m -> m = ALWAYS.
Proof. intros [H|H]; [discriminate | auto]. Qed.

Lemma refines_never m : refines NEVER m -> m = NEVER.
Proof. intros [H|H]; [discriminate | auto]. Qed.

Lemma forallb_isAlways_refines rs rs' :
  Forall2 refines rs rs' ->
  forallb isAlways rs = true -> forallb isAlways rs' = true.
Proof.
  induction 1 as [|m m' rs rs' Hm _ IH]; simpl; [auto|].
  rewrite !andb_true_iff. unfold isAlways at 1 3.
  rewrite !bool_decide_eq_true. intros [-> Hrs].
  split; [now apply refines_always | auto].
Qed.

Lemma forallb_isNever_refines rs rs' :
  Forall2 refines rs rs' ->
  forallb isNever rs = true -> forallb isNever rs' = true.
Proof.
  induction 1 as [|m m' rs rs' Hm _ IH]; simpl; [auto|].
  rewrite !andb_true_iff. unfold isNever at 1 3.
  rewrite !bool_decide_eq_true. intros [-> Hrs].
  split; [now apply refines_never | auto].
Qed.

Lemma existsb_isNever_refines rs rs' :
  Forall2 refines rs rs' ->
  existsb isNever rs = true -> existsb isNever rs' = true.
Proof.
  induction 1 as [|m m' rs rs' Hm _ IH]; simpl; [auto|].
  rewrite !orb_true_iff. unfold isNever at 1 3.
  rewrite !bool_decide_eq_true. intros [-> | Hrs]; [left | right; auto].
  now apply refines_never.
Qed.

Lemma always_and_never rs :
  forallb isAlways rs = true -> existsb isNever rs = true -> False.
Proof.
  induction rs as [|m rs IH]; simpl; [discriminate|].
  rewrite andb_true_iff, orb_true_iff. unfold isAlways at 1, isNever at 1.
  rewrite !bool_decide_eq_true. intros [-> Hrs] [H|H]; [discriminate | auto].
Qed.

Lemma always_and_all_never rs :
  forallb isAlways rs = true -> forallb isNever rs = true -> rs = [].
Proof.
  destruct rs as [|m rs]; simpl; [auto|].
  rewrite !andb_true_iff. unfold isAlways at 1, isNever at 1.
  rewrite !bool_decide_eq_true. intros [-> _] [H _]. discriminate.
Qed.

Lemma specChoice_refines rs rs' :
  Forall2 refines rs rs' -> refines (specChoice rs) (specChoice rs').
Proof.
  intros H. unfold specChoice.
  destruct (forallb isAlways rs) eqn:Ea.
  - rewrite (forallb_isAlways_refines _ _ H Ea). now right.
  - destruct (forallb isNever rs) eqn:En; [|now left].
    rewrite (forallb_isNever_refines _ _ H En).
    destruct (forallb isAlways rs') eqn:Ea'; [|now right].
    pose proof (always_and_all_never _ Ea'
                  (forallb_isNever_refines _ _ H En)) as ->.
    inversion H; subst. discriminate.
Qed.

Lemma specSequence_refines rs rs' :
  Forall2 refines rs rs' -> refines (specSequence rs) (specSequence rs').
Proof.
  intros H. unfold specSequence.
  destruct (forallb isAlways rs) eqn:Ea.
  - rewrite (forallb_isAlways_refines _ _ H Ea). now right.
  - destruct (existsb isNever rs) eqn:En; [|now left].
    pose proof (existsb_isNever_refines _ _ H En) as En'. rewrite En'.
    destruct (forallb isAlways rs') eqn:Ea'; [|now right].
    destruct (always_and_never _ Ea' En').
Qed.

Lemma specMatch_refines ast (rm rm' : gmap nat MatchResult) e :
  (forall k, refines (ruleTag rm k) (ruleTag rm' k)) ->
  refines (specMatch ast rm e) (specMatch ast rm' e).
Proof.
  intros Hrm. induction e using Expr_forall_ind; simpl;
    auto using refines_refl, refines_negate.
  - apply specChoice_refines. induction H; simpl; constructor; auto.
  - apply specSequence_refines. induction H; simpl; constructor; auto.
  - destruct (findRule ast n); [|apply refines_refl]. apply Hrm.
Qed.

Lemma refsKnown_weaken ast (rm rm' : gmap nat MatchResult) e :
  (forall k, is_Some (rm !! k) -> is_Some (rm' !! k)) ->
  refsKnown ast rm e -> refsKnown ast rm' e.
Proof.
  intros Hdom. induction e using Expr_forall_ind; simpl; auto.
  - induction H; simpl; [auto|]. intros [Hx Hl]. auto.
  - induction H; simpl; [auto|]. intros [Hx Hl]. auto.
  - destruct (findRule ast n); auto.
Qed.

Lemma refsKnown_subseteq ast (rm rm' : gmap nat MatchResult) e :
  rm ⊆ rm' -> refsKnown ast rm e -> refsKnown ast rm' e.
Proof.
  intros Hsub. apply refsKnown_weaken. intros k [m Hm].
  exists m. exact (lookup_weaken _ _ _ _ Hm Hsub).
Qed.

Lemma specMatch_known ast (rm rm' : gmap nat MatchResult) e :
  rm ⊆ rm' -> refsKnown ast rm e ->
  specMatch ast rm' e = specMatch ast rm e.
Proof.
  intros Hsub. induction e using Expr_forall_ind; simpl; intros Hk; auto;
    try (f_equal; auto; fail).
  - f_equal. induction H; simpl in *; [auto|].
    destruct Hk as [Hx Hl]. f_equal; auto.
  - f_equal. induction H; simpl in *; [auto|].
    destruct Hk as [Hx Hl]. f_equal; auto.
  - destruct (findRule ast n); [|auto]. destruct Hk as [m Hm].
    rewrite Hm, (lookup_weaken _ _ _ _ Hm Hsub). reflexivity.
Qed.

(** *** The fixed point of a rule *)

(** One round of the loop of the [rule] handler. *)
Lemma ruleLoop_step body r left count st :
  ruleLoop body r (S left) count st =
  match body st with
  | (Ok m, st1) =>
      let st2 :=
        mkMatches (<[node_id (rule_info r) := m]> (ruleMatch st1))
          (nodeMatch st1) in
      if Nat.ltb 6 (S count) then (Throw (infinityCycle r), st2)
      else if decide (ruleMatch st !! node_id (rule_info r) = Some m)
           then (Ok m, st2)
           else ruleLoop body r left (S count) st2
  | (Throw e, st1) => (Throw e, st1)
  | (OutOfFuel, st1) => (OutOfFuel, st1)
  end.
Proof.
  simpl. unfold bind at 1. unfold getRuleMatch at 1. unfold bind at 1.
  destruct (body st) as [[m| |] st1]; try reflexivity.
  unfold bind, setRuleMatch. simpl.
  destruct (Nat.ltb 6 (S count)); [reflexivity|].
  destruct (decide (ruleMatch st !! node_id (rule_info r) = Some m));
    reflexivity.
Qed.

(** The [rule] handler returns after at most two rounds: the first round from
    SOMETIMES gives the tag [m1]; if [m1] is decided, the second round, which
    reads the same rules with the only change that this rule is now [m1],
    gives [m1] again because the table is monotone. *)
Lemma inferenceRule_inferred ast bound visit rule :
  node_id (rule_info rule) ∈ ruleIds ast ->
  (forall st,
      bodyInferred ast bound (rule_expression rule) st
        (visit (rule_expression rule) st)) ->
  forall st,
    match inferenceRule visit rule st with
    | (Ok m, st') =>
        ruleMatch st ⊆ ruleMatch st'
        /\ ruleMatch st' !! node_id (rule_info rule) = Some m
    | (OutOfFuel, _) => bound <= undefinedRules ast (ruleMatch st)
    | (Throw _, _) => False
    end.
Proof.
  intros Hin Hvisit st.
  set (k := node_id (rule_info rule)) in *.
  unfold inferenceRule, bind, getRuleMatch. fold k.
  destruct (ruleMatch st !! k) as [m|] eqn:Hk.
  - simpl. auto.
  - unfold setRuleMatch at 1. fold k. cbv beta iota.
    set (st0 := mkMatches (<[k := SOMETIMES]> (ruleMatch st)) (nodeMatch st)).
    assert (Hst0 : ruleMatch st ⊆ ruleMatch st0)
      by (apply insert_subseteq; exact Hk).
    assert (Hu0 : S (undefinedRules ast (ruleMatch st0))
                  <= undefinedRules ast (ruleMatch st))
      by (apply undefinedRules_insert; assumption).
    rewrite ruleLoop_step. fold k.
    pose proof (Hvisit st0) as H1.
    destruct (visit (rule_expression rule) st0) as [[m1| |] st1];
      unfold bodyInferred in H1; cbv iota beta; [|contradiction|lia].
    destruct H1 as (Hsub1 & Hknown1 & Hm1).
    cbv zeta. change (Nat.ltb 6 1) with false. cbv iota.
    assert (Hk1 : ruleMatch st1 !! k = Some SOMETIMES).
    { apply (lookup_weaken (ruleMatch st0)); [|exact Hsub1].
      apply lookup_insert_eq. }
    replace (ruleMatch st0 !! k) with (Some SOMETIMES)
      by (symmetry; apply lookup_insert_eq).
    destruct (decide (Some SOMETIMES = Some m1)) as [Heq|Hne].
    + injection Heq as <-. rewrite (insert_id _ _ _ Hk1).
      split; [etransitivity; eassumption|]. auto.
    + set (st1' := mkMatches (<[k := m1]> (ruleMatch st1)) (nodeMatch st1)).
      assert (Hsub1' : ruleMatch st ⊆ ruleMatch st1').
      { simpl. apply insert_subseteq_r; [exact Hk|].
        etransitivity; eassumption. }
      rewrite ruleLoop_step. fold k.
      pose proof (Hvisit st1') as H2.
      destruct (visit (rule_expression rule) st1') as [[m2| |] st2];
        unfold bodyInferred in H2; cbv iota beta; [|contradiction|].
      * destruct H2 as (Hsub2 & Hknown2 & Hm2).
        cbv zeta. change (Nat.ltb 6 2) with false. cbv iota.
        assert (Hknown1' : refsKnown ast (ruleMatch st1')
                             (rule_expression rule)).
        { apply (refsKnown_weaken ast (ruleMatch st1)); [|exact Hknown1].
          intros j Hj. simpl. destruct (decide (k = j)) as [<-|Hkj].
          - rewrite lookup_insert_eq. eauto.
          - now rewrite lookup_insert_ne. }
        assert (Hmono : refines m1 m2).
        { rewrite Hm1, Hm2.
          rewrite (specMatch_known _ _ _ _ Hsub2 Hknown1').
          apply specMatch_refines. intros j. unfold ruleTag. simpl.
          destruct (decide (k = j)) as [<-|Hkj].
          - rewrite Hk1, lookup_insert_eq. now left.
          - rewrite lookup_insert_ne by exact Hkj. apply refines_refl. }
        destruct Hmono as [->|<-]; [congruence|].
        replace (ruleMatch st1' !! k) with (Some m1)
          by (symmetry; apply lookup_insert_eq).
        destruct (decide (Some m1 = Some m1)) as [_|Hc]; [|congruence].
        assert (Hk2 : ruleMatch st2 !! k = Some m1).
        { apply (lookup_weaken (ruleMatch st1')); [|exact Hsub2].
          apply lookup_insert_eq. }
        rewrite (insert_id _ _ _ Hk2).
        split; [etransitivity; eassumption|]. auto.
      * assert (Hle0 : undefinedRules ast (ruleMatch st1')
                       <= undefinedRules ast (ruleMatch st0)).
        { apply undefinedRules_dom. simpl. rewrite dom_insert.
          apply subseteq_dom in Hsub1. set_solver. }
        lia.
Qed.

(** *** The visitor on expressions *)

Lemma inference_unfold ast fuel e :
  inference ast fuel e =
  match e with
  | Named i _ e' | Action i _ _ e' | Labeled i _ _ _ e' | Text i e'
  | SimpleAnd i e' | OneOrMore i e' | Group i e' =>
      let* m := inference ast fuel e' in setNodeMatch i m
  | Choice i alternatives =>
      let* m := inferenceElements (inference ast fuel) alternatives true in
      setNodeMatch i m
  | Sequence i elements =>
      let* m := inferenceElements (inference ast fuel) elements false in
      setNodeMatch i m
  | SimpleNot i e' =>
      let* m := inference ast fuel e' in setNodeMatch i (negate m)
  | Optional i e' | ZeroOrMore i e' =>
      let* _ := inference ast fuel e' in setNodeMatch i ALWAYS
  | SemanticAnd i _ _ | SemanticNot i _ _ | Any i => setNodeMatch i SOMETIMES
  | RuleRef i name =>
      match findRule ast name with
      | Some rule =>
          let* m :=
            inferenceRule
              (match fuel with
               | O => fun _ => outOfFuel
               | S fuel' => inference ast fuel'
               end) rule in
          setNodeMatch i m
      | None => ret SOMETIMES
      end
  | Literal i value _ =>
      setNodeMatch i
        (if Nat.eqb (String.length value) 0 then ALWAYS else SOMETIMES)
  | Class i parts _ _ =>
      setNodeMatch i (if Nat.eqb (length parts) 0 then NEVER else SOMETIMES)
  end.
Proof. destruct fuel, e; reflexivity. Qed.

Lemma countElements_inferred ast fuel visit l :
  Forall (fun x => forall st, inferred ast fuel x st (visit x st)) l ->
  forall always never st,
    match countElements visit l always never st with
    | (Ok counts, st') =>
        ruleMatch st ⊆ ruleMatch st'
        /\ fold_right (fun x acc => refsKnown ast (ruleMatch st') x /\ acc)
             True l
        /\ fst counts
           = (always + length (List.filter isAlways
                                 (map (specMatch ast (ruleMatch st')) l)))%nat
        /\ snd counts
           = (never + length (List.filter isNever
                                (map (specMatch ast (ruleMatch st')) l)))%nat
    | (OutOfFuel, _) => fuel <= undefinedRules ast (ruleMatch st)
    | (Throw _, _) => False
    end.
Proof.
  induction 1 as [|x l Hx _ IH]; intros always never st; simpl.
  - repeat split; auto; simpl; lia.
  - unfold bind. pose proof (Hx st) as H1.
    destruct (visit x st) as [[m| |] st1]; unfold inferred in H1;
      [|contradiction|exact H1].
    destruct H1 as (Hsub1 & Hknown1 & Hm1 & _).
    specialize (IH (if decide (m = ALWAYS) then S always else always)
                  (if decide (m = NEVER) then S never else never) st1).
    destruct (countElements visit l _ _ st1) as [[counts| |] st2];
      [|contradiction|].
    + destruct IH as (Hsub2 & Hknown2 & Ha & Hn).
      rewrite (specMatch_known _ _ _ _ Hsub2 Hknown1), <- Hm1.
      split; [etransitivity; eassumption|].
      split; [split; [eapply refsKnown_subseteq; eassumption | exact Hknown2]|].
      rewrite Ha, Hn. unfold isAlways at 2, isNever at 2.
      split.
      * destruct (decide (m = ALWAYS)) as [->|Hne].
        -- rewrite bool_decide_eq_true_2 by reflexivity. simpl. lia.
        -- rewrite bool_decide_eq_false_2 by exact Hne. reflexivity.
      * destruct (decide (m = NEVER)) as [->|Hne].
        -- rewrite bool_decide_eq_true_2 by reflexivity. simpl. lia.
        -- rewrite bool_decide_eq_false_2 by exact Hne. reflexivity.
    + pose proof (undefinedRules_mono ast _ _ Hsub1). lia.
Qed.

Lemma inferenceElements_inferred ast fuel visit l forChoice st :
  Forall (fun x => forall st, inferred ast fuel x st (visit x st)) l ->
  match inferenceElements visit l forChoice st with
  | (Ok m, st') =>
      ruleMatch st ⊆ ruleMatch st'
      /\ fold_right (fun x acc => refsKnown ast (ruleMatch st') x /\ acc)
           True l
      /\ m = (if forChoice then specChoice else specSequence)
               (map (specMatch ast (ruleMatch st')) l)
  | (OutOfFuel, _) => fuel <= undefinedRules ast (ruleMatch st)
  | (Throw _, _) => False
  end.
Proof.
  intros Hl. unfold inferenceElements, bind.
  pose proof (countElements_inferred ast fuel visit l Hl 0 0 st) as H.
  destruct (countElements visit l 0 0 st) as [[counts| |] st1];
    [|contradiction|exact H].
  destruct H as (Hsub & Hknown & Ha & Hn). simpl in Ha, Hn.
  set (rs := map (specMatch ast (ruleMatch st1)) l) in *.
  assert (Hdecide :
    (if Nat.eqb (fst counts) (length l) then ret ALWAYS
     else if forChoice
          then ret (if Nat.eqb (snd counts) (length l)
                    then NEVER else SOMETIMES)
          else ret (if Nat.ltb 0 (snd counts) then NEVER else SOMETIMES)) st1
    = (Ok (decideElements (fst counts) (snd counts) (length rs) forChoice),
       st1)).
  { unfold decideElements, rs. rewrite length_map.
    destruct (Nat.eqb (fst counts) (length l)); [reflexivity|].
    destruct forChoice; reflexivity. }
  rewrite Hdecide, Ha, Hn.
  repeat split; auto.
  destruct forChoice;
    [apply decideElements_choice | apply decideElements_sequence].
Qed.

Lemma length_zero_eqb value :
  Nat.eqb (String.length value) 0 = String.eqb value EmptyString.
Proof. destruct value; reflexivity. Qed.

Lemma inference_inferred_from_bodies ast fuel :
  (forall rule st,
      bodyInferred ast fuel (rule_expression rule) st
        (bodyVisitor ast fuel (rule_expression rule) st)) ->
  forall e st, inferred ast fuel e st (inference ast fuel e st).
Proof.
  intros Hbody.
  induction e using Expr_forall_ind; intros st; rewrite inference_unfold;
    try (unfold bind; pose proof (IHe st) as H1;
         destruct (inference ast fuel e st) as [[m| |] st1];
         unfold inferred in H1 |- *;
         [|contradiction|exact H1];
         destruct H1 as (Hsub & Hknown & Hm & _); simpl;
         rewrite lookup_insert_eq; subst m; auto; fail);
    try (simpl; rewrite lookup_insert_eq; auto; fail).
  - (* choice *)
    unfold bind.
    pose proof (inferenceElements_inferred ast fuel _ l true st H) as H1.
    destruct (inferenceElements (inference ast fuel) l true st)
      as [[m| |] st1]; [|contradiction|exact H1].
    destruct H1 as (Hsub & Hknown & Hm). simpl.
    rewrite lookup_insert_eq. subst m. auto.
  - (* sequence *)
    unfold bind.
    pose proof (inferenceElements_inferred ast fuel _ l false st H) as H1.
    destruct (inferenceElements (inference ast fuel) l false st)
      as [[m| |] st1]; [|contradiction|exact H1].
    destruct H1 as (Hsub & Hknown & Hm). simpl.
    rewrite lookup_insert_eq. subst m. auto.
  - (* rule_ref *)
    destruct (findRule ast n) as [rule|] eqn:Hfind.
    + unfold bind.
      pose proof (inferenceRule_inferred ast fuel (bodyVisitor ast fuel) rule
                    (findRule_ruleIds _ _ _ Hfind) (Hbody rule) st) as H1.
      change (match fuel with
              | O => fun _ => outOfFuel
              | S fuel' => inference ast fuel'
              end) with (bodyVisitor ast fuel).
      destruct (inferenceRule (bodyVisitor ast fuel) rule st)
        as [[m| |] st1]; [|contradiction|exact H1].
      destruct H1 as (Hsub & Hm). simpl. rewrite Hfind, Hm.
      rewrite lookup_insert_eq. eauto.
    + simpl. rewrite Hfind. auto.
  - (* literal *)
    simpl. rewrite lookup_insert_eq, length_zero_eqb. auto.
  - (* class *)
    simpl. rewrite lookup_insert_eq. destruct ps; auto.
Qed.

Lemma inference_inferred ast fuel e st :
  inferred ast fuel e st (inference ast fuel e st).
Proof.
  revert e st. induction fuel as [|fuel IH];
    apply inference_inferred_from_bodies; intros rule st.
  - simpl. lia.
  - pose proof (IH (rule_expression rule) st) as H. simpl.
    destruct (inference ast fuel (rule_expression rule) st)
      as [[m| |] st1]; simpl in H |- *; [tauto | exact H | lia].
Qed.

Lemma inferenceRule_returns ast fuel rule st :
  In rule (rules ast) ->
  match inferenceRule (inference ast fuel) rule st with
  | (Ok m, st') =>
      ruleMatch st ⊆ ruleMatch st'
      /\ ruleMatch st' !! node_id (rule_info rule) = Some m
  | (OutOfFuel, _) => S fuel <= undefinedRules ast (ruleMatch st)
  | (Throw _, _) => False
  end.
Proof.
  intros Hin. apply inferenceRule_inferred.
  - unfold ruleIds. apply elem_of_list_to_set, list_elem_of_In, in_map_iff.
    eauto.
  - intros st0. pose proof (inference_inferred ast fuel (rule_expression rule)
                              st0) as H.
    destruct (inference ast fuel (rule_expression rule) st0)
      as [[m| |] st1]; simpl in H |- *; [tauto | exact H | lia].
Qed.

(** C2: the loop of the [rule] handler never reaches its internal error.
    Whatever grammar, node, state of the annotations and fuel, the visitor
    does not throw; and it returns: with more fuel than there are rules
    without a tag, a visit of an expression or of a rule of the grammar ends
    with a result, the rule then carrying the value returned. *)
Theorem rule_fixed_point_converges (ast : Grammar) :
  (forall fuel e st exn, fst (inference ast fuel e st) <> Throw exn)
  /\ (forall fuel rule st exn,
         In rule (rules ast) ->
         fst (inferenceNode ast fuel (NRule rule) st) <> Throw exn)
  /\ (forall fuel st exn,
         fst (inferenceNode ast fuel (NGrammar ast) st) <> Throw exn)
  /\ (forall e st,
         exists m st',
           inference ast (S (undefinedRules ast (ruleMatch st))) e st
           = (Ok m, st'))
  /\ (forall rule st,
         In rule (rules ast) ->
         exists m st',
           inferenceNode ast (undefinedRules ast (ruleMatch st)) (NRule rule) st
           = (Ok m, st')
           /\ ruleMatch st' !! node_id (rule_info rule) = Some m).
Proof.
  repeat apply conj.
  - intros fuel e st exn Hthrow.
    pose proof (inference_inferred ast fuel e st) as H.
    destruct (inference ast fuel e st) as [[m| |] st1]; simpl in *;
      [discriminate | exact H | discriminate].
  - intros fuel rule st exn Hin Hthrow. simpl in Hthrow.
    pose proof (inferenceRule_returns ast fuel rule st Hin) as H.
    destruct (inferenceRule (inference ast fuel) rule st) as [[m| |] st1];
      simpl in *; [discriminate | exact H | discriminate].
  - intros fuel st exn. simpl. discriminate.
  - intros e st.
    pose proof (inference_inferred ast
                  (S (undefinedRules ast (ruleMatch st))) e st) as H.
    destruct (inference ast _ e st) as [[m| |] st1]; simpl in H;
      [eauto | contradiction | lia].
  - intros rule st Hin. simpl.
    pose proof (inferenceRule_returns ast
                  (undefinedRules ast (ruleMatch st)) rule st Hin) as H.
    destruct (inferenceRule _ rule st) as [[m| |] st1];
      [|contradiction|lia].
    destruct H as [_ Hm]. eauto.
Qed.

(** C3 (the code departs from the claim): the pass assigns no tag.  The
    table of the claim ([specMatch]: choice, sequence, literal, class,
    optional, zero_or_more, simple_not and the other kinds) is what the
    visitor [inference] of the pass computes and assigns: applied to an
    expression, from any state of the annotations, it returns, what it
    returns is the tag of the table, computed from the tags the rules have
    when the visit ends, and it has assigned that tag to the node (a
    reference to a missing rule is the one node it returns from without an
    assignment).  But the pass applies the visitor to the grammar node only,
    whose handler is [ignoreNode]: on every grammar it returns with the
    annotations as they were.  So after the pass on [start = "a"? "b"],
    started without annotations, the [optional] node, ALWAYS by the table,
    and the sequence, SOMETIMES by the table, have no tag. *)
Theorem inferenceMatchResult_leaves_table_unapplied (ast : Grammar) :
  (forall fuel m, inferenceMatchResult fuel ast m = (Ok tt, m))
  /\ (forall fuel,
         let after :=
           snd (inferenceMatchResult fuel optionalThenLiteral noMatches) in
         specMatch optionalThenLiteral (ruleMatch after)
           (Optional (mkInfo 3 (span 8 12))
              (Literal (mkInfo 4 (span 8 11)) "a" false)) = ALWAYS
         /\ nodeMatch after !! 3%nat = None
         /\ specMatch optionalThenLiteral (ruleMatch after)
              optionalThenLiteral_body = SOMETIMES
         /\ nodeMatch after !! 2%nat = None)
  /\ (forall e st,
         exists m st',
           inference ast (S (undefinedRules ast (ruleMatch st))) e st
           = (Ok m, st')
           /\ m = specMatch ast (ruleMatch st') e
           /\ tagged ast e m st')
  /\ (forall fuel e st m st',
         inference ast fuel e st = (Ok m, st') ->
         m = specMatch ast (ruleMatch st') e /\ tagged ast e m st').
Proof.
  split; [reflexivity|]. split; [intros fuel; repeat split|]. split.
  - intros e st.
    pose proof (inference_inferred ast
                  (S (undefinedRules ast (ruleMatch st))) e st) as H.
    destruct (inference ast _ e st) as [[m| |] st1]; simpl in H;
      [|contradiction|lia].
    destruct H as (_ & _ & Hm & Htag). eauto.
  - intros fuel e st m st' Hrun.
    pose proof (inference_inferred ast fuel e st) as H.
    rewrite Hrun in H. destruct H as (_ & _ & Hm & Htag). auto.
Qed.

(** The example of the source's comment, [start = [] start]: the rule goes
    from SOMETIMES to NEVER in the first round and stays there in the
    second. *)
Example inference_empty_class_then_self :
  let g := mkGrammar (mkInfo 0 (span 0 16)) None None
             [mkRule (mkInfo 1 (span 0 16)) "start" (span 0 5)
                (Sequence (mkInfo 2 (span 8 16))
                   [Class (mkInfo 3 (span 8 10)) [] false false;
                    RuleRef (mkInfo 4 (span 11 16)) "start"])] in
  fst (inference g 1 (RuleRef (mkInfo 9 (span 0 5)) "start") noMatches)
  = Ok NEVER.
Proof. reflexivity. Qed.

(** ** Proxy-rule removal *)





































(** ** Bytecode generator *)

Lemma WellFormed_app n a b :
  WellFormed n a -> WellFormed n b -> WellFormed n (a ++ b).
Proof.
  induction 1 as [|opcode args rest Har Hargs _ IH
                  |r rest Hr _ IH
                  |total offsets rest Hoff _ IH
                  |f delta params rest Hpar _ IH
                  |opcode operands thenCode elseCode rest Har Hops Ht _ He _
                     _ IH
                  |body rest Hbody _ _ IH];
    intros Hb; simpl.
  - exact Hb.
  - rewrite <- app_assoc. apply wf_plain; auto.
  - apply wf_rule; auto.
  - rewrite <- app_assoc. apply wf_pluck; auto.
  - rewrite <- app_assoc. apply wf_call; auto.
  - replace ((operands ++ len thenCode :: len elseCode
                :: thenCode ++ elseCode ++ rest) ++ b)
      with (operands ++ [len thenCode; len elseCode]
              ++ thenCode ++ elseCode ++ rest ++ b)
      by (simpl; rewrite <- !app_assoc; simpl; rewrite <- !app_assoc;
          reflexivity).
    apply wf_cond; auto.
  - rewrite <- app_assoc. apply wf_loop; auto.
Qed.

Lemma wf_ins n opcode :
  plainArity opcode = Some 0%nat -> WellFormed n (ins opcode).
Proof. intros H. apply (wf_plain n opcode [] []); auto using wf_nil. Qed.

Lemma wf_unary n opcode z :
  plainArity opcode = Some 1%nat -> WellFormed n [Num opcode; Num z].
Proof.
  intros H. apply (wf_plain n opcode [Num z] []); auto using wf_nil.
  repeat constructor.
Qed.

(** [buildCondition]: the condition is emitted for SOMETIMES only, the
    then-code unless NEVER, the else-code unless ALWAYS. *)
Lemma buildCondition_wf n m opcode operands thenCode elseCode :
  (m = SOMETIMES ->
   condArity opcode = Some (length operands) /\ Forall isNum operands) ->
  (m <> NEVER -> WellFormed n thenCode) ->
  (m <> ALWAYS -> WellFormed n elseCode) ->
  WellFormed n (buildCondition m (Num opcode :: operands) thenCode elseCode).
Proof.
  intros Hc Ht He. destruct m; simpl.
  - apply Ht. discriminate.
  - destruct (Hc eq_refl) as [Har Hops].
    replace (operands ++ len thenCode :: len elseCode :: thenCode ++ elseCode)
      with (operands ++ [len thenCode; len elseCode]
              ++ thenCode ++ elseCode ++ [])
      by (rewrite app_nil_r; reflexivity).
    apply wf_cond;
      [exact Har | exact Hops | apply Ht; discriminate
      | apply He; discriminate | apply wf_nil].
  - apply He. discriminate.
Qed.

Lemma buildLoop_wf n body :
  WellFormed n body -> WellFormed n (buildLoop (ins op.WHILE_NOT_ERROR) body).
Proof.
  intros H. unfold buildLoop, ins. simpl.
  replace body with (body ++ []) at 2 by apply app_nil_r.
  apply wf_loop; auto using wf_nil.
Qed.

Lemma buildAppendLoop_wf n code :
  WellFormed n code -> WellFormed n (buildAppendLoop code).
Proof.
  intros H. unfold buildAppendLoop. apply buildLoop_wf.
  apply WellFormed_app; [apply wf_ins; reflexivity | exact H].
Qed.

Lemma Forall_isNum_map {A : Type} (f : A -> Z) (l : list A) :
  Forall isNum (map (fun x => Num (f x)) l).
Proof. induction l; simpl; constructor; simpl; auto. Qed.

Lemma buildCall_wf n f delta env sp :
  WellFormed n (buildCall (Some f) delta env sp).
Proof.
  unfold buildCall. simpl.
  replace (map (fun kv => Num (sp - snd kv)) env)
    with (map (fun kv => Num (sp - snd kv)) env ++ []) at 2
    by apply app_nil_r.
  apply wf_call; [apply Forall_isNum_map | apply wf_nil].
Qed.

Lemma wf_pluck_offsets n total spv (pl : list Z) :
  WellFormed n
    ([Num op.PLUCK; Num total; Num (Z.of_nat (length pl))]
     ++ map (fun eSP => Num (spv - eSP)) pl).
Proof.
  set (offsets := map (fun eSP => Num (spv - eSP)) pl).
  replace (length pl) with (length offsets)
    by (unfold offsets; apply length_map).
  replace offsets with (offsets ++ []) at 2 by apply app_nil_r.
  apply (wf_pluck _ _ offsets []); [apply Forall_isNum_map | apply wf_nil].
Qed.

Lemma scanRules_bound rs name :
  forall k i r, scanRules rs name k = Some (i, r) -> k <= i < k + length rs.
Proof.
  induction rs as [|x rs IH]; simpl; intros k i r H; [discriminate|].
  destruct (String.eqb (rule_name x) name).
  - injection H as <- _. lia.
  - apply IH in H. lia.
Qed.

Lemma indexOfRule_valid ast name :
  findRule ast name <> None ->
  (0 <= indexOfRule ast name < Z.of_nat (length (rules ast)))%Z.
Proof.
  unfold findRule, indexOfRule, findRuleAt.
  destruct (scanRules (rules ast) name 0) as [[i r]|] eqn:E; [|congruence].
  intros _. apply scanRules_bound in E. lia.
Qed.

Lemma addLiteralConst_returns v : returns (addLiteralConst v).
Proof.
  intros st. unfold addLiteralConst.
  destruct (addConst v (literals st)). eauto.
Qed.

Lemma addClassConst_returns ps inv ic : returns (addClassConst ps inv ic).
Proof.
  intros st. unfold addClassConst.
  destruct (addConst _ (classes st)). eauto.
Qed.

Lemma addExpectedConst_returns x : returns (addExpectedConst x).
Proof.
  intros st. unfold addExpectedConst.
  destruct (addConst x (expectations st)). eauto.
Qed.

Lemma addFunctionConst_returns p ps node :
  returns (addFunctionConst p ps node).
Proof.
  intros st. unfold addFunctionConst.
  destruct (addConst _ (functions st)). eauto.
Qed.

Lemma whenM_returns {A : Type} (b : bool) (c : M GenState A) st :
  returns c ->
  exists a st',
    whenM b c st = (Ok (if b then Some a else None), st')
    /\ bytecodes st' = bytecodes st.
Proof.
  intros Hc. destruct (Hc st) as (a & st' & E & Hb). unfold whenM.
  destruct b; [|exists a, st; auto].
  exists a, st'. unfold bind. rewrite E. auto.
Qed.

#[local] Arguments buildCondition : simpl never.
#[local] Arguments buildCall : simpl never.
#[local] Arguments buildAppendLoop : simpl never.
#[local] Arguments ins : simpl never.

Lemma ret_inv {S A : Type} (a b : A) (s s' : S) :
  ret a s = (Ok b, s') -> a = b /\ s = s'.
Proof. unfold ret. intros H. injection H as -> ->. auto. Qed.

Ltac wf_leaf :=
  first
    [ assumption
    | apply wf_nil
    | apply wf_ins; reflexivity
    | apply wf_unary; reflexivity
    | apply buildCall_wf
    | apply buildAppendLoop_wf ].

Ltac wf :=
  repeat first
    [ wf_leaf
    | match goal with
      | |- WellFormed _ (_ ++ _) => apply WellFormed_app
      | |- WellFormed ?n (Num ?o :: ?rest) =>
          apply (wf_plain n o [] rest); [reflexivity | constructor | ]
      | |- WellFormed ?n (Num ?o :: Num ?z :: ?rest) =>
          apply (wf_plain n o [Num z] rest);
          [reflexivity | repeat constructor | ]
      end ].

(** A condition without operands. *)
Ltac wf_cond0 :=
  apply buildCondition_wf;
  [ intros _; split; [reflexivity | constructor] | intros ?Hm | intros ?Hm ].

(** Runs the next call in the hypothesis [H], which says that a sequence of
    calls returned. *)
Ltac run_when H :=
  match type of H with
  | context [whenM ?b ?c ?st] =>
      let k := fresh "k" in
      let st1 := fresh "st" in
      let E := fresh "E" in
      destruct (whenM_returns b c st
                  ltac:(first [ apply addLiteralConst_returns
                              | apply addClassConst_returns
                              | apply addExpectedConst_returns
                              | apply addFunctionConst_returns ]))
        as (k & st1 & E & ?Hframe);
      rewrite E in H; clear E
  end.

Ltac run_add H :=
  match type of H with
  | context [addFunctionConst ?p ?ps ?node ?st] =>
      let k := fresh "k" in
      let st1 := fresh "st" in
      let E := fresh "E" in
      destruct (addFunctionConst_returns p ps node st)
        as (k & st1 & E & ?Hframe);
      rewrite E in H; clear E
  end.

Ltac run_gen H :=
  match type of H with
  | context [generate ?lower ?ast ?nm ?e ?ctx ?st] =>
      let o := fresh "o" in
      let st1 := fresh "st" in
      let E := fresh "Egen" in
      destruct (generate lower ast nm e ctx st) as [[o| |] st1] eqn:E;
      try discriminate H
  end.

Ltac finish_gen H :=
  apply ret_inv in H; destruct H as [<- _];
  match goal with
  | |- context [out_code (mkGenerated ?c ?e ?p)] =>
      change (out_code (mkGenerated c e p)) with c
  end.

Lemma buildAlternativesCode_wf lower ast nm context l :
  Forall (fun e =>
            forall ctx st out st',
              generate lower ast nm e ctx st = (Ok out, st') ->
              WellFormed (length (rules ast)) (out_code out)) l ->
  forall st code st',
    buildAlternativesCode nm (generate lower ast nm) context l st
    = (Ok code, st') ->
    WellFormed (length (rules ast)) code.
Proof.
  induction 1 as [|x l Hx _ IH]; intros st code st' Hrun; simpl in Hrun;
    [discriminate|].
  unfold bind in Hrun. run_gen Hrun. apply Hx in Egen.
  destruct (isAlways (matchOf nm x)).
  { apply ret_inv in Hrun as [<- _]. exact Egen. }
  destruct l as [|y l].
  { apply ret_inv in Hrun as [<- _]. exact Egen. }
  destruct (buildAlternativesCode nm (generate lower ast nm) context (y :: l)
              st0) as [[rest| |] st2] eqn:Erest; try discriminate.
  apply IH in Erest. apply ret_inv in Hrun as [<- _].
  wf. wf_cond0; wf.
Qed.

Lemma buildElementsCode_wf lower ast nm total l :
  Forall (fun e =>
            forall ctx st out st',
              generate lower ast nm e ctx st = (Ok out, st') ->
              WellFormed (length (rules ast)) (out_code out)) l ->
  forall context st r st',
    buildElementsCode nm (generate lower ast nm) total l context st
    = (Ok r, st') ->
    WellFormed (length (rules ast)) (fst r).
Proof.
  induction 1 as [|x l Hx _ IH]; intros context st r st' Hrun;
    cbn [buildElementsCode] in Hrun.
  - destruct (pluck context) as [[|p pl]|].
    + destruct (action context) as [a|].
      * unfold bind in Hrun. run_add Hrun.
        apply ret_inv in Hrun as [<- _]. cbn [fst]. wf.
      * apply ret_inv in Hrun as [<- _]. cbn [fst]. wf.
    + apply ret_inv in Hrun as [<- _]. cbn [fst].
      apply (wf_pluck_offsets _ _ _ (p :: pl)).
    + destruct (action context) as [a|].
      * unfold bind in Hrun. run_add Hrun.
        apply ret_inv in Hrun as [<- _]. cbn [fst]. wf.
      * apply ret_inv in Hrun as [<- _]. cbn [fst]. wf.
  - unfold bind in Hrun. run_gen Hrun. apply Hx in Egen.
    destruct (buildElementsCode nm (generate lower ast nm) total l _ st0)
      as [[rest| |] st2] eqn:Erest; try discriminate.
    apply IH in Erest. apply ret_inv in Hrun as [<- _].
    cbn [fst]. wf. wf_cond0; wf.
    all: match goal with
         | |- context [if ?b then _ else _] => destruct b
         end; wf.
Qed.

(** Decides a leaf whose cells depend on the [match] of a node. *)
Ltac wf_by_match :=
  match goal with
  | |- context [matchOf ?nm ?e] =>
      destruct (matchOf nm e); try congruence; simpl; wf
  end.

Lemma generate_wf lower ast nm e :
  refsResolve ast e = true ->
  forall ctx st out st',
    generate lower ast nm e ctx st = (Ok out, st') ->
    WellFormed (length (rules ast)) (out_code out).
Proof.
  induction e using Expr_forall_ind; intros Href ctx st out st' Hgen;
    cbn [generate] in Hgen; simpl in Href; unfold bind in Hgen.
  - (* named *)
    run_when Hgen. run_gen Hgen. finish_gen Hgen.
    apply IHe in Egen; [|exact Href]. wf. wf_cond0; [wf_by_match | wf].
  - (* choice *)
    destruct (buildAlternativesCode nm (generate lower ast nm) ctx l st)
      as [[code| |] st1] eqn:E; try discriminate.
    finish_gen Hgen. eapply buildAlternativesCode_wf; [|exact E].
    rewrite forallb_forall in Href. rewrite Forall_forall in H |- *.
    intros x Hx. apply H; auto.
  - (* action *)
    run_gen Hgen. run_when Hgen. finish_gen Hgen.
    apply IHe in Egen; [|exact Href].
    match goal with
    | |- context [if ?b then _ else out_code _] => destruct b
    end; [|exact Egen].
    wf. wf_cond0; [|wf]. wf. simpl. wf_by_match.
  - (* sequence *)
    destruct (buildElementsCode nm (generate lower ast nm) (length l) l _ st)
      as [[r| |] st1] eqn:E; try discriminate.
    finish_gen Hgen. wf. eapply buildElementsCode_wf; [|exact E].
    rewrite forallb_forall in Href. rewrite Forall_forall in H |- *.
    intros x Hx. apply H; auto.
  - (* labeled *)
    destruct p; [destruct (pluck ctx); [|discriminate]|];
      unfold ret at 1 in Hgen; run_gen Hgen; finish_gen Hgen; eauto.
  - (* text *)
    run_gen Hgen. finish_gen Hgen. apply IHe in Egen; [|exact Href].
    wf. wf_cond0; wf.
  - (* simple_and *)
    run_gen Hgen. finish_gen Hgen. apply IHe in Egen; [|exact Href].
    wf. wf_cond0; wf.
  - (* simple_not *)
    run_gen Hgen. finish_gen Hgen. apply IHe in Egen; [|exact Href].
    wf. wf_cond0; wf.
  - (* optional *)
    run_gen Hgen. finish_gen Hgen. apply IHe in Egen; [|exact Href].
    wf. wf_cond0; wf.
  - (* zero_or_more *)
    run_gen Hgen. finish_gen Hgen. apply IHe in Egen; [|exact Href]. wf.
  - (* one_or_more *)
    run_gen Hgen. finish_gen Hgen. apply IHe in Egen; [|exact Href].
    wf. wf_cond0; wf.
  - (* group *)
    run_gen Hgen. finish_gen Hgen. eauto.
  - (* semantic_and *)
    run_add Hgen. finish_gen Hgen. wf. wf_cond0; wf.
  - (* semantic_not *)
    run_add Hgen. finish_gen Hgen. wf. wf_cond0; wf.
  - (* rule_ref *)
    finish_gen Hgen. apply wf_rule; [|apply wf_nil].
    apply indexOfRule_valid. destruct (findRule ast n); congruence.
  - (* literal *)
    destruct (Nat.ltb 0 (String.length v)); [|finish_gen Hgen; wf].
    run_when Hgen. run_when Hgen. finish_gen Hgen.
    destruct ic; apply buildCondition_wf;
      try (intros ->; split; [reflexivity | simpl; repeat constructor]);
      try (intros ?Hm; first [wf_by_match | wf]).
  - (* class *)
    run_when Hgen. run_when Hgen. finish_gen Hgen.
    apply buildCondition_wf;
      try (intros ->; split; [reflexivity | simpl; repeat constructor]);
      try (intros ?Hm; first [wf_by_match | wf]).
  - (* any *)
    run_when Hgen. finish_gen Hgen.
    wf_cond0; first [wf_by_match | wf].
Qed.

(** *** The visitor leaves the codes of the rules alone *)

Ltac finish_frame H := apply ret_inv in H; destruct H as [_ <-]; congruence.

Lemma buildAlternativesCode_frame lower ast nm context l :
  Forall (fun e =>
            forall ctx st out st',
              generate lower ast nm e ctx st = (Ok out, st') ->
              bytecodes st' = bytecodes st) l ->
  forall st code st',
    buildAlternativesCode nm (generate lower ast nm) context l st
    = (Ok code, st') ->
    bytecodes st' = bytecodes st.
Proof.
  induction 1 as [|x l Hx _ IH]; intros st code st' Hrun;
    cbn [buildAlternativesCode] in Hrun; [discriminate|].
  unfold bind in Hrun. run_gen Hrun. apply Hx in Egen.
  destruct (isAlways (matchOf nm x)); [finish_frame Hrun|].
  destruct l as [|y l]; [finish_frame Hrun|].
  destruct (buildAlternativesCode nm (generate lower ast nm) context (y :: l)
              st0) as [[rest| |] st2] eqn:Erest; try discriminate.
  apply IH in Erest. finish_frame Hrun.
Qed.

Lemma buildElementsCode_frame lower ast nm total l :
  Forall (fun e =>
            forall ctx st out st',
              generate lower ast nm e ctx st = (Ok out, st') ->
              bytecodes st' = bytecodes st) l ->
  forall context st r st',
    buildElementsCode nm (generate lower ast nm) total l context st
    = (Ok r, st') ->
    bytecodes st' = bytecodes st.
Proof.
  induction 1 as [|x l Hx _ IH]; intros context st r st' Hrun;
    cbn [buildElementsCode] in Hrun.
  - destruct (pluck context) as [[|p pl]|];
      try (destruct (action context) as [a|];
           [unfold bind in Hrun; run_add Hrun|]);
      finish_frame Hrun.
  - unfold bind in Hrun. run_gen Hrun. apply Hx in Egen.
    destruct (buildElementsCode nm (generate lower ast nm) total l _ st0)
      as [[rest| |] st2] eqn:Erest; try discriminate.
    apply IH in Erest. finish_frame Hrun.
Qed.

Lemma generate_frame lower ast nm e :
  forall ctx st out st',
    generate lower ast nm e ctx st = (Ok out, st') ->
    bytecodes st' = bytecodes st.
Proof.
  induction e using Expr_forall_ind; intros ctx st out st' Hgen;
    cbn [generate] in Hgen; unfold bind in Hgen;
    try (run_gen Hgen; apply IHe in Egen; finish_frame Hgen);
    try (repeat run_when Hgen; finish_frame Hgen);
    try (run_add Hgen; finish_frame Hgen).
  - (* named *)
    run_when Hgen. run_gen Hgen. apply IHe in Egen. finish_frame Hgen.
  - (* choice *)
    destruct (buildAlternativesCode nm (generate lower ast nm) ctx l st)
      as [[code| |] st1] eqn:E; try discriminate.
    apply (buildAlternativesCode_frame _ _ _ _ _ H) in E. finish_frame Hgen.
  - (* action *)
    run_gen Hgen. run_when Hgen. apply IHe in Egen. finish_frame Hgen.
  - (* sequence *)
    destruct (buildElementsCode nm (generate lower ast nm) (length l) l _ st)
      as [[r| |] st1] eqn:E; try discriminate.
    apply (buildElementsCode_frame _ _ _ _ _ H) in E. finish_frame Hgen.
  - (* labeled *)
    destruct p; [destruct (pluck ctx); [|discriminate]|];
      unfold ret at 1 in Hgen; run_gen Hgen; apply IHe in Egen;
      finish_frame Hgen.
  - (* literal *)
    destruct (Nat.ltb 0 (String.length v)); [|finish_frame Hgen].
    run_when Hgen. run_when Hgen. finish_frame Hgen.
Qed.

Lemma generateRule_wf lower ast nm r st st' :
  refsResolve ast (rule_expression r) = true ->
  bytecodesWellFormed (length (rules ast)) st ->
  generateRule lower ast nm r st = (Ok tt, st') ->
  bytecodesWellFormed (length (rules ast)) st'
  /\ is_Some (bytecodes st' !! node_id (rule_info r))
  /\ forall k, is_Some (bytecodes st !! k) -> is_Some (bytecodes st' !! k).
Proof.
  intros Href Hst Hrun. unfold generateRule, bind in Hrun.
  destruct (generate lower ast nm (rule_expression r) _ st)
    as [[o| |] st1] eqn:Egen; try discriminate.
  pose proof (generate_wf _ _ _ _ Href _ _ _ _ Egen) as Hwf.
  pose proof (generate_frame _ _ _ _ _ _ _ _ Egen) as Hkeep.
  unfold setBytecode in Hrun. injection Hrun as <-.
  unfold bytecodesWellFormed. cbn [bytecodes]. split; [|split].
  - intros k code. destruct (decide (node_id (rule_info r) = k)) as [<-|Hne].
    + rewrite lookup_insert_eq. intros [= <-]. exact Hwf.
    + rewrite lookup_insert_ne by exact Hne. rewrite Hkeep. apply Hst.
  - rewrite lookup_insert_eq. eauto.
  - intros k Hk. destruct (decide (node_id (rule_info r) = k)) as [<-|Hne].
    + rewrite lookup_insert_eq. eauto.
    + rewrite lookup_insert_ne by exact Hne. rewrite Hkeep. exact Hk.
Qed.

Lemma generateRules_wf lower ast nm rs :
  forall st st',
    forallb (fun r => refsResolve ast (rule_expression r)) rs = true ->
    bytecodesWellFormed (length (rules ast)) st ->
    forEach (generateRule lower ast nm) rs st = (Ok tt, st') ->
    bytecodesWellFormed (length (rules ast)) st'
    /\ (forall r, In r rs -> is_Some (bytecodes st' !! node_id (rule_info r)))
    /\ forall k, is_Some (bytecodes st !! k) -> is_Some (bytecodes st' !! k).
Proof.
  induction rs as [|r rs IH]; intros st st' Href Hst Hrun; simpl in *.
  - injection Hrun as <-. repeat split; [exact Hst | tauto | auto].
  - apply andb_true_iff in Href as [Hr Hrs]. unfold bind in Hrun.
    destruct (generateRule lower ast nm r st) as [[[]| |] st1] eqn:E;
      try discriminate.
    destruct (generateRule_wf _ _ _ _ _ _ Hr Hst E) as (Hst1 & Hr1 & Hk1).
    destruct (IH _ _ Hrs Hst1 Hrun) as (Hst' & Hall & Hk').
    repeat split; auto.
    intros r0 [<-|Hin]; auto.
Qed.

(** C5, as the claim states it, fails: for [start = X] the generator emits
    [RULE -1] as the code of [start], and -1 is not an index into the rules;
    the code is not well formed. *)
Lemma generate_undefined_rule_emits_invalid_index :
  exists st',
    generateGrammar (fun s => s) undefinedRuleGrammar ∅ emptyGenState
    = (Ok tt, st')
    /\ bytecodes st' !! 1%nat = Some [Num op.RULE; Num (-1)]
    /\ ~ (0 <= -1 < Z.of_nat (length (rules undefinedRuleGrammar)))%Z
    /\ ~ WellFormed (length (rules undefinedRuleGrammar))
           [Num op.RULE; Num (-1)].
Proof.
  eexists. split; [reflexivity|]. split; [reflexivity|]. split.
  - simpl. lia.
  - intros H. remember [Num op.RULE; Num (-1)] as code eqn:Hcode.
    remember (length (rules undefinedRuleGrammar)) as n eqn:Hn.
    destruct H as [|opcode args rest Har _ _|r rest Hr _|total offsets rest _ _
                  |f delta params rest _ _
                  |opcode operands thenCode elseCode rest Har _ _ _ _
                  |body rest _ _]; try discriminate Hcode.
    + injection Hcode as -> _. discriminate Har.
    + injection Hcode as -> _. subst n. simpl in Hr. lia.
    + injection Hcode as -> _. discriminate Har.
Qed.

(** C5 (amended): [buildCondition] returns the then-code alone for ALWAYS and
    the else-code alone for NEVER, and for SOMETIMES the condition followed by
    the lengths of the two branches and the branches inline; [buildLoop]
    returns the condition, the length of the body and the body inline; and for
    a grammar in which every [rule_ref] names a rule, whatever the [match]
    annotations, the code the generator returns for an expression, and the
    code it keeps for every rule when the pass returns, is well formed: after
    each condition the two lengths are those of the branches that follow,
    after each loop the length is that of its body, and the operand of each
    [RULE] is an index into the rules. *)
Theorem generated_bytecode_well_formed (toLowerCase : string -> string)
    (ast : Grammar) (nm : gmap nat MatchResult) :
  (forall condCode thenCode elseCode,
      buildCondition ALWAYS condCode thenCode elseCode = thenCode
      /\ buildCondition NEVER condCode thenCode elseCode = elseCode
      /\ buildCondition SOMETIMES condCode thenCode elseCode
         = condCode
           ++ [Num (Z.of_nat (length thenCode));
               Num (Z.of_nat (length elseCode))]
           ++ thenCode ++ elseCode)
  /\ (forall condCode bodyCode,
         buildLoop condCode bodyCode
         = condCode ++ [Num (Z.of_nat (length bodyCode))] ++ bodyCode)
  /\ (forall e ctx st out st',
         refsResolve ast e = true ->
         generate toLowerCase ast nm e ctx st = (Ok out, st') ->
         WellFormed (length (rules ast)) (out_code out))
  /\ (forall st st',
         allRefsResolve ast = true ->
         bytecodesWellFormed (length (rules ast)) st ->
         generateGrammar toLowerCase ast nm st = (Ok tt, st') ->
         bytecodesWellFormed (length (rules ast)) st'
         /\ forall r,
              In r (rules ast) ->
              is_Some (bytecodes st' !! node_id (rule_info r))).
Proof.
  split; [intros; repeat split|]. split; [intros; reflexivity|]. split.
  - intros e ctx st out st' Href Hgen. eapply generate_wf; eassumption.
  - intros st st' Href Hst Hrun.
    destruct (generateRules_wf toLowerCase ast nm (rules ast) st st' Href Hst
                Hrun) as (Hwf & Hall & _).
    auto.
Qed.

Lemma generated_bytecode_well_formed_witness :
  exists st',
    generateGrammar (fun s => s) literalGrammar ∅ emptyGenState = (Ok tt, st')
    /\ bytecodes st' !! 1%nat
       = Some [Num 18; Num 0; Num 2; Num 2; Num 22; Num 0; Num 23; Num 0]
    /\ literals st' = ["a"]
    /\ expectations st' = [ExpectedLiteral "a" false]
    /\ bytecodesWellFormed (length (rules literalGrammar)) st'.
Proof.
  eexists. split; [reflexivity|]. split; [reflexivity|].
  split; [reflexivity|]. split; [reflexivity|].
  destruct (generated_bytecode_well_formed (fun s => s) literalGrammar ∅)
    as (_ & _ & _ & Hpass).
  apply (Hpass emptyGenState); [reflexivity| |reflexivity].
  intros k code Hk. cbn [emptyGenState bytecodes] in Hk.
  rewrite lookup_empty in Hk. discriminate Hk.
Defined.

(** *** Labels *)









(* ====================================================================== *)
(** * Further properties of the code *)
(* ====================================================================== *)

(** ** asts.ts *)

Lemma scanRules_spec rs name :
  forall k,
    match scanRules rs name k with
    | Some (i, r) =>
        (k <= i)%nat /\ rs !! (i - k)%nat = Some r /\ rule_name r = name
        /\ forall j r', (j < i - k)%nat -> rs !! j = Some r' ->
                        rule_name r' <> name
    | None => ~ In name (map rule_name rs)
    end.
Proof.
  induction rs as [|x rs IH]; intros k; simpl; [tauto|].
  destruct (String.eqb_spec (rule_name x) name) as [Heq|Hne].
  - split; [lia|]. rewrite Nat.sub_diag. split; [reflexivity|].
    split; [exact Heq|]. intros j r' Hj. lia.
  - specialize (IH (S k)).
    destruct (scanRules rs name (S k)) as [[i r]|].
    + destruct IH as (Hle & Hlook & Hname & Hfirst).
      split; [lia|]. replace (i - k)%nat with (S (i - S k)) by lia.
      split; [exact Hlook|]. split; [exact Hname|].
      intros [|j] r' Hj Hr'.
      * injection Hr' as <-. exact Hne.
      * apply (Hfirst j r'); [lia|exact Hr'].
    + intros [H|H]; [exact (Hne H)|exact (IH H)].
Qed.

Lemma findRule_name ast name r : findRule ast name = Some r -> rule_name r = name.
Proof.
  unfold findRule, findRuleAt. intros H.
  pose proof (scanRules_spec (rules ast) name 0) as Hs.
  destruct (scanRules (rules ast) name 0) as [[i x]|]; [|discriminate].
  injection H as <-. tauto.
Qed.

(** [findRule] and [indexOfRule] agree.  When [findRule] returns a rule,
    [indexOfRule] returns the index at which that rule sits, the rule has the
    name asked for and no rule before it has; when [findRule] returns
    nothing, [indexOfRule] returns -1 and no rule has the name. *)
Theorem findRule_indexOfRule_agree (ast : Grammar) (name : string) :
  match findRule ast name with
  | Some r =>
      exists i : nat,
        indexOfRule ast name = Z.of_nat i
        /\ rules ast !! i = Some r
        /\ rule_name r = name
        /\ forall (j : nat) r',
             (j < i)%nat -> rules ast !! j = Some r' -> rule_name r' <> name
  | None =>
      indexOfRule ast name = (-1)%Z
      /\ ~ In name (map rule_name (rules ast))
  end.
Proof.
  unfold findRule, indexOfRule, findRuleAt.
  pose proof (scanRules_spec (rules ast) name 0) as Hs.
  destruct (scanRules (rules ast) name 0) as [[i r]|].
  - destruct Hs as (_ & Hlook & Hname & Hfirst).
    rewrite Nat.sub_0_r in Hlook, Hfirst. exists i. auto.
  - auto.
Qed.

Lemma consumes_startsWith ast name r :
  findRule ast name = Some r ->
  startsWith ast name (rule_expression r) ->
  forall fuel e, startsWith ast name e -> consumes ast fuel e = OutOfFuel.
Proof.
  intros Hfind Hbody fuel.
  induction fuel as [|fuel IHfuel]; intros e He;
    induction He as [i|i n r' Hn Hr' _|i n e _ IH|i c cl e _ IH
                    |i p lb ll e _ IH|i e _ IH|i e _ IH|i e _ IH
                    |i e l _ IH|i e l _ IH];
    rewrite consumes_unfold; try exact IH;
    try (cbn [every some]; rewrite IH; reflexivity).
  - now rewrite Hfind.
  - now rewrite Hn.
  - rewrite Hfind. now apply IHfuel.
  - rewrite Hn. now apply IHfuel.
Qed.

(** [alwaysConsumesOnSuccess] does not come back for a left-recursive rule:
    when the body of the rule [name] begins with a reference that leads back
    to [name], the call on any expression that begins with such a reference
    runs out of every supply of fuel. *)
Theorem alwaysConsumesOnSuccess_left_recursion_never_returns (ast : Grammar)
    (name : string) (r : Rule) (e : Expr) (fuel : nat) :
  findRule ast name = Some r ->
  startsWith ast name (rule_expression r) ->
  startsWith ast name e ->
  alwaysConsumesOnSuccess ast fuel (NExpr e) = OutOfFuel.
Proof.
  intros Hfind Hbody He. simpl.
  eapply consumes_startsWith; eassumption.
Qed.

Lemma alwaysConsumesOnSuccess_left_recursion_never_returns_witness :
  alwaysConsumesOnSuccess selfProxyGrammar 1000
    (NExpr (Group (mkInfo 9 (span 0 3)) (RuleRef (mkInfo 10 (span 1 2)) "A")))
  = OutOfFuel.
Proof.
  eapply (alwaysConsumesOnSuccess_left_recursion_never_returns
            selfProxyGrammar "A").
  - reflexivity.
  - apply sw_self.
  - apply sw_group, sw_self.
Defined.

Lemma consumes_returns_ranked (rank : string -> nat) (ast : Grammar) :
  refsRanked rank ast ->
  forall fuel e,
    (forall n, In n (refNames e) -> (rank n < fuel)%nat) ->
    exists b, consumes ast fuel e = Ok b.
Proof.
  intros Hrank fuel.
  induction fuel as [|fuel IHfuel]; intros e;
    induction e using Expr_forall_ind; intros Hrefs;
    rewrite consumes_unfold; simpl in Hrefs; eauto.
  - apply every_returns. rewrite Forall_forall in H |- *.
    intros x Hx. apply (H x Hx). intros n Hn. apply Hrefs.
    apply in_flat_map. eauto.
  - apply some_returns. rewrite Forall_forall in H |- *.
    intros x Hx. apply (H x Hx). intros n Hn. apply Hrefs.
    apply in_flat_map. eauto.
  - destruct (findRule ast n) as [r|] eqn:Hfind; [|eauto].
    specialize (Hrefs n (or_introl eq_refl)). lia.
  - apply every_returns. rewrite Forall_forall in H |- *.
    intros x Hx. apply (H x Hx). intros n Hn. apply Hrefs.
    apply in_flat_map. eauto.
  - apply some_returns. rewrite Forall_forall in H |- *.
    intros x Hx. apply (H x Hx). intros n Hn. apply Hrefs.
    apply in_flat_map. eauto.
  - destruct (findRule ast n) as [r|] eqn:Hfind; [|eauto].
    apply IHfuel. intros m Hm.
    pose proof (Hrank r m (findRule_in _ _ _ Hfind) Hm) as Hlt.
    rewrite (findRule_name _ _ _ Hfind) in Hlt.
    specialize (Hrefs n (or_introl eq_refl)). lia.
Qed.

(** [alwaysConsumesOnSuccess] returns on a grammar without circular
    references: with a rank of the rule names that decreases along the
    references, and as much fuel as the rank of what the expression refers
    to, the call returns a boolean. *)
Theorem alwaysConsumesOnSuccess_returns_without_circles
    (rank : string -> nat) (ast : Grammar) (e : Expr) (fuel : nat) :
  refsRanked rank ast ->
  (forall n, In n (refNames e) -> (rank n < fuel)%nat) ->
  exists b, alwaysConsumesOnSuccess ast fuel (NExpr e) = Ok b.
Proof.
  intros Hrank Hrefs. simpl. now apply (consumes_returns_ranked rank).
Qed.

Lemma alwaysConsumesOnSuccess_returns_without_circles_witness :
  exists b,
    alwaysConsumesOnSuccess proxyGrammar 2
      (NExpr (RuleRef (mkInfo 9 (span 0 1)) "A")) = Ok b.
Proof.
  apply (alwaysConsumesOnSuccess_returns_without_circles
           (fun n => if String.eqb n "A" then 1%nat else 0%nat)).
  - intros r n Hr Hn. simpl in Hr. destruct Hr as [<-|[<-|[]]]; simpl in Hn.
    + destruct Hn as [<-|[]]. simpl. lia.
    + destruct Hn.
  - intros n [<-|[]]. simpl. lia.
Defined.

(** ** Reports of the check passes *)

Lemma withErrors_nil st s : withErrors st [] s = s.
Proof.
  destruct s as [ps stg fe n nt]. unfold withErrors. simpl.
  rewrite !app_nil_r, Nat.add_0_r. now destruct fe.
Qed.

Lemma withErrors_app st ps qs s :
  withErrors st qs (withErrors st ps s) = withErrors st (ps ++ qs) s.
Proof.
  unfold withErrors. simpl.
  rewrite <- !app_assoc, map_app, length_app, Nat.add_assoc.
  f_equal. destruct (firstError s), ps; reflexivity.
Qed.

Lemma withErrors_stage st ps s : stage (withErrors st ps s) = stage s.
Proof. reflexivity. Qed.

Lemma Session_error_reports msg loc notes :
  reports (Session_error msg loc notes) [mkProblem SevError msg loc notes].
Proof.
  intros s st Hst. exists tt. unfold Session_error. simpl. rewrite Hst.
  unfold withErrors, notify, pushProblem, countError, retained,
    newGrammarError. simpl.
  rewrite Nat.add_1_r. now destruct (firstError s).
Qed.

Lemma reports_ret {A : Type} (a : A) : reports (ret a) [].
Proof. intros s st _. exists a. now rewrite withErrors_nil. Qed.

Lemma reports_bind {A B : Type} (c : M Session A) (k : A -> M Session B)
    ps qs :
  reports c ps -> (forall a, reports (k a) qs) -> reports (bind c k) (ps ++ qs).
Proof.
  intros Hc Hk s st Hst. unfold bind.
  destruct (Hc s st Hst) as [a ->].
  destruct (Hk a (withErrors st ps s) st Hst) as [b ->].
  exists b. now rewrite withErrors_app.
Qed.

Lemma reports_forEach {A : Type} (body : A -> M Session unit)
    (f : A -> list Problem) l :
  Forall (fun x => reports (body x) (f x)) l ->
  reports (forEach body l) (flat_map f l).
Proof.
  induction 1 as [|x l Hx _ IH]; simpl; [apply reports_ret|].
  apply reports_bind; [exact Hx|intros _; exact IH].
Qed.

Lemma filter_flat_map {A B : Type} (p : B -> bool) (f : A -> list B) l :
  List.filter p (flat_map f l) = flat_map (fun x => List.filter p (f x)) l.
Proof.
  induction l as [|x l IH]; simpl; [reflexivity|].
  now rewrite List.filter_app, IH.
Qed.

Lemma map_flat_map {A B C : Type} (g : B -> C) (f : A -> list B) l :
  map g (flat_map f l) = flat_map (fun x => map g (f x)) l.
Proof.
  induction l as [|x l IH]; simpl; [reflexivity|].
  now rewrite map_app, IH.
Qed.

Lemma undefinedRules_check_reports ast e :
  reports (undefinedRules_check ast e)
    (map undefinedProblem (List.filter (isMissing ast) (ruleRefs e))).
Proof.
  induction e using Expr_forall_ind; simpl; try assumption;
    try apply reports_ret.
  - rewrite filter_flat_map, map_flat_map. now apply reports_forEach.
  - rewrite filter_flat_map, map_flat_map. now apply reports_forEach.
  - unfold isMissing. simpl. destruct (findRule ast n); simpl.
    + apply reports_ret.
    + apply Session_error_reports.
Qed.

Lemma flat_map_nil_forallb {A B : Type} (f : A -> list B) (g : A -> bool) l :
  Forall (fun x => f x = [] <-> g x = true) l ->
  flat_map f l = [] <-> forallb g l = true.
Proof.
  induction 1 as [|x l Hx _ IH]; simpl; [tauto|].
  rewrite andb_true_iff, <- Hx, <- IH. split.
  - intros H. apply app_eq_nil in H. exact H.
  - intros [-> ->]. reflexivity.
Qed.

Lemma missing_nil_resolve ast e :
  List.filter (isMissing ast) (ruleRefs e) = [] <-> refsResolve ast e = true.
Proof.
  induction e using Expr_forall_ind; simpl; try assumption; try tauto.
  - rewrite filter_flat_map. now apply flat_map_nil_forallb.
  - rewrite filter_flat_map. now apply flat_map_nil_forallb.
  - unfold isMissing. simpl. destruct (findRule ast n); simpl;
      split; congruence.
Qed.

Lemma reportUndefinedRules_reports ast :
  reports (reportUndefinedRules ast) (map undefinedProblem (missingRefs ast)).
Proof.
  unfold reportUndefinedRules, missingRefs.
  rewrite filter_flat_map, map_flat_map.
  apply reports_forEach, Forall_forall. intros r _.
  apply undefinedRules_check_reports.
Qed.

Lemma missingRefs_nil_resolve ast :
  missingRefs ast = [] <-> allRefsResolve ast = true.
Proof.
  unfold missingRefs, allRefsResolve. rewrite filter_flat_map.
  apply flat_map_nil_forallb, Forall_forall. intros r _.
  apply missing_nil_resolve.
Qed.

(** [reportUndefinedRules], on a session whose stage is set, returns and
    reports one error for each reference to a rule that the grammar does not
    have, in the order of the text, at the location of the reference; it
    reports nothing else, and nothing at all exactly when every reference
    finds its rule. *)
Theorem reportUndefinedRules_reports_missing_refs (ast : Grammar)
    (s : Session) (st : Stage) :
  stageSet (stage s) = Some st ->
  reportUndefinedRules ast s
  = (Ok tt, withErrors st (map undefinedProblem (missingRefs ast)) s)
  /\ (missingRefs ast = [] <-> allRefsResolve ast = true).
Proof.
  intros Hst. split; [|apply missingRefs_nil_resolve].
  destruct (reportUndefinedRules_reports ast s st Hst) as [[] ->].
  reflexivity.
Qed.

Lemma reportUndefinedRules_reports_missing_refs_witness :
  reportUndefinedRules undefinedRuleGrammar
    (snd (setStage "check" newSession))
  = (Ok tt,
     withErrors "check" [undefinedRuleProblem]
       (snd (setStage "check" newSession)))
  /\ (missingRefs undefinedRuleGrammar = []
      <-> allRefsResolve undefinedRuleGrammar = true).
Proof.
  exact (reportUndefinedRules_reports_missing_refs undefinedRuleGrammar
           (snd (setStage "check" newSession)) "check" eq_refl).
Defined.

Lemma scanRules_app l1 l2 name :
  forall k,
    scanRules (l1 ++ l2) name k
    = match scanRules l1 name k with
      | Some x => Some x
      | None => scanRules l2 name (k + length l1)
      end.
Proof.
  induction l1 as [|x l1 IH]; intros k; simpl.
  - now rewrite Nat.add_0_r.
  - destruct (String.eqb (rule_name x) name); [reflexivity|].
    rewrite IH. now replace (S k + length l1)%nat with (k + S (length l1))%nat by lia.
Qed.

Lemma objectSet_own {V : Type} key (value : V) obj :
  ownName key = true -> objectSet key value obj = <[key := value]> obj.
Proof.
  unfold ownName, objectSet. now destruct (String.eqb key "__proto__").
Qed.

Lemma objectSet_proto {V : Type} key (value : V) obj :
  ownName key = false -> objectSet key value obj = obj.
Proof.
  unfold ownName, objectSet. now destruct (String.eqb key "__proto__").
Qed.

Lemma duplicateRules_check_reports ast rest :
  forall pre seen,
    rules ast = pre ++ rest ->
    (forall n,
        seen !! n
        = if ownName n
          then match scanRules pre n 0 with
               | Some (_, r0) => Some (nameLocation r0)
               | None => None
               end
          else None) ->
    reports (duplicateRules_check rest seen)
      (map (duplicateRuleProblem ast) (repeatedRules ast (length pre) rest)).
Proof.
  induction rest as [|r rest IH]; intros pre seen Hrules Hseen;
    [apply reports_ret|].
  assert (Hscan : forall n,
             scanRules (rules ast) n 0
             = match scanRules pre n 0 with
               | Some x => Some x
               | None =>
                   if String.eqb (rule_name r) n then Some (length pre, r)
                   else scanRules rest n (S (length pre))
               end).
  { intros n. rewrite Hrules, scanRules_app. reflexivity. }
  assert (Hnext : rules ast = (pre ++ [r]) ++ rest)
    by now rewrite <- app_assoc.
  assert (Hlen : length (pre ++ [r]) = S (length pre))
    by (rewrite length_app; simpl; lia).
  cbn [duplicateRules_check repeatedRules].
  specialize (IH (pre ++ [r])). rewrite Hlen in IH.
  pose proof (Hseen (rule_name r)) as Hr.
  destruct (ownName (rule_name r)) eqn:Hown.
  - rewrite orb_false_r.
    unfold indexOfRule, findRuleAt. rewrite (Hscan (rule_name r)).
    destruct (scanRules pre (rule_name r) 0) as [[i r0]|] eqn:Hpre.
    + rewrite Hr. apply scanRules_bound in Hpre as Hi.
      replace (Z.of_nat i =? Z.of_nat (length pre))%Z with false
        by (symmetry; apply Z.eqb_neq; lia).
      rewrite map_app.
      apply reports_bind.
      * cbn [map]. unfold duplicateRuleProblem, findRule, findRuleAt.
        rewrite (Hscan (rule_name r)), Hpre. apply Session_error_reports.
      * intros _. apply IH; [exact Hnext|].
        intros n. rewrite scanRules_app, Hseen. simpl.
        destruct (ownName n); [|reflexivity].
        destruct (scanRules pre n 0) as [[j x]|] eqn:Hn; [reflexivity|].
        destruct (String.eqb_spec (rule_name r) n) as [<-|_];
          [congruence|reflexivity].
    + rewrite Hr, String.eqb_refl, Z.eqb_refl. simpl.
      rewrite (objectSet_own _ _ _ Hown).
      apply IH; [exact Hnext|].
      intros n. rewrite scanRules_app. simpl.
      destruct (String.eqb_spec (rule_name r) n) as [<-|Hne].
      * rewrite lookup_insert_eq, Hown, Hpre. reflexivity.
      * rewrite lookup_insert_ne by exact Hne. rewrite Hseen.
        destruct (ownName n); [|reflexivity].
        now destruct (scanRules pre n 0) as [[j x]|].
  - rewrite orb_true_r, Hr. simpl.
    rewrite (objectSet_proto _ _ _ Hown).
    apply IH; [exact Hnext|].
    intros n. rewrite scanRules_app, Hseen. simpl.
    destruct (ownName n) eqn:Hn; [|reflexivity].
    destruct (scanRules pre n 0) as [[j x]|]; [reflexivity|].
    destruct (String.eqb_spec (rule_name r) n) as [<-|_];
      [congruence|reflexivity].
Qed.

Lemma repeatedRules_nil ast rs :
  forall k,
    repeatedRules ast k rs = []
    <-> forall (j : nat) r,
          rs !! j = Some r ->
          ownName (rule_name r) = true ->
          indexOfRule ast (rule_name r) = Z.of_nat (k + j).
Proof.
  induction rs as [|x rs IH]; intros k; simpl.
  - split; [intros _ j r H; discriminate H|reflexivity].
  - split.
    + intros H. apply app_eq_nil in H as [Hx Hrs].
      intros [|j] r Hr Hown.
      * injection Hr as <-. rewrite Nat.add_0_r, Hown, orb_false_r in *.
        destruct (Z.eqb_spec (indexOfRule ast (rule_name x)) (Z.of_nat k));
          [assumption|discriminate].
      * replace (k + S j)%nat with (S k + j)%nat by lia.
        now apply (proj1 (IH (S k)) Hrs).
    + intros H.
      replace ((indexOfRule ast (rule_name x) =? Z.of_nat k)%Z
               || negb (ownName (rule_name x))) with true.
      * simpl. apply IH. intros j r Hr.
        replace (S k + j)%nat with (k + S j)%nat by lia. now apply H.
      * symmetry. destruct (ownName (rule_name x)) eqn:Hown;
          [|apply orb_true_r].
        rewrite (H 0%nat x eq_refl Hown), Nat.add_0_r, Z.eqb_refl.
        reflexivity.
Qed.

Lemma reportDuplicateRules_reports ast :
  reports (reportDuplicateRules ast)
    (map (duplicateRuleProblem ast) (repeatedRules ast 0 (rules ast))).
Proof.
  apply (duplicateRules_check_reports ast (rules ast) [] ∅); [reflexivity|].
  intros n. rewrite lookup_empty. now destruct (ownName n).
Qed.

Lemma NoDup_filter_lookup {A : Type} (P : A -> bool) (l : list A) :
  NoDup (List.filter P l)
  <-> forall i j x,
        l !! i = Some x -> l !! j = Some x -> P x = true -> i = j.
Proof.
  induction l as [|a l IH]; simpl.
  - split; [intros _ i j x H; discriminate H|intros _; constructor].
  - destruct (P a) eqn:Pa.
    + rewrite list.NoDup_cons, IH. split.
      * intros [Hnot Hl] [|i] [|j] x Hi Hj Px; simpl in Hi, Hj.
        -- reflexivity.
        -- exfalso. apply Hnot. injection Hi as <-.
           apply list_elem_of_In, filter_In. split; [|exact Pa].
           apply list_elem_of_In. eapply list_elem_of_lookup_2. exact Hj.
        -- exfalso. apply Hnot. injection Hj as <-.
           apply list_elem_of_In, filter_In. split; [|exact Pa].
           apply list_elem_of_In. eapply list_elem_of_lookup_2. exact Hi.
        -- f_equal. eapply Hl; eassumption.
      * intros H. split.
        -- intros Hin. apply list_elem_of_In, filter_In in Hin as [Hin _].
           apply list_elem_of_In, list_elem_of_lookup_1 in Hin as [j Hj].
           discriminate (H 0%nat (S j) a eq_refl Hj Pa).
        -- intros i j x Hi Hj Px.
           assert (S i = S j) by (apply (H (S i) (S j) x); assumption).
           lia.
    + rewrite IH. split.
      * intros Hl [|i] [|j] x Hi Hj Px; simpl in Hi, Hj;
          try (injection Hi as <-; congruence);
          try (injection Hj as <-; congruence).
        f_equal. eapply Hl; eassumption.
      * intros H i j x Hi Hj Px.
        assert (S i = S j) by (apply (H (S i) (S j) x); assumption).
        lia.
Qed.

Lemma repeatedRules_nil_NoDup ast :
  repeatedRules ast 0 (rules ast) = []
  <-> NoDup (List.filter ownName (map rule_name (rules ast))).
Proof.
  rewrite repeatedRules_nil, NoDup_filter_lookup.
  change (map rule_name (rules ast)) with (rule_name <$> rules ast).
  split.
  + intros H i j n Hi Hj Hown. rewrite list_lookup_fmap in Hi, Hj.
    destruct (rules ast !! i) as [ri|] eqn:Ei; [|discriminate].
    destruct (rules ast !! j) as [rj|] eqn:Ej; [|discriminate].
    injection Hi as Hi. injection Hj as Hj.
    pose proof (H i ri Ei) as Hxi. pose proof (H j rj Ej) as Hxj.
    rewrite Hi in Hxi. rewrite Hj in Hxj.
    specialize (Hxi Hown). specialize (Hxj Hown). simpl in Hxi, Hxj. lia.
  + intros Hnd j r Hr Hown. simpl. unfold indexOfRule, findRuleAt.
    pose proof (scanRules_spec (rules ast) (rule_name r) 0) as Hs.
    destruct (scanRules (rules ast) (rule_name r) 0) as [[i r0]|].
    * destruct Hs as (_ & Hlook & Hname & _).
      rewrite Nat.sub_0_r in Hlook. f_equal.
      apply (Hnd i j (rule_name r)); [| |exact Hown];
        rewrite list_lookup_fmap.
      -- now rewrite Hlook, <- Hname.
      -- now rewrite Hr.
    * exfalso. apply Hs. apply in_map. apply list_elem_of_In.
      eapply list_elem_of_lookup_2. exact Hr.
Qed.

(** [reportDuplicateRules], on a session whose stage is set, returns and
    reports one error for each rule that is not the first rule of its name,
    in the order of the rules, unless the name is [__proto__]: the pass keeps
    the names it has seen as the own properties of a plain object, which
    never has that one.  The error points at the name of the rule and its
    note at the name of the first rule of that name, the one [findRule]
    returns.  The pass reports nothing exactly when the names of the rules
    other than [__proto__] are pairwise distinct. *)
Theorem reportDuplicateRules_reports_repeated_rules (ast : Grammar)
    (s : Session) (st : Stage) :
  stageSet (stage s) = Some st ->
  reportDuplicateRules ast s
  = (Ok tt,
     withErrors st
       (map (duplicateRuleProblem ast) (repeatedRules ast 0 (rules ast))) s)
  /\ (repeatedRules ast 0 (rules ast) = []
      <-> NoDup (List.filter ownName (map rule_name (rules ast)))).
Proof.
  intros Hst. split; [|apply repeatedRules_nil_NoDup].
  destruct (reportDuplicateRules_reports ast s st Hst) as [[] ->].
  reflexivity.
Qed.

(** [A = "x"; A = "y"]: one error, at the second [A]. *)
Lemma reportDuplicateRules_reports_repeated_rules_witness :
  reportDuplicateRules duplicateRuleGrammar (snd (setStage "check" newSession))
  = (Ok tt,
     withErrors "check"
       [mkProblem SevError ("Rule " ++ quoted "A" ++ " is already defined")
          (Some (span 8 9))
          (Some [mkNote "Original rule location" (span 0 1)])]
       (snd (setStage "check" newSession)))
  /\ (repeatedRules duplicateRuleGrammar 0 (rules duplicateRuleGrammar) = []
      <-> NoDup (List.filter ownName
                   (map rule_name (rules duplicateRuleGrammar)))).
Proof.
  exact (reportDuplicateRules_reports_repeated_rules duplicateRuleGrammar
           (snd (setStage "check" newSession)) "check" eq_refl).
Defined.

Lemma foldM_app {S A T : Type} (step : A -> T -> M S T) l1 l2 :
  forall t s,
    foldM step (l1 ++ l2) t s = bind (foldM step l1 t) (foldM step l2) s.
Proof.
  induction l1 as [|x l1 IH]; intros t s; simpl; [reflexivity|].
  unfold bind. destruct (step x t s) as [[t'| |] s']; auto.
Qed.

Lemma labelsChecked_scoped step labels :
  labelsChecked step labels ->
  labelsChecked (fun env => let* _ := step env in ret env) labels.
Proof.
  intros H env s st Hst.
  destruct (H env s st Hst) as (env' & ps & Hrun & _ & _ & Hquiet).
  exists env, ps. unfold bind. rewrite Hrun. auto.
Qed.

Lemma labelsChecked_sequence (check : Expr -> gmap string LocationRange ->
                                      M Session (gmap string LocationRange))
    (labels : Expr -> list string) l :
  Forall (fun x => labelsChecked (check x) (labels x)) l ->
  labelsChecked (foldM check l) (flat_map labels l).
Proof.
  induction 1 as [|x l Hx _ IH]; intros env s st Hst; simpl.
  - exists env, []. rewrite withErrors_nil.
    split; [reflexivity|]. split; [auto|]. split; [auto|]. auto.
  - destruct (Hx env s st Hst) as (env1 & ps1 & Hrun1 & Hup1 & Hdown1 & Hq1).
    destruct (IH env1 (withErrors st ps1 s) st Hst)
      as (env2 & ps2 & Hrun2 & Hup2 & Hdown2 & Hq2).
    exists env2, (ps1 ++ ps2). unfold bind. rewrite Hrun1, Hrun2.
    rewrite withErrors_app.
    split; [reflexivity|]. split; [auto|]. split.
    + intros k Hk. rewrite in_app_iff.
      destruct (Hdown2 k Hk) as [H1|H2]; [|auto].
      destruct (Hdown1 k H1); auto.
    + intros Hnd Hfresh. apply list.NoDup_app in Hnd as (Hnd1 & Hdisj & Hnd2).
      rewrite Hq1, Hq2; auto.
      * intros k Hk.
        destruct (env1 !! k) as [v|] eqn:E; [|reflexivity].
        exfalso. destruct (Hdown1 k (mk_is_Some _ _ E)) as [[w Hw]|Hin].
        -- rewrite Hfresh in Hw by (apply in_app_iff; auto). discriminate.
        -- apply (Hdisj k); apply list_elem_of_In; assumption.
      * intros k Hk. apply Hfresh, in_app_iff. auto.
Qed.

Lemma labelsChecked_choice (check : Expr -> gmap string LocationRange ->
                                    M Session (gmap string LocationRange))
    (labels : Expr -> list string) l :
  Forall (fun x => labelsChecked (check x) (labels x)) l ->
  labelsChecked
    (foldM (fun a env0 => let* _ := check a env0 in ret env0) l)
    (flat_map labels l).
Proof.
  induction 1 as [|x l Hx _ IH]; intros env s st Hst; simpl.
  - exists env, []. rewrite withErrors_nil.
    split; [reflexivity|]. split; [auto|]. split; [auto|]. auto.
  - destruct (Hx env s st Hst) as (env1 & ps1 & Hrun1 & _ & _ & Hq1).
    destruct (IH env (withErrors st ps1 s) st Hst)
      as (env2 & ps2 & Hrun2 & Hup2 & Hdown2 & Hq2).
    exists env2, (ps1 ++ ps2). unfold bind at 1 2. rewrite Hrun1.
    cbn [ret]. rewrite Hrun2, withErrors_app.
    split; [reflexivity|]. split; [auto|]. split.
    + intros k Hk. rewrite in_app_iff.
      destruct (Hdown2 k Hk); auto.
    + intros Hnd Hfresh. apply list.NoDup_app in Hnd as (Hnd1 & _ & Hnd2).
      rewrite Hq1, Hq2; auto; intros k Hk; apply Hfresh, in_app_iff; auto.
Qed.

Lemma duplicateLabels_check_checked e :
  labelsChecked (duplicateLabels_check e) (labelsOf e).
Proof.
  induction e using Expr_forall_ind; cbn [duplicateLabels_check labelsOf];
    try assumption;
    try (apply labelsChecked_scoped; assumption);
    try (intros env s st Hst; exists env, []; rewrite withErrors_nil;
         split; [reflexivity|]; split; [auto|]; split; auto).
  - now apply labelsChecked_choice.
  - now apply labelsChecked_sequence.
  - intros env s st Hst. unfold bind at 1.
    destruct (truthy lb) as [l|] eqn:Hl.
    + assert (Herr : exists ps0,
                 (match env !! l with
                  | Some original =>
                      Session_error
                        ("Label " ++ quoted l ++ " is already defined")
                        (Some ll)
                        (Some [mkNote "Original label location" original])
                  | None => ret tt
                  end) s = (Ok tt, withErrors st ps0 s)
                 /\ (env !! l = None -> ps0 = [])).
      { destruct (env !! l) as [original|].
        - destruct (Session_error_reports
                      ("Label " ++ quoted l ++ " is already defined")
                      (Some ll)
                      (Some [mkNote "Original label location" original])
                      s st Hst) as [[] Hrun].
          eexists. split; [exact Hrun|discriminate].
        - exists []. rewrite withErrors_nil. auto. }
      destruct Herr as (ps0 & Hrun0 & Hq0). rewrite Hrun0.
      destruct (IHe env (withErrors st ps0 s) st Hst)
        as (env1 & ps1 & Hrun1 & Hup1 & Hdown1 & Hq1).
      unfold bind. rewrite Hrun1. cbn [ret].
      exists (objectSet l ll env1), (ps0 ++ ps1). rewrite withErrors_app.
      split; [reflexivity|]. split; [|split].
      * intros k Hk. destruct (ownName l) eqn:Hown;
          [rewrite (objectSet_own _ _ _ Hown)
          |rewrite (objectSet_proto _ _ _ Hown); auto].
        destruct (decide (l = k)) as [<-|Hne].
        -- rewrite lookup_insert_eq. eauto.
        -- rewrite lookup_insert_ne by exact Hne. auto.
      * intros k Hk. destruct (ownName l) eqn:Hown;
          [rewrite (objectSet_own _ _ _ Hown) in Hk
          |rewrite (objectSet_proto _ _ _ Hown) in Hk;
           destruct (Hdown1 k Hk); simpl; auto].
        destruct (decide (l = k)) as [<-|Hne]; [simpl; auto|].
        rewrite lookup_insert_ne in Hk by exact Hne.
        destruct (Hdown1 k Hk); simpl; auto.
      * intros Hnd Hfresh. apply list.NoDup_cons in Hnd as [Hnot Hnd].
        rewrite Hq0, Hq1; auto.
        -- intros k Hk. apply Hfresh. now right.
        -- apply Hfresh. now left.
    + cbn [ret].
      destruct (IHe env s st Hst)
        as (env1 & ps1 & Hrun1 & Hup1 & Hdown1 & Hq1).
      unfold bind. rewrite Hrun1. exists env1, ps1. auto.
Qed.

(** [reportDuplicateLabels] reports nothing for rules whose labels are
    pairwise distinct: on a session whose stage is set it returns and leaves
    the session as it was. *)
Theorem reportDuplicateLabels_quiet_on_distinct_labels (ast : Grammar)
    (s : Session) (st : Stage) :
  stageSet (stage s) = Some st ->
  Forall (fun r => NoDup (labelsOf (rule_expression r))) (rules ast) ->
  reportDuplicateLabels ast s = (Ok tt, s).
Proof.
  intros Hst Hall. unfold reportDuplicateLabels.
  induction Hall as [|r rs Hr _ IH]; simpl; [reflexivity|].
  destruct (duplicateLabels_check_checked (rule_expression r) ∅ s st Hst)
    as (env' & ps & Hrun & _ & _ & Hquiet).
  rewrite Hquiet in Hrun; [|exact Hr|intros k _; apply lookup_empty].
  rewrite withErrors_nil in Hrun.
  unfold bind at 1 2. rewrite Hrun. exact IH.
Qed.

(** [start = a:"x" b:(c:"y" "z")]: three labels, all different. *)
Lemma reportDuplicateLabels_quiet_on_distinct_labels_witness :
  labelsOf (rule_expression
              (mkRule (mkInfo 1 (span 0 26)) "start" (span 0 5)
                 distinctLabels_body))
  = ["a"; "b"; "c"]
  /\ reportDuplicateLabels distinctLabelGrammar
       (snd (setStage "check" newSession))
     = (Ok tt, snd (setStage "check" newSession)).
Proof.
  split; [reflexivity|].
  apply (reportDuplicateLabels_quiet_on_distinct_labels distinctLabelGrammar
           (snd (setStage "check" newSession)) "check" eq_refl).
  constructor; [|constructor]. cbn.
  apply (bool_decide_unpack (NoDup ["a"; "b"; "c"])). vm_compute. exact I.
Defined.

Lemma duplicateLabels_check_labeled i p l loc e env s st :
  stageSet (stage s) = Some st ->
  l <> EmptyString ->
  l <> "__proto__" ->
  exists env' ps,
    duplicateLabels_check (Labeled i p (Some l) loc e) env s
    = (Ok env', withErrors st ps s)
    /\ (forall k, is_Some (env !! k) -> is_Some (env' !! k))
    /\ env' !! l = Some loc
    /\ forall original,
         env !! l = Some original ->
         In (duplicateLabelProblem l loc original) ps.
Proof.
  intros Hst Hl Hproto.
  assert (Htruthy : truthy (Some l) = Some l).
  { simpl. destruct (String.eqb_spec l EmptyString); congruence. }
  assert (Hown : ownName l = true).
  { unfold ownName. now destruct (String.eqb_spec l "__proto__"). }
  cbn [duplicateLabels_check]. rewrite Htruthy. unfold bind at 1.
  assert (Herr : exists ps0,
             (match env !! l with
              | Some original =>
                  Session_error
                    ("Label " ++ quoted l ++ " is already defined")
                    (Some loc)
                    (Some [mkNote "Original label location" original])
              | None => ret tt
              end) s = (Ok tt, withErrors st ps0 s)
             /\ forall original,
                  env !! l = Some original ->
                  In (duplicateLabelProblem l loc original) ps0).
  { destruct (env !! l) as [original|].
    - destruct (Session_error_reports
                  ("Label " ++ quoted l ++ " is already defined")
                  (Some loc)
                  (Some [mkNote "Original label location" original])
                  s st Hst) as [[] Hrun].
      eexists. split; [exact Hrun|].
      intros o Ho. injection Ho as <-. now left.
    - exists []. rewrite withErrors_nil. split; [reflexivity|discriminate]. }
  destruct Herr as (ps0 & Hrun0 & Hin0). rewrite Hrun0.
  destruct (duplicateLabels_check_checked e env (withErrors st ps0 s) st Hst)
    as (env1 & ps1 & Hrun1 & Hup1 & _).
  unfold bind. rewrite Hrun1. cbn [ret].
  rewrite (objectSet_own _ _ _ Hown).
  exists (<[l:=loc]> env1), (ps0 ++ ps1). rewrite withErrors_app.
  split; [reflexivity|]. split; [|split].
  - intros k Hk. destruct (decide (l = k)) as [<-|Hne].
    + rewrite lookup_insert_eq. eauto.
    + rewrite lookup_insert_ne by exact Hne. auto.
  - apply lookup_insert_eq.
  - intros original Ho. apply in_app_iff. left. auto.
Qed.

(** [reportDuplicateLabels] reports a label that is used twice among the
    elements of one sequence, unless the label is [__proto__], which the
    plain object of the pass never keeps: for a rule whose body is a sequence
    with two elements labeled [l], [l] another label than that one, the pass,
    on a session whose stage is set, returns with an error at the second
    label, that the label [l] is already defined, whose note points at an
    earlier label [l]; the error count has gone up. *)
Theorem reportDuplicateLabels_reports_repeated_label (ast : Grammar)
    (s : Session) (st : Stage) (r : Rule) (i i1 i2 : NodeInfo)
    (p1 p2 : bool) (l : string) (loc1 loc2 : LocationRange) (e1 e2 : Expr)
    (before between after : list Expr) :
  stageSet (stage s) = Some st ->
  l <> EmptyString ->
  l <> "__proto__" ->
  In r (rules ast) ->
  rule_expression r
  = Sequence i
      (before ++ Labeled i1 p1 (Some l) loc1 e1
              :: between ++ Labeled i2 p2 (Some l) loc2 e2 :: after) ->
  exists s' original,
    reportDuplicateLabels ast s = (Ok tt, s')
    /\ In (duplicateLabelProblem l loc2 original) (problems s')
    /\ (errors s < errors s')%nat.
Proof.
  intros Hst Hl Hproto Hin Hbody.
  assert (Hrule : forall s0,
             stageSet (stage s0) = Some st ->
             exists env' ps original,
               duplicateLabels_check (rule_expression r) ∅ s0
               = (Ok env', withErrors st ps s0)
               /\ In (duplicateLabelProblem l loc2 original) ps).
  { intros s0 Hs0. rewrite Hbody. cbn [duplicateLabels_check].
    rewrite foldM_app. unfold bind at 1.
    destruct (labelsChecked_sequence duplicateLabels_check labelsOf before
                ltac:(apply Forall_forall; intros;
                      apply duplicateLabels_check_checked) ∅ s0 st Hs0)
      as (env1 & ps1 & -> & _).
    cbn [foldM]. unfold bind at 1.
    destruct (duplicateLabels_check_labeled i1 p1 l loc1 e1 env1
                (withErrors st ps1 s0) st Hs0 Hl Hproto)
      as (env2 & ps2 & -> & _ & Hl2 & _).
    rewrite foldM_app. unfold bind at 1.
    destruct (labelsChecked_sequence duplicateLabels_check labelsOf between
                ltac:(apply Forall_forall; intros;
                      apply duplicateLabels_check_checked)
                env2 (withErrors st ps2 (withErrors st ps1 s0)) st Hs0)
      as (env3 & ps3 & -> & Hup3 & _).
    destruct (Hup3 l (mk_is_Some _ _ Hl2)) as [original Hl3].
    cbn [foldM]. unfold bind at 1.
    destruct (duplicateLabels_check_labeled i2 p2 l loc2 e2 env3
                (withErrors st ps3
                   (withErrors st ps2 (withErrors st ps1 s0))) st Hs0 Hl
                Hproto)
      as (env4 & ps4 & -> & _ & _ & Hin4).
    cbv beta iota.
    destruct (labelsChecked_sequence duplicateLabels_check labelsOf after
                ltac:(apply Forall_forall; intros;
                      apply duplicateLabels_check_checked)
                env4
                (withErrors st ps4
                   (withErrors st ps3
                      (withErrors st ps2 (withErrors st ps1 s0)))) st Hs0)
      as (env5 & ps5 & -> & _).
    rewrite !withErrors_app.
    exists env5, (ps1 ++ ps2 ++ ps3 ++ ps4 ++ ps5), original.
    split; [reflexivity|].
    rewrite !in_app_iff. right. right. right. left. now apply Hin4. }
  unfold reportDuplicateLabels.
  assert (Hall : forall rs s0,
             stageSet (stage s0) = Some st ->
             exists ps,
               forEach
                 (fun r0 =>
                    let* _ := duplicateLabels_check (rule_expression r0) ∅ in
                    ret tt) rs s0
               = (Ok tt, withErrors st ps s0)
               /\ (In r rs ->
                   exists original,
                     In (duplicateLabelProblem l loc2 original) ps)).
  { induction rs as [|x rs IH]; intros s0 Hs0; simpl.
    - exists []. rewrite withErrors_nil. split; [reflexivity|tauto].
    - destruct (duplicateLabels_check_checked (rule_expression x) ∅ s0 st Hs0)
        as (envx & psx & Hrunx & _).
      destruct (IH (withErrors st psx s0) Hs0) as (ps & Hrun & Hps).
      unfold bind at 1 2. rewrite Hrunx. cbn [ret]. rewrite Hrun.
      rewrite withErrors_app. exists (psx ++ ps). split; [reflexivity|].
      intros [->|Hr].
      + destruct (Hrule s0 Hs0) as (env' & ps' & original & Hrun' & Hin').
        rewrite Hrunx in Hrun'.
        assert (ps' = psx) as ->.
        { apply (f_equal (fun x => problems (snd x))) in Hrun'.
          simpl in Hrun'. now apply app_inv_head in Hrun'. }
        exists original. apply in_app_iff. now left.
      + destruct (Hps Hr) as [original Ho]. exists original.
        apply in_app_iff. now right. }
  destruct (Hall (rules ast) s Hst) as (ps & Hrun & Hps).
  destruct (Hps Hin) as [original Ho].
  exists (withErrors st ps s), original.
  split; [exact Hrun|]. split.
  - simpl. apply in_app_iff. now right.
  - simpl. destruct ps; [destruct Ho|simpl; lia].
Qed.

Lemma reportDuplicateLabels_reports_repeated_label_witness :
  exists s' original,
    reportDuplicateLabels repeatedLabelGrammar
      (snd (setStage "check" newSession)) = (Ok tt, s')
    /\ In (duplicateLabelProblem "a" (span 14 15) original) (problems s')
    /\ (errors (snd (setStage "check" newSession)) < errors s')%nat.
Proof.
  eapply (reportDuplicateLabels_reports_repeated_label repeatedLabelGrammar
            (snd (setStage "check" newSession)) "check" _ _ _ _ _ _ "a"
            _ _ _ _ [] [] []).
  - reflexivity.
  - discriminate.
  - discriminate.
  - left. reflexivity.
  - reflexivity.
Defined.

Lemma reportsErrors_ret {A : Type} (a : A) : reportsErrors (ret a).
Proof. intros s st _. exists a, []. now rewrite withErrors_nil. Qed.

Lemma reportsErrors_bind {A B : Type} (c : M Session A) (k : A -> M Session B) :
  reportsErrors c -> (forall a, reportsErrors (k a)) -> reportsErrors (bind c k).
Proof.
  intros Hc Hk s st Hst. unfold bind.
  destruct (Hc s st Hst) as (a & ps & ->).
  destruct (Hk a (withErrors st ps s) st Hst) as (b & qs & ->).
  exists b, (ps ++ qs). now rewrite withErrors_app.
Qed.

Lemma reportsErrors_forEach {A : Type} (body : A -> M Session unit) l :
  Forall (fun x => reportsErrors (body x)) l -> reportsErrors (forEach body l).
Proof.
  induction 1 as [|x l Hx _ IH]; simpl; [apply reportsErrors_ret|].
  apply reportsErrors_bind; [exact Hx|intros _; exact IH].
Qed.

Lemma reports_reportsErrors {A : Type} (c : M Session A) ps :
  reports c ps -> reportsErrors c.
Proof. intros H s st Hst. destruct (H s st Hst) as [a Ha]. eauto. Qed.

Lemma incorrectPlucking_check_reportsErrors e :
  forall action, reportsErrors (incorrectPlucking_check e action).
Proof.
  induction e using Expr_forall_ind; intros action;
    cbn [incorrectPlucking_check]; auto; try apply reportsErrors_ret.
  - apply reportsErrors_forEach. eapply Forall_impl; [|exact H]. auto.
  - apply reportsErrors_forEach. eapply Forall_impl; [|exact H]. auto.
  - apply reportsErrors_bind; [|auto].
    destruct p; [|apply reportsErrors_ret].
    destruct action; [|apply reportsErrors_ret].
    eapply reports_reportsErrors, Session_error_reports.
Qed.

Lemma forEach_quiet {A : Type} (body : A -> M Session unit) l s :
  Forall (fun x => forall s0, stage s0 = stage s -> body x s0 = (Ok tt, s0)) l ->
  forEach body l s = (Ok tt, s).
Proof.
  induction 1 as [|x l Hx _ IH]; simpl; [reflexivity|].
  unfold bind. rewrite Hx by reflexivity. exact IH.
Qed.

Lemma incorrectPlucking_check_quiet e :
  forall action s,
    hasPick e = false \/ (action = None /\ hasAction e = false) ->
    incorrectPlucking_check e action s = (Ok tt, s).
Proof.
  induction e using Expr_forall_ind; intros action s Hq;
    cbn [incorrectPlucking_check hasPick hasAction] in *; auto.
  - apply forEach_quiet, Forall_forall. intros x Hx s0 _.
    rewrite Forall_forall in H. apply (H x Hx).
    destruct Hq as [Hq|[Ha Hq]]; [left|right; split; [exact Ha|]].
    + destruct (hasPick x) eqn:E; [|reflexivity].
      rewrite <- Hq. symmetry. apply existsb_exists. eauto.
    + destruct (hasAction x) eqn:E; [|reflexivity].
      rewrite <- Hq. symmetry. apply existsb_exists. eauto.
  - apply IHe. destruct Hq as [Hq|[_ Hq]]; [auto|discriminate].
  - apply forEach_quiet, Forall_forall. intros x Hx s0 _.
    rewrite Forall_forall in H. apply (H x Hx).
    destruct Hq as [Hq|[Ha Hq]]; [left|right; split; [exact Ha|]].
    + destruct (hasPick x) eqn:E; [|reflexivity].
      rewrite <- Hq. symmetry. apply existsb_exists. eauto.
    + destruct (hasAction x) eqn:E; [|reflexivity].
      rewrite <- Hq. symmetry. apply existsb_exists. eauto.
  - unfold bind.
    assert (Hfirst : (if p
                      then match action with
                           | Some a =>
                               Session_error
                                 (dquote ++ "@" ++ dquote
                                  ++ " cannot be used with an action block")
                                 (Some ll)
                                 (Some [mkNote "Action block location"
                                          (cn_codeLocation a)])
                           | None => ret tt
                           end
                      else ret tt) s = (Ok tt, s)).
    { destruct Hq as [Hq|[-> Hq]].
      - apply orb_false_iff in Hq as [-> _]. reflexivity.
      - now destruct p. }
    rewrite Hfirst. apply IHe.
    destruct Hq as [Hq|[_ Hq]]; [|auto].
    apply orb_false_iff in Hq as [_ Hq]. auto.
Qed.

(** [reportIncorrectPlucking] reports nothing for a rule without a pick, and
    nothing for a rule without an action: on a grammar in which every rule is
    of one of the two kinds it returns and leaves the session as it was. *)
Theorem reportIncorrectPlucking_quiet_without_pick_or_action (ast : Grammar)
    (s : Session) :
  Forall (fun r => hasPick (rule_expression r) = false
                   \/ hasAction (rule_expression r) = false) (rules ast) ->
  reportIncorrectPlucking ast s = (Ok tt, s).
Proof.
  intros Hall. unfold reportIncorrectPlucking.
  apply forEach_quiet. eapply Forall_impl; [|exact Hall].
  intros r Hr s0 _. apply incorrectPlucking_check_quiet.
  destruct Hr; [left|right]; auto.
Qed.

Lemma reportIncorrectPlucking_quiet_without_pick_or_action_witness :
  reportIncorrectPlucking repeatedLabelGrammar newSession = (Ok tt, newSession).
Proof.
  apply (reportIncorrectPlucking_quiet_without_pick_or_action
           repeatedLabelGrammar newSession).
  repeat constructor.
Defined.

(** [reportIncorrectPlucking] reports a pick among the elements of a sequence
    that is the body of an action: for a rule of this form the pass, on a
    session whose stage is set, returns with an error at the label of the
    pick whose note points at the code of the action; the error count has
    gone up. *)
Theorem reportIncorrectPlucking_reports_pick_in_action (ast : Grammar)
    (s : Session) (st : Stage) (r : Rule) (i j k : NodeInfo) (code : string)
    (codeLocation labelLocation : LocationRange) (label : option string)
    (e : Expr) (before after : list Expr) :
  stageSet (stage s) = Some st ->
  In r (rules ast) ->
  rule_expression r
  = Action i code codeLocation
      (Sequence j (before ++ Labeled k true label labelLocation e :: after)) ->
  exists s',
    reportIncorrectPlucking ast s = (Ok tt, s')
    /\ In (pluckProblem labelLocation codeLocation) (problems s')
    /\ (errors s < errors s')%nat.
Proof.
  intros Hst Hin Hbody.
  assert (Hrule : forall s0,
             stageSet (stage s0) = Some st ->
             exists ps,
               incorrectPlucking_check (rule_expression r) None s0
               = (Ok tt, withErrors st ps s0)
               /\ In (pluckProblem labelLocation codeLocation) ps).
  { intros s0 Hs0. rewrite Hbody. cbn [incorrectPlucking_check].
    set (a := Some (mkCodeNode code codeLocation)).
    assert (Hsplit : forall l1 l2 s1,
               forEach (fun x => incorrectPlucking_check x a) (l1 ++ l2) s1
               = bind (forEach (fun x => incorrectPlucking_check x a) l1)
                   (fun _ => forEach (fun x => incorrectPlucking_check x a) l2)
                   s1).
    { induction l1 as [|x l1 IH]; intros l2 s1; simpl; [reflexivity|].
      unfold bind.
      destruct (incorrectPlucking_check x a s1) as [[[]| |] s2]; auto. }
    rewrite Hsplit. unfold bind at 1.
    destruct (reportsErrors_forEach
                (fun x => incorrectPlucking_check x a) before
                ltac:(apply Forall_forall; intros;
                      apply incorrectPlucking_check_reportsErrors) s0 st Hs0)
      as ([] & ps1 & ->).
    cbn [forEach incorrectPlucking_check]. unfold bind at 1 2. unfold a at 1.
    cbn [cn_codeLocation].
    destruct (Session_error_reports
                (dquote ++ "@" ++ dquote
                 ++ " cannot be used with an action block")
                (Some labelLocation)
                (Some [mkNote "Action block location" codeLocation])
                (withErrors st ps1 s0) st Hs0) as [[] ->].
    cbv beta iota.
    match goal with
    | |- context [incorrectPlucking_check e None ?s1] =>
        destruct (incorrectPlucking_check_reportsErrors e None s1 st Hs0)
          as ([] & ps2 & ->)
    end.
    match goal with
    | |- context [forEach ?body after ?s1] =>
        destruct (reportsErrors_forEach body after
                    ltac:(apply Forall_forall; intros;
                          apply incorrectPlucking_check_reportsErrors)
                    s1 st Hs0) as ([] & ps3 & ->)
    end.
    rewrite !withErrors_app. eexists. split; [reflexivity|].
    rewrite !in_app_iff. right. left. now left. }
  unfold reportIncorrectPlucking.
  assert (Hall : forall rs s0,
             stageSet (stage s0) = Some st ->
             exists ps,
               forEach
                 (fun r0 => incorrectPlucking_check (rule_expression r0) None)
                 rs s0
               = (Ok tt, withErrors st ps s0)
               /\ (In r rs ->
                   In (pluckProblem labelLocation codeLocation) ps)).
  { induction rs as [|x rs IH]; intros s0 Hs0; simpl.
    - exists []. rewrite withErrors_nil. split; [reflexivity|tauto].
    - destruct (incorrectPlucking_check_reportsErrors (rule_expression x)
                  None s0 st Hs0) as ([] & psx & Hrunx).
      destruct (IH (withErrors st psx s0) Hs0) as (ps & Hrun & Hps).
      unfold bind. rewrite Hrunx, Hrun, withErrors_app.
      exists (psx ++ ps). split; [reflexivity|].
      intros [->|Hr]; apply in_app_iff; [left|right; auto].
      destruct (Hrule s0 Hs0) as (ps' & Hrun' & Hin').
      rewrite Hrunx in Hrun'.
      apply (f_equal (fun x => problems (snd x))) in Hrun'.
      simpl in Hrun'. apply app_inv_head in Hrun'. now subst. }
  destruct (Hall (rules ast) s Hst) as (ps & Hrun & Hps).
  exists (withErrors st ps s).
  split; [exact Hrun|]. specialize (Hps Hin). split.
  - simpl. apply in_app_iff. now right.
  - simpl. destruct ps; [destruct Hps|simpl; lia].
Qed.

Lemma reportIncorrectPlucking_reports_pick_in_action_witness :
  exists s',
    reportIncorrectPlucking pluckInActionGrammar
      (snd (setStage "check" newSession)) = (Ok tt, s')
    /\ In (pluckProblem (span 8 9) (span 17 29)) (problems s')
    /\ (errors (snd (setStage "check" newSession)) < errors s')%nat.
Proof.
  eapply (reportIncorrectPlucking_reports_pick_in_action pluckInActionGrammar
            (snd (setStage "check" newSession)) "check" _ _ _ _ _ _ _ _ _ []).
  - reflexivity.
  - left. reflexivity.
  - reflexivity.
Defined.

(** ** [reportInfiniteRecursion] *)

Section InfiniteRecursionUnfold.
Context {callbacks : Callbacks}.

Lemma infiniteRecursion_check_unfold ast cfuel fuel e :
  infiniteRecursion_check ast cfuel fuel e
  = match e with
    | Sequence _ elements =>
        sequenceLoop ast cfuel (infiniteRecursion_check ast cfuel fuel)
          elements
    | RuleRef i name =>
        let* _ := pushRef (i, name) in
        match findRule ast name with
        | None =>
            throw (JsError ("Could not find rule " ++ name
                            ++ " while looking for infinite recursive parsers"))
        | Some rule =>
            let* st := get in
            if existsb (String.eqb name) (visitedRules st) then
              let* _ := pushVisited name in
              let* st' := get in
              withSession
                (Session_error
                   ("Possible infinite loop when parsing (left recursion: "
                    ++ String.concat " -> " (visitedRules st') ++ ")")
                   (Some (nameLocation rule))
                   (Some (backtraceNotes (backtraceRefs st'))))
            else
              let* _ :=
                match fuel with
                | O => outOfFuel
                | S fuel' =>
                    let* _ := pushVisited (rule_name rule) in
                    let* _ :=
                      infiniteRecursion_check ast cfuel fuel'
                        (rule_expression rule) in
                    popVisited
                end in
              popRef
        end
    | Choice _ alternatives =>
        forEach (infiniteRecursion_check ast cfuel fuel) alternatives
    | Named _ _ e' | Action _ _ _ e' | Labeled _ _ _ _ e' | Text _ e'
    | SimpleAnd _ e' | SimpleNot _ e' | Optional _ e' | ZeroOrMore _ e'
    | OneOrMore _ e' | Group _ e' => infiniteRecursion_check ast cfuel fuel e'
    | SemanticAnd _ _ _ | SemanticNot _ _ _ | Literal _ _ _ | Class _ _ _ _
    | Any _ => ret tt
    end.
Proof. destruct fuel, e; reflexivity. Qed.

End InfiniteRecursionUnfold.

(** [reportInfiniteRecursion] does not come back from a rule whose body is a
    sequence that begins with a reference to the rule itself: for a grammar
    whose first rule is of this form, on a session whose stage is set, the
    pass reports the left recursion, and then the question whether the
    reference consumes input, which the [sequence] handler asks next, runs
    out of every supply of fuel. *)
Theorem reportInfiniteRecursion_overflows_after_left_recursion
    (ast : Grammar) (s : Session) (st : Stage) (r : Rule) (rs : list Rule)
    (i j : NodeInfo) (rest : list Expr) (cfuel fuel : nat) :
  stageSet (stage s) = Some st ->
  rules ast = r :: rs ->
  rule_expression r = Sequence i (RuleRef j (rule_name r) :: rest) ->
  reportInfiniteRecursion cfuel fuel ast s
  = (OutOfFuel, withErrors st [leftRecursionProblem r j] s).
Proof.
  intros Hst Hrules Hbody.
  assert (Hfind : findRule ast (rule_name r) = Some r).
  { unfold findRule, findRuleAt. rewrite Hrules. simpl.
    now rewrite String.eqb_refl. }
  assert (Hloop : alwaysConsumesOnSuccess ast cfuel
                    (NExpr (RuleRef j (rule_name r))) = OutOfFuel).
  { simpl. apply (consumes_startsWith ast (rule_name r) r Hfind).
    - rewrite Hbody. apply sw_sequence, sw_self.
    - apply sw_self. }
  unfold reportInfiniteRecursion. rewrite Hrules. cbn [forEach].
  unfold bind at 1 2. cbn [pushVisited].
  rewrite infiniteRecursion_check_unfold, Hbody. cbn [sequenceLoop].
  unfold bind at 1 2. rewrite infiniteRecursion_check_unfold.
  unfold bind at 1. cbn [pushRef]. rewrite Hfind.
  unfold bind at 1. cbn [get visitedRules app existsb].
  rewrite String.eqb_refl. cbn [orb].
  unfold bind at 1 2. cbn [pushVisited get visitedRules backtraceRefs app].
  unfold withSession, zoom. cbn [rec_session].
  destruct (Session_error_reports
              ("Possible infinite loop when parsing (left recursion: "
               ++ String.concat " -> " [rule_name r; rule_name r] ++ ")")
              (Some (nameLocation r))
              (Some (backtraceNotes [(j, rule_name r)])) s st Hst)
    as [[] ->].
  cbv beta iota. unfold bind at 1. unfold liftRes at 1. rewrite Hloop.
  reflexivity.
Qed.

Lemma reportInfiniteRecursion_overflows_after_left_recursion_witness :
  reportInfiniteRecursion 1000 1000 leftRecursiveGrammar
    (snd (setStage "check" newSession))
  = (OutOfFuel,
     withErrors "check"
       [mkProblem SevError
          "Possible infinite loop when parsing (left recursion: start -> start)"
          (Some (span 0 5))
          (Some [mkNote
                   "Step 1: call itself without input consumption - left recursion"
                   (span 8 13)])]
       (snd (setStage "check" newSession))).
Proof.
  exact (reportInfiniteRecursion_overflows_after_left_recursion
           leftRecursiveGrammar (snd (setStage "check" newSession)) "check"
           _ _ _ _ _ 1000 1000 eq_refl eq_refl eq_refl).
Defined.

Lemma forEach_fixed {S A : Type} (body : A -> M S unit) l s :
  Forall (fun x => body x s = (Ok tt, s)) l -> forEach body l s = (Ok tt, s).
Proof.
  induction 1 as [|x l Hx _ IH]; simpl; [reflexivity|].
  unfold bind. now rewrite Hx.
Qed.

Lemma flat_map_refNames_in l x n :
  In x l -> In n (refNames x) -> In n (flat_map refNames l).
Proof. intros Hx Hn. apply in_flat_map. eauto. Qed.

Lemma refsResolve_rule ast name rule :
  allRefsResolve ast = true ->
  findRule ast name = Some rule ->
  refsResolve ast (rule_expression rule) = true.
Proof.
  unfold allRefsResolve. rewrite forallb_forall. intros Hall Hfind.
  apply Hall. eapply findRule_in. exact Hfind.
Qed.

Lemma infiniteRecursion_check_quiet_ranked (rank : string -> nat)
    (ast : Grammar) (cfuel : nat) :
  refsRanked rank ast ->
  allRefsResolve ast = true ->
  forall fuel e st,
    refsResolve ast e = true ->
    (forall n, In n (refNames e) ->
               (rank n < fuel)%nat /\ (rank n < cfuel)%nat
               /\ forall v, In v (visitedRules st) -> (rank n < rank v)%nat) ->
    infiniteRecursion_check ast cfuel fuel e st = (Ok tt, st).
Proof.
  intros Hrank Hall fuel.
  induction fuel as [|fuel IHfuel]; intros e;
    induction e using Expr_forall_ind; intros st Hres Hrefs;
    rewrite infiniteRecursion_check_unfold; cbn [refsResolve refNames] in *;
    auto.
  all: try (apply forEach_fixed, Forall_forall; intros x Hx;
            rewrite Forall_forall in H; apply (H x Hx);
            [rewrite forallb_forall in Hres; now apply Hres
            |intros n Hn; apply Hrefs; eapply flat_map_refNames_in; eauto]).
  all: try (rewrite forallb_forall in Hres;
            induction H as [|x l Hx _ IH]; cbn [sequenceLoop]; [reflexivity|];
            unfold bind at 1;
            rewrite Hx;
              [|apply Hres; now left
               |intros n Hn; apply Hrefs; simpl; apply in_app_iff; now left];
            destruct (consumes_returns_ranked rank ast Hrank cfuel x) as [b Hb];
              [intros n Hn; apply Hrefs; simpl; apply in_app_iff; now left|];
            unfold bind, liftRes; cbn [alwaysConsumesOnSuccess];
            rewrite Hb; destruct b; [reflexivity|];
            apply IH;
              [intros y Hy; apply Hres; now right
              |intros n Hn; apply Hrefs; simpl; apply in_app_iff; now right]).
  - destruct (findRule ast n) as [rule|] eqn:Hfind; [|discriminate].
    destruct (Hrefs n (or_introl eq_refl)) as (Hlt & _). lia.
  - destruct (findRule ast n) as [rule|] eqn:Hfind; [|discriminate].
    destruct (Hrefs n (or_introl eq_refl)) as (Hlt & Hclt & Hvis).
    assert (Hfresh : existsb (String.eqb n) (visitedRules st) = false).
    { destruct (existsb (String.eqb n) (visitedRules st)) eqn:E;
        [|reflexivity].
      apply existsb_exists in E as (v & Hv & Heq).
      apply String.eqb_eq in Heq. subst v. specialize (Hvis n Hv). lia. }
    pose proof (findRule_name _ _ _ Hfind) as Hname.
    unfold bind at 1. cbn [pushRef]. unfold bind at 1. cbn [get visitedRules].
    rewrite Hfresh. unfold bind at 1 2. cbn [pushVisited].
    unfold bind at 1. rewrite IHfuel.
    + unfold popRef, popVisited.
      cbn [visitedRules backtraceRefs rec_session].
      rewrite !removelast_last. now destruct st.
    + eapply refsResolve_rule; eassumption.
    + intros m Hm.
      pose proof (Hrank rule m (findRule_in _ _ _ Hfind) Hm) as Hm'.
      rewrite Hname in *. cbn [visitedRules].
      split; [lia|]. split; [lia|].
      intros v Hv. apply in_app_iff in Hv as [Hv|[<-|[]]]; [|lia].
      specialize (Hvis v Hv). lia.
Qed.

(** [reportInfiniteRecursion] reports nothing for a grammar without circular
    references: when every reference finds its rule and some rank of the rule
    names decreases along the references, the pass, with fuel for the ranks,
    returns and leaves the session as it was. *)
Theorem reportInfiniteRecursion_quiet_without_circles (rank : string -> nat)
    (ast : Grammar) (s : Session) (cfuel fuel : nat) :
  refsRanked rank ast ->
  allRefsResolve ast = true ->
  (forall r, In r (rules ast) ->
             (rank (rule_name r) <= fuel)%nat
             /\ (rank (rule_name r) <= cfuel)%nat) ->
  reportInfiniteRecursion cfuel fuel ast s = (Ok tt, s).
Proof.
  intros Hrank Hall Hfuel. unfold reportInfiniteRecursion.
  rewrite forEach_fixed; [reflexivity|].
  apply Forall_forall. intros r Hr.
  unfold bind at 1 2. cbn [pushVisited].
  rewrite (infiniteRecursion_check_quiet_ranked rank ast cfuel Hrank Hall).
  - reflexivity.
  - unfold allRefsResolve in Hall. rewrite forallb_forall in Hall. auto.
  - intros n Hn. pose proof (Hrank r n Hr Hn) as Hlt.
    destruct (Hfuel r Hr) as [Hf Hc]. cbn [visitedRules app].
    split; [lia|]. split; [lia|]. intros v [<-|[]]. exact Hlt.
Qed.

Lemma reportInfiniteRecursion_quiet_without_circles_witness :
  reportInfiniteRecursion 1 1 proxyGrammar newSession = (Ok tt, newSession).
Proof.
  apply (reportInfiniteRecursion_quiet_without_circles
           (fun n => if String.eqb n "A" then 1%nat else 0%nat)).
  - intros r n Hr Hn. simpl in Hr. destruct Hr as [<-|[<-|[]]]; simpl in Hn.
    + destruct Hn as [<-|[]]. simpl. lia.
    + destruct Hn.
  - reflexivity.
  - intros r Hr. simpl in Hr. destruct Hr as [<-|[<-|[]]]; simpl; lia.
Defined.

Lemma every_never_throws {A : Type} (f : A -> Res bool) l exn :
  Forall (fun x => forall exn, f x <> Throw exn) l -> every f l <> Throw exn.
Proof.
  induction 1 as [|x l Hx _ IH]; simpl; [discriminate|].
  destruct (f x) as [[|]| |] eqn:E; try discriminate; auto.
Qed.

Lemma some_never_throws {A : Type} (f : A -> Res bool) l exn :
  Forall (fun x => forall exn, f x <> Throw exn) l -> some f l <> Throw exn.
Proof.
  induction 1 as [|x l Hx _ IH]; simpl; [discriminate|].
  destruct (f x) as [[|]| |] eqn:E; try discriminate; auto.
Qed.

Lemma consumes_never_throws ast fuel :
  forall e exn, consumes ast fuel e <> Throw exn.
Proof.
  induction fuel as [|fuel IHfuel]; intros e;
    induction e using Expr_forall_ind; intros exn;
    rewrite consumes_unfold; auto; try discriminate;
    try (apply every_never_throws; assumption);
    try (apply some_never_throws; assumption);
    destruct (findRule ast n); auto; discriminate.
Qed.

Lemma neverThrows_ret {A : Type} (a : A) : neverThrows (ret a).
Proof. intros st _. split; [discriminate|reflexivity]. Qed.

Lemma neverThrows_bind {A B : Type} (c : M RecursionState A)
    (k : A -> M RecursionState B) :
  neverThrows c -> (forall a, neverThrows (k a)) -> neverThrows (bind c k).
Proof.
  intros Hc Hk st Hst. unfold bind.
  destruct (Hc st Hst) as [Hne Hstage].
  destruct (c st) as [[a| |] st1]; simpl in *.
  - rewrite <- Hstage. apply Hk. now rewrite Hstage.
  - exfalso. exact (Hne e eq_refl).
  - split; [discriminate|exact Hstage].
Qed.

Lemma neverThrows_forEach {A : Type} (body : A -> M RecursionState unit) l :
  Forall (fun x => neverThrows (body x)) l -> neverThrows (forEach body l).
Proof.
  induction 1 as [|x l Hx _ IH]; simpl; [apply neverThrows_ret|].
  apply neverThrows_bind; [exact Hx|intros _; exact IH].
Qed.

Lemma neverThrows_sequenceLoop ast cfuel
    (check : Expr -> M RecursionState unit) l :
  Forall (fun x => neverThrows (check x)) l ->
  neverThrows (sequenceLoop ast cfuel check l).
Proof.
  induction 1 as [|x l Hx _ IH]; simpl; [apply neverThrows_ret|].
  apply neverThrows_bind; [exact Hx|intros _].
  apply neverThrows_bind.
  - intros st _. unfold liftRes. simpl.
    split; [intros exn; apply consumes_never_throws|reflexivity].
  - intros [|]; [apply neverThrows_ret|exact IH].
Qed.

Lemma neverThrows_get {A : Type} (k : RecursionState -> M RecursionState A) :
  (forall x, neverThrows (k x)) -> neverThrows (bind get k).
Proof. intros H st Hst. exact (H st st Hst). Qed.

Lemma neverThrows_error msg loc notes :
  neverThrows (withSession (Session_error msg loc notes)).
Proof.
  intros st Hst. unfold withSession, zoom.
  destruct (stageSet (stage (rec_session st))) as [name|] eqn:Hname;
    [|congruence].
  destruct (Session_error_reports msg loc notes (rec_session st) name Hname)
    as [[] ->].
  split; [discriminate|reflexivity].
Qed.

Ltac never_throws_step :=
  intros ? ?; split; [discriminate|reflexivity].

Lemma infiniteRecursion_check_never_throws ast cfuel :
  allRefsResolve ast = true ->
  forall fuel e,
    refsResolve ast e = true ->
    neverThrows (infiniteRecursion_check ast cfuel fuel e).
Proof.
  intros Hall fuel.
  induction fuel as [|fuel IHfuel]; intros e;
    induction e using Expr_forall_ind; intros Hres;
    rewrite infiniteRecursion_check_unfold; cbn [refsResolve] in Hres;
    auto; try apply neverThrows_ret.
  all: try (apply neverThrows_forEach, Forall_forall; intros x Hx;
            rewrite Forall_forall in H; apply (H x Hx);
            rewrite forallb_forall in Hres; now apply Hres).
  all: try (apply neverThrows_sequenceLoop, Forall_forall; intros x Hx;
            rewrite Forall_forall in H; apply (H x Hx);
            rewrite forallb_forall in Hres; now apply Hres).
  all: destruct (findRule ast n) as [rule|] eqn:Hfind; [|discriminate];
    apply neverThrows_bind; [never_throws_step|intros _];
    apply neverThrows_get; intros st0;
    destruct (existsb (String.eqb n) (visitedRules st0));
    [apply neverThrows_bind; [never_throws_step|intros _];
     apply neverThrows_get; intros st1; apply neverThrows_error
    |apply neverThrows_bind; [|intros _; never_throws_step]].
  - never_throws_step.
  - apply neverThrows_bind; [never_throws_step|intros _].
    apply neverThrows_bind; [|intros _; never_throws_step].
    apply IHfuel. eapply refsResolve_rule; eassumption.
Qed.

(** When every reference of the grammar finds its rule, the one way in which
    [reportInfiniteRecursion] does not return is a recursion that does not
    come back, a stack overflow: on a session whose stage is set the pass
    returns, or its recursion runs on without end; it throws no error of its
    own, neither the one for a rule it cannot find nor that of a session
    without a stage. *)
Theorem reportInfiniteRecursion_fails_only_by_overflow (ast : Grammar)
    (s : Session) (st : Stage) (cfuel fuel : nat) :
  allRefsResolve ast = true ->
  stageSet (stage s) = Some st ->
  fst (reportInfiniteRecursion cfuel fuel ast s) = Ok tt
  \/ fst (reportInfiniteRecursion cfuel fuel ast s) = OutOfFuel.
Proof.
  intros Hall Hst. unfold reportInfiniteRecursion.
  assert (H : neverThrows
                (forEach
                   (fun rule =>
                      let* _ := pushVisited (rule_name rule) in
                      let* _ :=
                        infiniteRecursion_check ast cfuel fuel
                          (rule_expression rule) in
                      popVisited) (rules ast))).
  { apply neverThrows_forEach, Forall_forall. intros r Hr.
    apply neverThrows_bind; [never_throws_step|intros _].
    apply neverThrows_bind; [|intros _; never_throws_step].
    apply infiniteRecursion_check_never_throws; [exact Hall|].
    unfold allRefsResolve in Hall. rewrite forallb_forall in Hall. auto. }
  destruct (H (mkRecursionState [] [] s)) as [Hne _].
  - simpl. congruence.
  - destruct (forEach _ (rules ast) (mkRecursionState [] [] s))
      as [[[]|exn|] st']; simpl in *; auto.
    now destruct (Hne exn).
Qed.

(** [start = start "a"]: the pass does not return. *)
Lemma reportInfiniteRecursion_fails_only_by_overflow_witness :
  fst (reportInfiniteRecursion 5 5 leftRecursiveGrammar
         (snd (setStage "check" newSession))) = OutOfFuel
  /\ fst (reportInfiniteRecursion 5 5 proxyGrammar
            (snd (setStage "check" newSession))) = Ok tt.
Proof.
  split.
  - destruct (reportInfiniteRecursion_fails_only_by_overflow
                leftRecursiveGrammar (snd (setStage "check" newSession))
                "check" 5 5 eq_refl eq_refl) as [H|H].
    + vm_compute in H. discriminate H.
    + exact H.
  - destruct (reportInfiniteRecursion_fails_only_by_overflow
                proxyGrammar (snd (setStage "check" newSession))
                "check" 5 5 eq_refl eq_refl) as [H|H].
    + exact H.
    + vm_compute in H. discriminate H.
Defined.

(** ** The session over a run of calls *)

Lemma stageSet_Some o st : stageSet o = Some st -> o = Some st /\ st <> EmptyString.
Proof.
  destruct o as [name|]; simpl; [|discriminate].
  destruct (String.eqb_spec name EmptyString); [discriminate|].
  intros H. injection H as <-. auto.
Qed.

Lemma stageSet_named st : st <> EmptyString -> stageSet (Some st) = Some st.
Proof. simpl. now destruct (String.eqb_spec st EmptyString). Qed.

Lemma runCall_coherent c s :
  match c with CallStage st => st <> EmptyString | _ => True end ->
  sessionCoherent s ->
  fst (runCall c s) = Ok tt
  /\ sessionCoherent (snd (runCall c s))
  /\ problems (snd (runCall c s))
     = problems s ++ match callProblem c with Some p => [p] | None => [] end.
Proof.
  intros Hc ([st Hst] & Herr & Hfirst).
  destruct c as [st'|msg loc notes|msg loc notes|msg loc notes]; simpl.
  - split; [reflexivity|]. split; [|now rewrite app_nil_r].
    split; [exists st'; now apply stageSet_named|]. simpl. auto.
  - destruct (Session_error_reports msg loc notes s st Hst) as [[] ->].
    split; [reflexivity|]. split; [|reflexivity].
    split; [exists st; exact Hst|]. simpl.
    rewrite List.filter_app, length_app. simpl.
    split; [lia|].
    destruct (List.filter isErrorProblem (problems s)) as [|p ps]; simpl.
    + rewrite Hfirst. apply stageSet_Some in Hst as [-> Hne]. eauto.
    + destruct Hfirst as (st1 & Hne & ->). eauto.
  - unfold Session_warning. simpl. rewrite Hst. simpl.
    split; [reflexivity|]. split; [|reflexivity].
    split; [exists st; exact Hst|].
    cbn [notify pushProblem problems errors firstError].
    rewrite List.filter_app. simpl. rewrite app_nil_r. auto.
  - unfold Session_info. simpl. rewrite Hst. simpl.
    split; [reflexivity|]. split; [|reflexivity].
    split; [exists st; exact Hst|].
    cbn [notify pushProblem problems errors firstError].
    rewrite List.filter_app. simpl. rewrite app_nil_r. auto.
Qed.

Lemma runCalls_coherent calls :
  forall s,
    stagesNamed calls ->
    sessionCoherent s ->
    fst (forEach runCall calls s) = Ok tt
    /\ sessionCoherent (snd (forEach runCall calls s))
    /\ problems (snd (forEach runCall calls s))
       = problems s ++ omap callProblem calls.
Proof.
  induction calls as [|c calls IH]; intros s Hnamed Hs; simpl.
  - rewrite app_nil_r. auto.
  - inversion Hnamed as [|c' calls' Hc Hrest]; subst.
    destruct (runCall_coherent c s Hc Hs) as (Hok & Hcoh & Hps).
    unfold bind. destruct (runCall c s) as [res s1]. simpl in *. subst res.
    destruct (IH s1 Hrest Hcoh) as (Hok' & Hcoh' & Hps').
    split; [exact Hok'|]. split; [exact Hcoh'|].
    rewrite Hps', Hps, <- app_assoc. now destruct (callProblem c).
Qed.

(** Over a run of calls that begins by setting the stage, the session keeps
    its books: every call returns; the problems are those of the calls, in
    order; the error count is the number of problems that are errors;
    [checkErrors] returns exactly when none is, and otherwise throws the
    exception retained for the first error, which carries its message and
    location and a stage, and whose problems read as all the problems of the
    session, those reported after it included. *)
Theorem Session_keeps_books (st0 : Stage) (calls : list SessionCall) :
  st0 <> EmptyString ->
  stagesNamed calls ->
  exists s,
    forEach runCall (CallStage st0 :: calls) newSession = (Ok tt, s)
    /\ problems s = omap callProblem calls
    /\ errors s = length (List.filter isErrorProblem (problems s))
    /\ (List.filter isErrorProblem (problems s) = []
        -> checkErrors s = (Ok tt, s))
    /\ (forall p ps,
          List.filter isErrorProblem (problems s) = p :: ps ->
          exists e st,
            checkErrors s = (Throw (GrammarErr e), s)
            /\ ge_message e = message p
            /\ ge_location e = problem_location p
            /\ ge_stage e = Some st /\ st <> EmptyString
            /\ problemsOf s e = problems s).
Proof.
  intros Hst0 Hnamed.
  assert (Hstart : sessionCoherent (snd (setStage st0 newSession))).
  { split; [exists st0; now apply stageSet_named|]. simpl. auto. }
  destruct (runCalls_coherent calls _ Hnamed Hstart)
    as (Hok & ([st Hst] & Herr & Hfirst) & Hps).
  change (forEach runCall (CallStage st0 :: calls) newSession)
    with (forEach runCall calls (snd (setStage st0 newSession))).
  destruct (forEach runCall calls (snd (setStage st0 newSession)))
    as [res s]. simpl in *. subst res.
  exists s. split; [reflexivity|]. split; [exact Hps|].
  split; [exact Herr|]. unfold checkErrors. rewrite Herr. split.
  - intros ->. reflexivity.
  - intros p ps Hp. rewrite Hp in Hfirst |- *. simpl.
    destruct Hfirst as (st1 & Hne & Hfe).
    unfold thrownFirstError. rewrite Hfe.
    exists (retained (Some st1) p), st1. auto 10.
Qed.

Lemma Session_keeps_books_witness :
  exists s,
    forEach runCall
      [CallStage "check"; CallInfo "Process stage check" None None;
       CallError "first" None None; CallWarning "careful" None None;
       CallStage "transform"; CallError "second" None None] newSession
    = (Ok tt, s)
    /\ errors s = 2%nat
    /\ exists e,
         checkErrors s = (Throw (GrammarErr e), s)
         /\ ge_message e = "first" /\ ge_stage e = Some "check"
         /\ length (problemsOf s e) = 4%nat.
Proof.
  destruct (Session_keeps_books "check"
              [CallInfo "Process stage check" None None;
               CallError "first" None None; CallWarning "careful" None None;
               CallStage "transform"; CallError "second" None None])
    as (s & Hrun & _).
  - discriminate.
  - repeat constructor; discriminate.
  - exists s. split; [exact Hrun|].
    injection Hrun as <-. split; [reflexivity|].
    eexists. repeat split.
Defined.

(** ** The driver and the check stage *)

Section Nondecreasing.
Context {S : Type}.
Variable mu : S -> nat.

Lemma nd_ret {A : Type} (a : A) : nondecreasing mu (ret a).
Proof. intros s. simpl. lia. Qed.

Lemma nd_throw {A : Type} e : nondecreasing mu (@throw S A e).
Proof. intros s. simpl. lia. Qed.

Lemma nd_outOfFuel {A : Type} : nondecreasing mu (@outOfFuel S A).
Proof. intros s. simpl. lia. Qed.

Lemma nd_liftRes {A : Type} (r : Res A) : nondecreasing mu (liftRes r).
Proof. intros s. simpl. lia. Qed.

Lemma nd_bind {A B : Type} (c : M S A) (k : A -> M S B) :
  nondecreasing mu c -> (forall a, nondecreasing mu (k a)) ->
  nondecreasing mu (bind c k).
Proof.
  intros Hc Hk s. unfold bind. specialize (Hc s).
  destruct (c s) as [[a| |] s1]; simpl in *; try lia.
  specialize (Hk a s1). lia.
Qed.

Lemma nd_get {A : Type} (k : S -> M S A) :
  (forall x, nondecreasing mu (k x)) -> nondecreasing mu (bind get k).
Proof. intros H s. exact (H s s). Qed.

Lemma nd_forEach {A : Type} (body : A -> M S unit) l :
  Forall (fun x => nondecreasing mu (body x)) l ->
  nondecreasing mu (forEach body l).
Proof.
  induction 1 as [|x l Hx _ IH]; simpl; [apply nd_ret|].
  apply nd_bind; [exact Hx|intros _; exact IH].
Qed.

Lemma nd_foldM {A T : Type} (step : A -> T -> M S T) l :
  Forall (fun x => forall t, nondecreasing mu (step x t)) l ->
  forall t, nondecreasing mu (foldM step l t).
Proof.
  induction 1 as [|x l Hx _ IH]; intros t; simpl; [apply nd_ret|].
  apply nd_bind; [apply Hx|exact IH].
Qed.
End Nondecreasing.

Lemma nd_zoom {S T A : Type} (mu : T -> nat) (proj : S -> T)
    (inj : T -> S -> S) (c : M T A) :
  (forall t s, proj (inj t s) = t) ->
  nondecreasing mu c ->
  nondecreasing (fun s => mu (proj s)) (zoom proj inj c).
Proof.
  intros Hproj Hc s. unfold zoom. specialize (Hc (proj s)).
  destruct (c (proj s)) as [r t]. simpl in *. now rewrite Hproj.
Qed.

Ltac nd_step := intros ?; simpl; lia.

(** The count of errors under any callbacks, functions or not. *)
Section AnyCallbacks.
Context {callbacks : Callbacks}.

Lemma nd_Session_error msg loc notes :
  nondecreasing errors (Session_error msg loc notes).
Proof.
  intros s. unfold Session_error, callCallback.
  destruct (stageSet (stage (countError msg loc notes s))); [|simpl; lia].
  destruct call_error; simpl; lia.
Qed.

Lemma nd_Session_info msg loc notes :
  nondecreasing errors (Session_info msg loc notes).
Proof.
  intros s. unfold Session_info, callCallback.
  destruct (stageSet (stage (pushProblem _ s))); [|simpl; lia].
  destruct call_info; simpl; lia.
Qed.

Lemma nd_undefinedRules_check ast e :
  nondecreasing errors (undefinedRules_check ast e).
Proof.
  induction e using Expr_forall_ind; simpl; auto; try apply nd_ret;
    try (now apply nd_forEach).
  destruct (findRule ast n); [apply nd_ret|apply nd_Session_error].
Qed.

Lemma nd_duplicateRules_check rs :
  forall seen, nondecreasing errors (duplicateRules_check rs seen).
Proof.
  induction rs as [|r rs IH]; intros seen; simpl; [apply nd_ret|].
  destruct (seen !! rule_name r); [|apply IH].
  apply nd_bind; [apply nd_Session_error|intros _; apply IH].
Qed.

Lemma nd_duplicateLabels_check e :
  forall env, nondecreasing errors (duplicateLabels_check e env).
Proof.
  induction e using Expr_forall_ind; intros env;
    cbn [duplicateLabels_check]; auto; try apply nd_ret;
    try (apply nd_bind; [auto|intros; apply nd_ret]).
  - apply nd_foldM. eapply Forall_impl; [|exact H].
    intros x Hx t. apply nd_bind; [auto|intros; apply nd_ret].
  - now apply nd_foldM.
  - apply nd_bind.
    + destruct (truthy lb) as [l|]; [|apply nd_ret].
      destruct (env !! l); [apply nd_Session_error|apply nd_ret].
    + intros _. apply nd_bind; [auto|].
      intros env1. destruct (truthy lb); apply nd_ret.
Qed.

Lemma nd_sequenceLoop mu ast cfuel (check : Expr -> M RecursionState unit) l :
  Forall (fun x => nondecreasing mu (check x)) l ->
  nondecreasing mu (sequenceLoop ast cfuel check l).
Proof.
  induction 1 as [|x l Hx _ IH]; simpl; [apply nd_ret|].
  apply nd_bind; [exact Hx|intros _].
  apply nd_bind; [apply nd_liftRes|].
  intros [|]; [apply nd_ret|exact IH].
Qed.

Lemma nd_infiniteRecursion_check ast cfuel fuel :
  forall e,
    nondecreasing (fun st => errors (rec_session st))
      (infiniteRecursion_check ast cfuel fuel e).
Proof.
  induction fuel as [|fuel IHfuel]; intros e;
    induction e using Expr_forall_ind;
    rewrite infiniteRecursion_check_unfold; auto; try apply nd_ret;
    try (now apply nd_forEach); try (now apply nd_sequenceLoop).
  all: apply nd_bind; [nd_step|intros _];
    destruct (findRule ast n) as [rule|]; [|apply nd_throw];
    apply nd_get; intros st0;
    destruct (existsb (String.eqb n) (visitedRules st0));
    [apply nd_bind; [nd_step|intros _]; apply nd_get; intros st1;
     apply (nd_zoom errors); [reflexivity|apply nd_Session_error]
    |apply nd_bind; [|intros _; nd_step]].
  - apply nd_outOfFuel.
  - apply nd_bind; [nd_step|intros _].
    apply nd_bind; [apply IHfuel|intros _; nd_step].
Qed.

Lemma nd_reportInfiniteRecursion cfuel fuel ast :
  nondecreasing errors (reportInfiniteRecursion cfuel fuel ast).
Proof.
  intros s. unfold reportInfiniteRecursion.
  assert (H : nondecreasing (fun st => errors (rec_session st))
                (forEach
                   (fun rule =>
                      let* _ := pushVisited (rule_name rule) in
                      let* _ :=
                        infiniteRecursion_check ast cfuel fuel
                          (rule_expression rule) in
                      popVisited) (rules ast))).
  { apply nd_forEach, Forall_forall. intros r _.
    apply nd_bind; [nd_step|intros _].
    apply nd_bind; [apply nd_infiniteRecursion_check|intros _; nd_step]. }
  specialize (H (mkRecursionState [] [] s)).
  destruct (forEach _ (rules ast) (mkRecursionState [] [] s)) as [r st].
  exact H.
Qed.

Lemma nd_infiniteRepetition_check ast cfuel e :
  nondecreasing errors (infiniteRepetition_check ast cfuel e).
Proof.
  induction e using Expr_forall_ind; cbn [infiniteRepetition_check]; auto;
    try apply nd_ret; try (now apply nd_forEach);
    (apply nd_bind; [apply nd_liftRes|]);
    intros [|]; [apply nd_ret|apply nd_Session_error
                |apply nd_ret|apply nd_Session_error].
Qed.

Lemma nd_incorrectPlucking_check e :
  forall action, nondecreasing errors (incorrectPlucking_check e action).
Proof.
  induction e using Expr_forall_ind; intros action;
    cbn [incorrectPlucking_check]; auto; try apply nd_ret.
  - apply nd_forEach. eapply Forall_impl; [|exact H]. auto.
  - apply nd_forEach. eapply Forall_impl; [|exact H]. auto.
  - apply nd_bind; [|auto].
    destruct p; [|apply nd_ret].
    destruct action; [apply nd_Session_error|apply nd_ret].
Qed.

(** A run that ends normally under any callbacks is the run under callbacks
    that are functions: each callback that was called was one. *)
Lemma sameWhenOk_refl {S A : Type} (c : M S A) : sameWhenOk c c.
Proof. intros s a s' H. exact H. Qed.

Lemma sameWhenOk_bind {S A B : Type} (c c' : M S A) (k k' : A -> M S B) :
  sameWhenOk c c' -> (forall a, sameWhenOk (k a) (k' a)) ->
  sameWhenOk (bind c k) (bind c' k').
Proof.
  intros Hc Hk s b s' H. unfold bind in *.
  destruct (c s) as [[a| |] s1] eqn:E; try discriminate.
  rewrite (Hc _ _ _ E). now apply Hk.
Qed.

Lemma sameWhenOk_forEach {S A : Type} (body body' : A -> M S unit) l :
  Forall (fun x => sameWhenOk (body x) (body' x)) l ->
  sameWhenOk (forEach body l) (forEach body' l).
Proof.
  induction 1 as [|x l Hx _ IH]; simpl; [apply sameWhenOk_refl|].
  apply sameWhenOk_bind; [exact Hx|intros _; exact IH].
Qed.

Lemma sameWhenOk_Session_error msg loc notes :
  sameWhenOk (Session_error msg loc notes)
    (@Session_error functionCallbacks msg loc notes).
Proof.
  intros s a s'. unfold Session_error, callCallback.
  destruct (stageSet (stage (countError msg loc notes s))); [|discriminate].
  destruct call_error; [auto|discriminate..].
Qed.

Lemma sameWhenOk_Session_info msg loc notes :
  sameWhenOk (Session_info msg loc notes)
    (@Session_info functionCallbacks msg loc notes).
Proof.
  intros s a s'. unfold Session_info, callCallback.
  destruct (stageSet (stage (pushProblem _ s))); [|discriminate].
  destruct call_info; [auto|discriminate..].
Qed.

Lemma sameWhenOk_undefinedRules_check ast e :
  sameWhenOk (undefinedRules_check ast e)
    (@undefinedRules_check functionCallbacks ast e).
Proof.
  induction e using Expr_forall_ind; simpl; auto;
    try apply sameWhenOk_refl; try (now apply sameWhenOk_forEach).
  destruct (findRule ast n);
    [apply sameWhenOk_refl|apply sameWhenOk_Session_error].
Qed.

Lemma sameWhenOk_reportUndefinedRules ast :
  sameWhenOk (reportUndefinedRules ast)
    (@reportUndefinedRules functionCallbacks ast).
Proof.
  apply sameWhenOk_forEach, Forall_forall. intros r _.
  apply sameWhenOk_undefinedRules_check.
Qed.

Lemma sameWhenOk_duplicateRules_check rs :
  forall seen,
    sameWhenOk (duplicateRules_check rs seen)
      (@duplicateRules_check functionCallbacks rs seen).
Proof.
  induction rs as [|r rs IH]; intros seen; simpl; [apply sameWhenOk_refl|].
  destruct (seen !! rule_name r); [|apply IH].
  apply sameWhenOk_bind; [apply sameWhenOk_Session_error|intros _; apply IH].
Qed.

(** A pass that reports errors, as the driver runs it after its note
    [Process pass ...], when it ends normally. *)
Lemma reporting_pass_counts (c : Callbacks -> Grammar -> M Session unit)
    (f : Grammar -> list Problem) msg cs st cs1 :
  (forall g, reports (c functionCallbacks g) (f g)) ->
  (forall g, sameWhenOk (c callbacks g) (c functionCallbacks g)) ->
  stageSet (stage (cs_session cs)) = Some st ->
  bind (inSession (Session_info msg None None))
    (fun _ => onGrammar (c callbacks)) cs
  = (Ok tt, cs1) ->
  cs_ast cs1 = cs_ast cs
  /\ stage (cs_session cs1) = stage (cs_session cs)
  /\ errors (cs_session cs1)
     = (errors (cs_session cs) + length (f (grammar (cs_ast cs))))%nat.
Proof.
  intros Hc Hsame Hst Hrun. unfold bind, inSession, zoom at 1 in Hrun.
  destruct (Session_info msg None None (cs_session cs))
    as [[[]| |] s1] eqn:Einfo; try discriminate.
  apply sameWhenOk_Session_info in Einfo.
  destruct (Session_info_state msg None None (cs_session cs))
    as (_ & Herr & _ & Hstage).
  rewrite Einfo in Herr, Hstage. simpl in Herr, Hstage.
  unfold onGrammar, bind, get, inSession, zoom in Hrun.
  cbn [cs_ast cs_session] in Hrun.
  destruct (c callbacks (grammar (cs_ast cs)) s1) as [[[]| |] s2] eqn:Epass;
    try discriminate.
  apply Hsame in Epass. rewrite <- Hstage in Hst.
  destruct (Hc (grammar (cs_ast cs)) s1 st Hst) as [[] Hreports].
  rewrite Hreports in Epass. injection Epass as <-.
  injection Hrun as <-. cbn [cs_ast cs_session withErrors errors stage].
  rewrite Herr. auto.
Qed.

End AnyCallbacks.

Lemma nd_onGrammar (c : Grammar -> M Session unit) :
  (forall g, nondecreasing errors (c g)) ->
  nondecreasing (fun cs => errors (cs_session cs)) (onGrammar c).
Proof.
  intros H. unfold onGrammar. apply nd_get. intros cs.
  apply (nd_zoom errors); [reflexivity|apply H].
Qed.

Lemma nd_inSession {A : Type} (c : M Session A) :
  nondecreasing errors c ->
  nondecreasing (fun cs => errors (cs_session cs)) (inSession c).
Proof. intros H. apply (nd_zoom errors); [reflexivity|exact H]. Qed.

(** Once an error is counted, the rest of a stage cannot end well: whatever
    follows keeps the count, and [checkErrors] at the end throws. *)
Lemma stage_with_error_fails (rest : M CompilerState unit) cs :
  nondecreasing (fun cs => errors (cs_session cs)) rest ->
  (0 < errors (cs_session cs))%nat ->
  forall cs', bind rest (fun _ => inSession checkErrors) cs <> (Ok tt, cs').
Proof.
  intros Hrest Hpos cs'. unfold bind. specialize (Hrest cs).
  destruct (rest cs) as [[[]| |] cs1]; try discriminate.
  unfold inSession, zoom, checkErrors.
  destruct (Nat.eqb_spec (errors (cs_session cs1)) 0) as [Hz|_];
    [simpl in Hrest; lia|discriminate].
Qed.

Lemma bind_assoc {S A B C : Type} (c : M S A) (k : A -> M S B)
    (h : B -> M S C) s :
  bind (bind c k) h s = bind c (fun a => bind (k a) h) s.
Proof. unfold bind. now destruct (c s) as [[a| |] s1]. Qed.

(** A pass that reports errors, as the driver runs it after its note
    [Process pass ...]. *)
Lemma reporting_pass_runs (c : Grammar -> M Session unit)
    (f : Grammar -> list Problem) msg cs st :
  (forall g, reports (c g) (f g)) ->
  stageSet (stage (cs_session cs)) = Some st ->
  exists cs1,
    bind (inSession (Session_info msg None None)) (fun _ => onGrammar c) cs
    = (Ok tt, cs1)
    /\ cs_ast cs1 = cs_ast cs
    /\ stage (cs_session cs1) = stage (cs_session cs)
    /\ errors (cs_session cs1)
       = (errors (cs_session cs) + length (f (grammar (cs_ast cs))))%nat.
Proof.
  intros Hc Hst. unfold bind, inSession, zoom at 1.
  pose proof (Session_info_ok msg None None _ _ Hst) as Hok.
  destruct (Session_info_state msg None None (cs_session cs))
    as (_ & Herr & _ & Hstage).
  destruct (Session_info msg None None (cs_session cs)) as [res s1].
  simpl in Hok, Herr, Hstage. subst res.
  unfold onGrammar, bind, get, inSession, zoom. cbn [cs_ast cs_session].
  rewrite <- Hstage in Hst.
  destruct (Hc (grammar (cs_ast cs)) s1 st Hst) as [[] ->].
  eexists. split; [reflexivity|]. cbn [cs_ast cs_session withErrors errors stage].
  rewrite Herr. auto.
Qed.


(** [compile] with the default stages never returns normally for a grammar
    that refers to a rule it does not have, or that has two rules of one name
    other than [__proto__], whatever the options, the fuel and the code
    emitter.  If the stage [check] gets through its first two passes, they
    have counted an error; none of the later passes of the stage lowers the
    count, and [checkErrors] at the end of the stage throws; with options
    whose callbacks do not all return the stage ends earlier, in the
    [TypeError] of a call of [undefined] or in what the callback throws.  So
    no pass of a later stage runs on such a grammar and no output is
    produced. *)
Theorem compile_rejects_undefined_and_duplicate_rules (g : Grammar)
    (fuel : nat) (toLowerCase : string -> string) (generateJS : Pass)
    (rawOptions : RawOptions) :
  missingRefs g <> []
  \/ ~ NoDup (List.filter ownName (map rule_name (rules g))) ->
  ~ endsNormally
      (compile (parsedAst g) (defaultStages fuel toLowerCase generateJS)
         rawOptions).
Proof.
  intros Hbad.
  assert (Hproblems :
            (0 < length (missingRefs g)
                 + length (repeatedRules g 0 (rules g)))%nat).
  { destruct Hbad as [Hm|Hd].
    - destruct (missingRefs g); [congruence|simpl; lia].
    - destruct (repeatedRules g 0 (rules g)) eqn:E; [|simpl; lia].
      exfalso. apply Hd.
      now apply repeatedRules_nil_NoDup. }
  assert (Hstage : forall callbacks options cs0 cs1,
             grammar (cs_ast cs0) = g ->
             runStage callbacks options ("check", checkPasses fuel) cs0
             <> (Ok tt, cs1)).
  { intros callbacks options cs0 cs1 Hg. unfold runStage. cbn [fst snd].
    unfold bind at 1. unfold inSession at 1, zoom at 1. cbn [setStage].
    set (csA := mkCompilerState (cs_ast cs0) _).
    assert (HstA : stageSet (stage (cs_session csA)) = Some "check")
      by reflexivity.
    unfold bind at 1. unfold inSession at 1, zoom at 1.
    destruct (@Session_info callbacks ("Process stage " ++ "check") None None
                (cs_session csA)) as [[[]| |] sB] eqn:Einfo;
      try discriminate.
    apply sameWhenOk_Session_info in Einfo.
    destruct (Session_info_state ("Process stage " ++ "check") None None
                (cs_session csA)) as (_ & _ & _ & HstageB).
    rewrite Einfo in HstageB. simpl in HstageB.
    set (csB := mkCompilerState (cs_ast csA) sB).
    assert (HstB : stageSet (stage (cs_session csB)) = Some "check").
    { unfold csB. cbn [cs_session]. rewrite HstageB. reflexivity. }
    cbn [checkPasses forEach pass_run pass_name].
    rewrite bind_assoc. unfold bind at 1.
    destruct (bind (inSession (@Session_info callbacks _ None None))
                (fun _ => onGrammar (@reportUndefinedRules callbacks)) csB)
      as [[[]| |] cs2] eqn:Hrun2; try discriminate.
    destruct (reporting_pass_counts (@reportUndefinedRules)
                (fun g0 => map undefinedProblem (missingRefs g0))
                _ csB "check" cs2 reportUndefinedRules_reports
                (@sameWhenOk_reportUndefinedRules callbacks) HstB Hrun2)
      as (Hast2 & Hstage2 & Herr2).
    assert (Hst2 : stageSet (stage (cs_session cs2)) = Some "check")
      by now rewrite Hstage2.
    rewrite bind_assoc. unfold bind at 1.
    destruct (bind (inSession (@Session_info callbacks _ None None))
                (fun _ => onGrammar (@reportDuplicateRules callbacks)) cs2)
      as [[[]| |] cs3] eqn:Hrun3; try discriminate.
    destruct (reporting_pass_counts (@reportDuplicateRules)
                (fun g0 => map (duplicateRuleProblem g0)
                             (repeatedRules g0 0 (rules g0)))
                _ cs2 "check" cs3 reportDuplicateRules_reports
                (fun g0 => @sameWhenOk_duplicateRules_check callbacks
                             (rules g0) ∅) Hst2 Hrun3)
      as (Hast3 & Hstage3 & Herr3).
    apply stage_with_error_fails.
    - repeat (apply nd_bind;
              [apply nd_bind;
               [apply nd_inSession, nd_Session_info|intros _]|intros _]);
        try apply nd_ret.
      + apply nd_onGrammar. intros g0 s0.
        unfold reportDuplicateLabels.
        apply nd_forEach, Forall_forall. intros r _.
        apply nd_bind; [apply nd_duplicateLabels_check|intros; apply nd_ret].
      + apply nd_onGrammar. intros g0. apply nd_reportInfiniteRecursion.
      + apply nd_onGrammar. intros g0.
        apply nd_forEach, Forall_forall. intros r _.
        apply nd_infiniteRepetition_check.
      + apply nd_onGrammar. intros g0.
        apply nd_forEach, Forall_forall. intros r _.
        apply nd_incorrectPlucking_check.
    - rewrite Herr3, Herr2, Hast2, !length_map.
      unfold csB, csA. cbn [cs_ast]. rewrite Hg. lia. }
  intros [out Hout]. unfold compile, bind, liftRes in Hout.
  destruct (parseOptions (firstRuleName (grammar (parsedAst g))) rawOptions)
    as [options| |]; try discriminate.
  destruct (checkStartRules (grammar (parsedAst g)) options)
    as [options'| |]; try discriminate.
  destruct (checkGrammarSource options') as [[]| |]; try discriminate.
  cbn [defaultStages forEach] in Hout. unfold bind at 1 in Hout.
  destruct (runStage (callbacksOf options') options'
              ("check", checkPasses fuel) _)
    as [[[]| |] cs1] eqn:E; try discriminate.
  exact (Hstage _ options' (mkCompilerState (parsedAst g) newSession)
           cs1 eq_refl E).
Qed.

(** [A = "x"; A = "y"], with options that hold the three callbacks. *)
Lemma compile_rejects_undefined_and_duplicate_rules_witness :
  ~ endsNormally
      (compile (parsedAst duplicateRuleGrammar)
         (defaultStages 10 (fun x => x) silentEmitter) callbackOptions).
Proof.
  apply (compile_rejects_undefined_and_duplicate_rules duplicateRuleGrammar).
  right. intros H. apply (bool_decide_pack _) in H. vm_compute in H.
  exact H.
Defined.

(** ** [removeProxyRules] *)

Lemma withProblems_nil st s : withProblems st [] s = s.
Proof.
  destruct s as [ps stg fe n nt]. unfold withProblems. simpl.
  now rewrite !app_nil_r.
Qed.

Lemma withProblems_app st ps qs s :
  withProblems st qs (withProblems st ps s) = withProblems st (ps ++ qs) s.
Proof.
  unfold withProblems. simpl. now rewrite <- !app_assoc, map_app.
Qed.

Lemma Session_info_informs msg loc notes : informs (Session_info msg loc notes).
Proof.
  intros s st Hst. exists tt, [mkProblem SevInfo msg loc notes].
  unfold Session_info. simpl. rewrite Hst. split; [reflexivity|].
  repeat constructor.
Qed.

Lemma notes_unchanged {A : Type} (a : A) : notes (unchanged a) a.
Proof.
  intros s st _. exists []. rewrite withProblems_nil. auto.
Qed.

Lemma notes_inChild {A B : Type} (node : A -> B) (v : InPlace A) a :
  notes v a -> notes (inChild node v) (node a).
Proof.
  intros Hv s st Hst. unfold inChild.
  destruct (Hv s st Hst) as (ps & -> & Hps). eauto.
Qed.

Lemma notes_inChildren {A : Type} (visit : A -> InPlace A) (g : A -> A) l :
  Forall (fun x => notes (visit x) (g x)) l ->
  notes (inChildren visit l) (map g l).
Proof.
  induction 1 as [|x l Hx _ IH]; intros s st Hst; simpl.
  - exists []. rewrite withProblems_nil. auto.
  - destruct (Hx s st Hst) as (ps & -> & Hps).
    destruct (IH (withProblems st ps s) st Hst) as (qs & -> & Hqs).
    exists (ps ++ qs). rewrite withProblems_app.
    split; [reflexivity|]. apply Forall_app. auto.
Qed.

Lemma replace_notes ast from to e :
  findRule ast to <> None ->
  notes (replace ast from to e) (renameRefs from to e).
Proof.
  intros Hto.
  induction e using Expr_forall_ind; cbn [replace renameRefs];
    try (apply notes_inChild; assumption);
    try apply notes_unchanged.
  - apply (notes_inChild (Choice i)). now apply notes_inChildren.
  - apply (notes_inChild (Sequence i)). now apply notes_inChildren.
  - destruct (String.eqb n from); simpl; [|apply notes_unchanged].
    destruct (findRule ast to) as [rule|]; [|congruence].
    intros s st Hst.
    destruct (Session_info_informs
                ("Proxy rule " ++ quoted from ++ " replaced by the rule "
                 ++ quoted to)
                (Some (location i))
                (Some [mkNote "This rule will be used" (nameLocation rule)])
                s st Hst) as ([] & ps & -> & Hps).
    eauto.
Qed.

Lemma replaceRuleRefs_notes ast from to :
  findRule ast to <> None ->
  notes (replaceRuleRefs ast from to) (renameGrammar from to ast).
Proof.
  intros Hto. unfold replaceRuleRefs, renameGrammar.
  apply (notes_inChild (setRules ast)).
  apply (notes_inChildren _
           (fun r => setExpression r (renameRefs from to (rule_expression r)))).
  apply Forall_forall. intros r _.
  apply (notes_inChild (setExpression r)). now apply replace_notes.
Qed.

Lemma scanRules_rename (f : Rule -> Rule) rs name :
  (forall r, rule_name (f r) = rule_name r) ->
  forall k,
    scanRules (map f rs) name k
    = option_map (fun x => (fst x, f (snd x))) (scanRules rs name k).
Proof.
  intros Hf. induction rs as [|r rs IH]; intros k; simpl; [reflexivity|].
  rewrite Hf. destruct (String.eqb (rule_name r) name); [reflexivity|apply IH].
Qed.

Lemma findRule_rename from to g name :
  findRule (renameGrammar from to g) name
  = option_map
      (fun r => setExpression r (renameRefs from to (rule_expression r)))
      (findRule g name).
Proof.
  unfold findRule, findRuleAt, renameGrammar. cbn [rules setRules].
  rewrite scanRules_rename by reflexivity.
  now destruct (scanRules (rules g) name 0) as [[i r]|].
Qed.

Lemma refsResolve_rename from to g e :
  findRule g to <> None ->
  refsResolve g e = true ->
  refsResolve (renameGrammar from to g) (renameRefs from to e) = true.
Proof.
  intros Hto.
  induction e using Expr_forall_ind; cbn [refsResolve renameRefs]; auto.
  - rewrite !forallb_forall. intros Hall y Hy.
    apply in_map_iff in Hy as (x & <- & Hx).
    rewrite Forall_forall in H. auto.
  - rewrite !forallb_forall. intros Hall y Hy.
    apply in_map_iff in Hy as (x & <- & Hx).
    rewrite Forall_forall in H. auto.
  - destruct (String.eqb n from); cbn [refsResolve];
      rewrite findRule_rename.
    + destruct (findRule g to); [reflexivity|congruence].
    + destruct (findRule g n); [reflexivity|discriminate].
Qed.

Lemma allRefsResolve_rename from to g :
  findRule g to <> None ->
  allRefsResolve g = true ->
  allRefsResolve (renameGrammar from to g) = true.
Proof.
  intros Hto. unfold allRefsResolve, renameGrammar. cbn [rules setRules].
  rewrite !forallb_forall. intros Hall y Hy.
  apply in_map_iff in Hy as (x & <- & Hx). cbn [rule_expression setExpression].
  apply (refsResolve_rename from to g); auto.
Qed.

Lemma proxyLoop_notes allowed n :
  forall i g indices,
    allRefsResolve g = true ->
    notes (proxyLoop allowed n i g indices)
      (proxyLoop_pure allowed n i g indices).
Proof.
  induction n as [|n IH]; intros i g indices Hall;
    cbn [proxyLoop proxyLoop_pure]; [apply notes_unchanged|].
  destruct (rules g !! i) as [rule|] eqn:Hrule; [|apply notes_unchanged].
  unfold proxyTarget.
  destruct (rule_expression rule) eqn:Hbody; try (now apply IH).
  assert (Hto : findRule g name <> None).
  { unfold allRefsResolve in Hall. rewrite forallb_forall in Hall.
    assert (Hin : In rule (rules g)).
    { apply list_elem_of_In. eapply list_elem_of_lookup_2. exact Hrule. }
    specialize (Hall rule Hin). rewrite Hbody in Hall. simpl in Hall.
    destruct (findRule g name); [discriminate|discriminate]. }
  intros s st Hst.
  destruct (replaceRuleRefs_notes g (rule_name rule) name Hto s st Hst)
    as (ps & -> & Hps).
  destruct (IH (S i) (renameGrammar (rule_name rule) name g)
              (if notAllowed allowed (rule_name rule)
               then indices ++ [i] else indices)
              (allRefsResolve_rename _ _ _ Hto Hall)
              (withProblems st ps s) st Hst) as (qs & -> & Hqs).
  exists (ps ++ qs). rewrite withProblems_app.
  split; [reflexivity|]. apply Forall_app. auto.
Qed.

(** [removeProxyRules] returns when every reference of the grammar finds its
    rule: on a session whose stage is set it ends normally, and all it does to
    the session is to add informational problems; the error count and the
    retained exception stay as they were. *)
Theorem removeProxyRules_returns_with_notes (allowed : list string)
    (g : Grammar) (s : Session) (st : Stage) :
  allRefsResolve g = true ->
  stageSet (stage s) = Some st ->
  exists g' ps,
    removeProxyRules_run allowed g s = (Ok g', withProblems st ps s)
    /\ Forall (fun p => severity p = SevInfo) ps.
Proof.
  intros Hall Hst. unfold removeProxyRules_run, removeProxyRules_inPlace.
  destruct (proxyLoop_notes allowed (length (rules g)) 0 g [] Hall s st Hst)
    as (ps & -> & Hps).
  eexists. exists ps. split; [reflexivity|exact Hps].
Qed.

Lemma removeProxyRules_returns_with_notes_witness :
  exists g' ps,
    removeProxyRules_run ["A"] proxyGrammar transformSession
    = (Ok g', withProblems "transform" ps transformSession)
    /\ Forall (fun p => severity p = SevInfo) ps.
Proof.
  exact (removeProxyRules_returns_with_notes ["A"] proxyGrammar
           transformSession "transform" eq_refl eq_refl).
Defined.

Lemma proxyLoop_without_proxies allowed n :
  forall i g s,
    Forall (fun r => proxyTarget r = None) (rules g) ->
    proxyLoop allowed n i g [] s = (((g, []), Ok tt), s).
Proof.
  induction n as [|n IH]; intros i g s Hall; cbn [proxyLoop]; [reflexivity|].
  destruct (rules g !! i) as [rule|] eqn:Hrule; [|reflexivity].
  assert (Hnone : proxyTarget rule = None).
  { rewrite Forall_forall in Hall. apply Hall.
    apply list_elem_of_In. eapply list_elem_of_lookup_2. exact Hrule. }
  unfold proxyTarget in Hnone.
  destruct (rule_expression rule); try discriminate; now apply IH.
Qed.

(** [removeProxyRules] leaves a grammar without proxy rules alone: when no
    rule has a single [rule_ref] as its body, the pass returns the grammar
    and the session as they were. *)
Theorem removeProxyRules_without_proxies (allowed : list string)
    (g : Grammar) (s : Session) :
  Forall (fun r => proxyTarget r = None) (rules g) ->
  removeProxyRules_run allowed g s = (Ok g, s).
Proof.
  intros Hall. unfold removeProxyRules_run, removeProxyRules_inPlace.
  rewrite (proxyLoop_without_proxies allowed _ 0 g s Hall).
  unfold spliceAll. simpl. now destruct g.
Qed.

Lemma removeProxyRules_without_proxies_witness :
  removeProxyRules_run ["start"] literalGrammar newSession
  = (Ok literalGrammar, newSession).
Proof.
  apply (removeProxyRules_without_proxies ["start"] literalGrammar newSession).
  repeat constructor.
Defined.

(** ** The constant pools of the generator *)

Lemma poolsExtend_refl st : poolsExtend st st.
Proof. repeat split; reflexivity. Qed.

Lemma poolsExtend_trans st1 st2 st3 :
  poolsExtend st1 st2 -> poolsExtend st2 st3 -> poolsExtend st1 st3.
Proof.
  intros (A1 & B1 & C1 & D1) (A2 & B2 & C2 & D2).
  repeat split; etransitivity; eassumption.
Qed.

Lemma prefix_lookup {A : Type} (l k : list A) i x :
  l `prefix_of` k -> l !! i = Some x -> k !! i = Some x.
Proof. intros [t ->] H. now apply lookup_app_l_Some. Qed.

Lemma operandsIndexed_mono st st' opcode args :
  poolsExtend st st' ->
  operandsIndexed st opcode args -> operandsIndexed st' opcode args.
Proof.
  intros (Hl & Hc & He & _). unfold operandsIndexed, poolSize.
  apply prefix_length in Hl, Hc, He.
  repeat case_bool_decide; auto; intros (i & -> & Hi); exists i;
    (split; [reflexivity|lia]).
Qed.

Lemma Indexed_mono st st' code :
  poolsExtend st st' -> Indexed st code -> Indexed st' code.
Proof.
  intros Hext.
  induction 1 as [|opcode args rest Har Hops _ IH
                  |r rest _ IH
                  |total offsets rest _ IH
                  |f desc delta params rest Hf Hlen _ IH
                  |opcode operands thenCode elseCode rest Har Hops _ IHt
                     _ IHe _ IH
                  |body rest _ IHb _ IH].
  - apply ix_nil.
  - apply ix_plain; eauto using operandsIndexed_mono.
  - now apply ix_rule.
  - now apply ix_pluck.
  - apply (ix_call st' f desc); auto.
    destruct Hext as (_ & _ & _ & Hfs). eapply prefix_lookup; eassumption.
  - apply ix_cond; eauto using operandsIndexed_mono.
  - now apply ix_loop.
Qed.

Lemma Indexed_app st a b :
  Indexed st a -> Indexed st b -> Indexed st (a ++ b).
Proof.
  induction 1 as [|opcode args rest Har Hops _ IH
                  |r rest _ IH
                  |total offsets rest _ IH
                  |f desc delta params rest Hf Hlen _ IH
                  |opcode operands thenCode elseCode rest Har Hops Ht _ He _
                     _ IH
                  |body rest Hbody _ _ IH];
    intros Hb; simpl.
  - exact Hb.
  - rewrite <- app_assoc. apply ix_plain; auto.
  - apply ix_rule; auto.
  - rewrite <- app_assoc. apply ix_pluck; auto.
  - rewrite <- app_assoc. apply (ix_call st f desc); auto.
  - replace ((operands ++ len thenCode :: len elseCode
                :: thenCode ++ elseCode ++ rest) ++ b)
      with (operands ++ [len thenCode; len elseCode]
              ++ thenCode ++ elseCode ++ rest ++ b)
      by (simpl; rewrite <- !app_assoc; simpl; rewrite <- !app_assoc;
          reflexivity).
    apply ix_cond; auto.
  - rewrite <- app_assoc. apply ix_loop; auto.
Qed.

(** [addConst]: the index it returns is that of the constant in the pool
    afterwards, the pool keeps its entries at their indices, and a pool
    without repetition stays so. *)
Lemma indexOf_Some {A : Type} `{EqDecision A} (x : A) pool i :
  indexOf x pool = Some i -> pool !! i = Some x.
Proof.
  revert i. induction pool as [|y pool IH]; intros i; simpl; [discriminate|].
  destruct (decide (y = x)) as [->|Hne].
  - intros H. injection H as <-. reflexivity.
  - destruct (indexOf x pool) as [j|]; [|discriminate].
    intros H. injection H as <-. simpl. now apply IH.
Qed.

Lemma indexOf_None {A : Type} `{EqDecision A} (x : A) pool :
  indexOf x pool = None -> ~ In x pool.
Proof.
  induction pool as [|y pool IH]; simpl; [tauto|].
  destruct (decide (y = x)) as [->|Hne]; [discriminate|].
  destruct (indexOf x pool) as [j|]; [discriminate|].
  intros _ [H|H]; [exact (Hne H)|exact (IH eq_refl H)].
Qed.

Lemma addConst_spec {A : Type} `{EqDecision A} (x : A) pool :
  snd (addConst x pool) !! fst (addConst x pool) = Some x
  /\ pool `prefix_of` snd (addConst x pool)
  /\ (NoDup pool -> NoDup (snd (addConst x pool))).
Proof.
  unfold addConst. destruct (indexOf x pool) as [i|] eqn:E; simpl.
  - split; [now apply indexOf_Some|]. split; [reflexivity|auto].
  - split; [|split].
    + rewrite lookup_app_r by lia. now rewrite Nat.sub_diag.
    + now exists [x].
    + intros Hnd. apply list.NoDup_app. split; [exact Hnd|].
      split; [|apply NoDup_singleton].
      intros y Hy Hx. apply list_elem_of_singleton in Hx as ->.
      apply (indexOf_None _ _ E). now apply list_elem_of_In.
Qed.

Lemma addLiteralConst_extends v :
  extends (addLiteralConst v) (fun i st' => literals st' !! i = Some v).
Proof.
  intros st. unfold addLiteralConst.
  destruct (addConst_spec v (literals st)) as (Hi & Hpre & _).
  destruct (addConst v (literals st)) as [i pool]. simpl in *.
  exists i. eexists. split; [reflexivity|].
  split; [|split; [reflexivity|exact Hi]].
  repeat split; simpl; solve [assumption|reflexivity].
Qed.

Lemma addClassConst_extends ps inv ic :
  extends (addClassConst ps inv ic)
    (fun i st' => classes st' !! i = Some (mkCharClassDesc ps inv ic)).
Proof.
  intros st. unfold addClassConst.
  destruct (addConst_spec (mkCharClassDesc ps inv ic) (classes st))
    as (Hi & Hpre & _).
  destruct (addConst _ (classes st)) as [i pool]. simpl in *.
  exists i. eexists. split; [reflexivity|].
  split; [|split; [reflexivity|exact Hi]].
  repeat split; simpl; solve [assumption|reflexivity].
Qed.

Lemma addExpectedConst_extends x :
  extends (addExpectedConst x) (fun i st' => expectations st' !! i = Some x).
Proof.
  intros st. unfold addExpectedConst.
  destruct (addConst_spec x (expectations st)) as (Hi & Hpre & _).
  destruct (addConst x (expectations st)) as [i pool]. simpl in *.
  exists i. eexists. split; [reflexivity|].
  split; [|split; [reflexivity|exact Hi]].
  repeat split; simpl; solve [assumption|reflexivity].
Qed.

Lemma addFunctionConst_extends p ps node :
  extends (addFunctionConst p ps node)
    (fun i st' =>
       functions st' !! i
       = Some (mkFunctionDesc p ps (cn_code node) (cn_codeLocation node))).
Proof.
  intros st. unfold addFunctionConst.
  destruct (addConst_spec
              (mkFunctionDesc p ps (cn_code node) (cn_codeLocation node))
              (functions st)) as (Hi & Hpre & _).
  destruct (addConst _ (functions st)) as [i pool]. simpl in *.
  exists i. eexists. split; [reflexivity|].
  split; [|split; [reflexivity|exact Hi]].
  repeat split; simpl; solve [assumption|reflexivity].
Qed.

Lemma whenM_extends {A : Type} (b : bool) (c : M GenState A) P st :
  extends c P ->
  exists a st',
    whenM b c st = (Ok (if b then Some a else None), st')
    /\ poolsExtend st st'
    /\ (b = true -> P a st').
Proof.
  intros Hc. destruct (Hc st) as (a & st' & E & Hext & _ & HP). unfold whenM.
  destruct b.
  - exists a, st'. unfold bind. rewrite E. auto.
  - exists a, st. split; [reflexivity|].
    split; [apply poolsExtend_refl|discriminate].
Qed.

Lemma ix_ins st opcode :
  plainArity opcode = Some 0%nat -> poolSize st opcode = None ->
  Indexed st (ins opcode).
Proof.
  intros H Hp. apply (ix_plain st opcode [] []); auto using ix_nil.
  unfold operandsIndexed. now rewrite Hp.
Qed.

Lemma ix_unary st opcode z :
  plainArity opcode = Some 1%nat -> poolSize st opcode = None ->
  Indexed st [Num opcode; Num z].
Proof.
  intros H Hp. apply (ix_plain st opcode [Num z] []); auto using ix_nil.
  unfold operandsIndexed. now rewrite Hp.
Qed.

Lemma ix_pool st opcode n (k : nat) :
  plainArity opcode = Some 1%nat -> poolSize st opcode = Some n ->
  (k < n)%nat ->
  Indexed st [Num opcode; Num (Z.of_nat k)].
Proof.
  intros H Hp Hk.
  apply (ix_plain st opcode [Num (Z.of_nat k)] []); auto using ix_nil.
  unfold operandsIndexed. rewrite Hp. eauto.
Qed.

Lemma buildCondition_ix st m opcode operands thenCode elseCode :
  (m = SOMETIMES ->
   condArity opcode = Some (length operands)
   /\ operandsIndexed st opcode operands) ->
  (m <> NEVER -> Indexed st thenCode) ->
  (m <> ALWAYS -> Indexed st elseCode) ->
  Indexed st (buildCondition m (Num opcode :: operands) thenCode elseCode).
Proof.
  intros Hc Ht He. unfold buildCondition. destruct m; simpl.
  - apply Ht. discriminate.
  - destruct (Hc eq_refl) as [Har Hops].
    replace (operands ++ len thenCode :: len elseCode :: thenCode ++ elseCode)
      with (operands ++ [len thenCode; len elseCode]
              ++ thenCode ++ elseCode ++ [])
      by (rewrite app_nil_r; reflexivity).
    apply ix_cond;
      [exact Har | exact Hops | apply Ht; discriminate
      | apply He; discriminate | apply ix_nil].
  - apply He. discriminate.
Qed.

Lemma buildLoop_ix st body :
  Indexed st body -> Indexed st (buildLoop (ins op.WHILE_NOT_ERROR) body).
Proof.
  intros H. unfold buildLoop, ins. simpl.
  replace body with (body ++ []) at 2 by apply app_nil_r.
  apply ix_loop; auto using ix_nil.
Qed.

Lemma buildAppendLoop_ix st code :
  Indexed st code -> Indexed st (buildAppendLoop code).
Proof.
  intros H. unfold buildAppendLoop. apply buildLoop_ix.
  apply Indexed_app; [apply ix_ins; reflexivity | exact H].
Qed.

Lemma buildCall_ix st f delta env sp p body loc :
  functions st !! f = Some (mkFunctionDesc p (env_keys env) body loc) ->
  Indexed st (buildCall (Some f) delta env sp).
Proof.
  intros Hf. unfold buildCall. simpl.
  replace (map (fun kv => Num (sp - snd kv)) env)
    with (map (fun kv => Num (sp - snd kv)) env ++ []) at 2
    by apply app_nil_r.
  eapply ix_call; [exact Hf| |apply ix_nil].
  unfold env_keys. simpl. now rewrite !length_map.
Qed.

Lemma ix_pluck_offsets st total spv (pl : list Z) :
  Indexed st
    ([Num op.PLUCK; Num total; Num (Z.of_nat (length pl))]
     ++ map (fun eSP => Num (spv - eSP)) pl).
Proof.
  set (offsets := map (fun eSP => Num (spv - eSP)) pl).
  replace (length pl) with (length offsets)
    by (unfold offsets; apply length_map).
  replace offsets with (offsets ++ []) at 2 by apply app_nil_r.
  apply (ix_pluck _ _ offsets []). apply ix_nil.
Qed.

Lemma pool_literal st st' k v :
  literals st !! k = Some v -> poolsExtend st st' ->
  (k < length (literals st'))%nat.
Proof.
  intros Hk (H & _). eapply lookup_lt_Some, prefix_lookup; eassumption.
Qed.

Lemma pool_class st st' k v :
  classes st !! k = Some v -> poolsExtend st st' ->
  (k < length (classes st'))%nat.
Proof.
  intros Hk (_ & H & _). eapply lookup_lt_Some, prefix_lookup; eassumption.
Qed.

Lemma pool_expected st st' k v :
  expectations st !! k = Some v -> poolsExtend st st' ->
  (k < length (expectations st'))%nat.
Proof.
  intros Hk (_ & _ & H & _). eapply lookup_lt_Some, prefix_lookup; eassumption.
Qed.

Lemma pool_function st st' k v :
  functions st !! k = Some v -> poolsExtend st st' ->
  functions st' !! k = Some v.
Proof. intros Hk (_ & _ & _ & H). eapply prefix_lookup; eassumption. Qed.

Lemma operandsIndexed_pool st opcode n (k : nat) :
  poolSize st opcode = Some n -> (k < n)%nat ->
  operandsIndexed st opcode [Num (Z.of_nat k)].
Proof. intros Hp Hk. unfold operandsIndexed. rewrite Hp. eauto. Qed.

Ltac pools_chain :=
  solve [eauto 8 using poolsExtend_refl, poolsExtend_trans].

Ltac ix_transport :=
  repeat match goal with
         | H : Indexed ?s ?c |- Indexed ?t _ =>
             lazymatch s with
             | t => fail
             | _ => apply (Indexed_mono s t) in H; [|pools_chain]
             end
         end.

Ltac ix_index :=
  first
    [ eapply pool_literal; [eauto|pools_chain]
    | eapply pool_class; [eauto|pools_chain]
    | eapply pool_expected; [eauto|pools_chain] ].

Ltac ix_leaf :=
  first
    [ assumption
    | apply ix_nil
    | apply ix_ins; reflexivity
    | apply ix_unary; reflexivity
    | eapply ix_pool; [reflexivity|reflexivity|ix_index]
    | eapply buildCall_ix; eapply pool_function; [eauto|pools_chain]
    | apply buildAppendLoop_ix; assumption ].

Ltac ix :=
  repeat first
    [ ix_leaf
    | match goal with
      | |- Indexed _ (_ ++ _) => apply Indexed_app
      | |- Indexed ?st (Num ?o :: Num ?z :: ?rest) =>
          apply (ix_plain st o [Num z] rest); [reflexivity | exact I | ]
      | |- Indexed ?st (Num ?o :: ?rest) =>
          apply (ix_plain st o [] rest); [reflexivity | exact I | ]
      end ].

(** A condition without operands. *)
Ltac ix_cond0 :=
  apply buildCondition_ix;
  [ intros _; split; [reflexivity | exact I] | intros ?Hm | intros ?Hm ].

Ltac run_when_ix H :=
  match type of H with
  | context [whenM ?b ?c ?st] =>
      let k := fresh "k" in
      let st1 := fresh "st" in
      let E := fresh "E" in
      destruct (whenM_extends b c _ st
                  ltac:(first [ apply addLiteralConst_extends
                              | apply addClassConst_extends
                              | apply addExpectedConst_extends
                              | apply addFunctionConst_extends ]))
        as (k & st1 & E & ?Hext & ?Hidx);
      rewrite E in H; clear E
  end.

Ltac run_add_ix H :=
  match type of H with
  | context [addFunctionConst ?p ?ps ?node ?st] =>
      let k := fresh "k" in
      let st1 := fresh "st" in
      let E := fresh "E" in
      destruct (addFunctionConst_extends p ps node st)
        as (k & st1 & E & ?Hext & _ & ?Hidx);
      rewrite E in H; clear E
  end.

Ltac finish_ix H :=
  apply ret_inv in H; destruct H as [<- <-];
  split; [pools_chain|];
  try match goal with
      | |- context [out_code (mkGenerated ?c ?e ?p)] =>
          change (out_code (mkGenerated c e p)) with c
      end;
  cbn [fst snd]; ix_transport.

Ltac ix_by_match :=
  match goal with
  | |- context [matchOf ?nm ?e] =>
      destruct (matchOf nm e); try congruence; simpl in *; ix
  end.

Lemma buildAlternativesCode_indexed lower ast nm context l :
  Forall (fun e =>
            forall ctx st out st',
              generate lower ast nm e ctx st = (Ok out, st') ->
              poolsExtend st st' /\ Indexed st' (out_code out)) l ->
  forall st code st',
    buildAlternativesCode nm (generate lower ast nm) context l st
    = (Ok code, st') ->
    poolsExtend st st' /\ Indexed st' code.
Proof.
  induction 1 as [|x l Hx _ IH]; intros st code st' Hrun;
    cbn [buildAlternativesCode] in Hrun; [discriminate|].
  unfold bind in Hrun. run_gen Hrun. apply Hx in Egen as [Hext0 Hix0].
  destruct (isAlways (matchOf nm x)); [finish_ix Hrun; ix|].
  destruct l as [|y l]; [finish_ix Hrun; ix|].
  destruct (buildAlternativesCode nm (generate lower ast nm) context (y :: l)
              st0) as [[rest| |] st2] eqn:Erest; try discriminate.
  apply IH in Erest as [Hext1 Hix1]. finish_ix Hrun.
  ix. ix_cond0; ix.
Qed.

Lemma buildElementsCode_indexed lower ast nm total l :
  Forall (fun e =>
            forall ctx st out st',
              generate lower ast nm e ctx st = (Ok out, st') ->
              poolsExtend st st' /\ Indexed st' (out_code out)) l ->
  forall context st r st',
    buildElementsCode nm (generate lower ast nm) total l context st
    = (Ok r, st') ->
    poolsExtend st st' /\ Indexed st' (fst r).
Proof.
  induction 1 as [|x l Hx _ IH]; intros context st r st' Hrun;
    cbn [buildElementsCode] in Hrun.
  - destruct (pluck context) as [[|p pl]|].
    + destruct (action context) as [a|].
      * unfold bind in Hrun. run_add_ix Hrun. finish_ix Hrun. ix.
      * finish_ix Hrun. ix.
    + finish_ix Hrun. apply (ix_pluck_offsets _ _ _ (p :: pl)).
    + destruct (action context) as [a|].
      * unfold bind in Hrun. run_add_ix Hrun. finish_ix Hrun. ix.
      * finish_ix Hrun. ix.
  - unfold bind in Hrun. run_gen Hrun. apply Hx in Egen as [Hext0 Hix0].
    destruct (buildElementsCode nm (generate lower ast nm) total l _ st0)
      as [[rest| |] st2] eqn:Erest; try discriminate.
    apply IH in Erest as [Hext1 Hix1]. finish_ix Hrun.
    ix. ix_cond0; ix.
    all: match goal with
         | |- context [if ?b then _ else _] => destruct b
         end; ix.
Qed.

Lemma generate_indexed lower ast nm e :
  forall ctx st out st',
    generate lower ast nm e ctx st = (Ok out, st') ->
    poolsExtend st st' /\ Indexed st' (out_code out).
Proof.
  induction e using Expr_forall_ind; intros ctx st out st' Hgen;
    cbn [generate] in Hgen; unfold bind in Hgen.
  - (* named *)
    run_when_ix Hgen. run_gen Hgen. apply IHe in Egen as [Hext0 Hix0].
    finish_ix Hgen. ix. ix_cond0; [ix_by_match | ix].
  - (* choice *)
    destruct (buildAlternativesCode nm (generate lower ast nm) ctx l st)
      as [[code| |] st1] eqn:E; try discriminate.
    apply (buildAlternativesCode_indexed _ _ _ _ _ H) in E as [Hext0 Hix0].
    finish_ix Hgen. ix.
  - (* action *)
    run_gen Hgen. apply IHe in Egen as [Hext0 Hix0].
    run_when_ix Hgen. finish_ix Hgen.
    match goal with
    | |- context [if ?b then _ else out_code _] => destruct b
    end; [|ix].
    ix. ix_cond0; [|ix]. ix. ix_by_match.
  - (* sequence *)
    destruct (buildElementsCode nm (generate lower ast nm) (length l) l _ st)
      as [[r| |] st1] eqn:E; try discriminate.
    apply (buildElementsCode_indexed _ _ _ _ _ H) in E as [Hext0 Hix0].
    finish_ix Hgen. ix.
  - (* labeled *)
    destruct p; [destruct (pluck ctx); [|discriminate]|];
      unfold ret at 1 in Hgen; run_gen Hgen;
      apply IHe in Egen as [Hext0 Hix0]; finish_ix Hgen; ix.
  - (* text *)
    run_gen Hgen. apply IHe in Egen as [Hext0 Hix0]. finish_ix Hgen.
    ix. ix_cond0; ix.
  - (* simple_and *)
    run_gen Hgen. apply IHe in Egen as [Hext0 Hix0]. finish_ix Hgen.
    ix. ix_cond0; ix.
  - (* simple_not *)
    run_gen Hgen. apply IHe in Egen as [Hext0 Hix0]. finish_ix Hgen.
    ix. ix_cond0; ix.
  - (* optional *)
    run_gen Hgen. apply IHe in Egen as [Hext0 Hix0]. finish_ix Hgen.
    ix. ix_cond0; ix.
  - (* zero_or_more *)
    run_gen Hgen. apply IHe in Egen as [Hext0 Hix0]. finish_ix Hgen. ix.
  - (* one_or_more *)
    run_gen Hgen. apply IHe in Egen as [Hext0 Hix0]. finish_ix Hgen.
    ix. ix_cond0; ix.
  - (* group *)
    run_gen Hgen. apply IHe in Egen as [Hext0 Hix0]. finish_ix Hgen. ix.
  - (* semantic_and *)
    run_add_ix Hgen. finish_ix Hgen. ix. ix_cond0; ix.
  - (* semantic_not *)
    run_add_ix Hgen. finish_ix Hgen. ix. ix_cond0; ix.
  - (* rule_ref *)
    finish_ix Hgen. apply ix_rule, ix_nil.
  - (* literal *)
    destruct (Nat.ltb 0 (String.length v)); [|finish_ix Hgen; ix].
    run_when_ix Hgen. run_when_ix Hgen. finish_ix Hgen.
    destruct ic; apply buildCondition_ix;
      try (intros Hm; rewrite Hm in *; simpl in *; split; [reflexivity|];
           eapply operandsIndexed_pool; [reflexivity|ix_index]);
      try (intros ?Hm; first [ix_by_match | ix]).
  - (* class *)
    run_when_ix Hgen. run_when_ix Hgen. finish_ix Hgen.
    apply buildCondition_ix;
      try (intros Hm; rewrite Hm in *; simpl in *; split; [reflexivity|];
           eapply operandsIndexed_pool; [reflexivity|ix_index]);
      try (intros ?Hm; first [ix_by_match | ix]).
  - (* any *)
    run_when_ix Hgen. finish_ix Hgen.
    ix_cond0; first [ix_by_match | ix].
Qed.

Lemma generateRule_indexed lower ast nm r st st' :
  bytecodesIndexed st ->
  generateRule lower ast nm r st = (Ok tt, st') ->
  bytecodesIndexed st' /\ poolsExtend st st'.
Proof.
  intros Hst Hrun. unfold generateRule, bind in Hrun.
  destruct (generate lower ast nm (rule_expression r) _ st)
    as [[o| |] st1] eqn:Egen; try discriminate.
  pose proof (generate_frame _ _ _ _ _ _ _ _ Egen) as Hframe.
  apply generate_indexed in Egen as [Hext Hix].
  unfold setBytecode in Hrun. injection Hrun as <-.
  assert (Hsame : poolsExtend st1
            (mkGenState (literals st1) (classes st1) (expectations st1)
               (functions st1)
               (<[node_id (rule_info r) := out_code o]> (bytecodes st1))))
    by (repeat split; reflexivity).
  split; [|eapply poolsExtend_trans; eassumption].
  intros k code Hk. cbn [bytecodes] in Hk.
  apply (Indexed_mono st1); [exact Hsame|].
  destruct (decide (node_id (rule_info r) = k)) as [<-|Hne].
  - rewrite lookup_insert_eq in Hk. injection Hk as <-. exact Hix.
  - rewrite lookup_insert_ne in Hk by exact Hne. rewrite Hframe in Hk.
    apply (Indexed_mono st); [exact Hext|]. exact (Hst k code Hk).
Qed.

Lemma generateRules_indexed lower ast nm rs :
  forall st st',
    bytecodesIndexed st ->
    forEach (generateRule lower ast nm) rs st = (Ok tt, st') ->
    bytecodesIndexed st' /\ poolsExtend st st'.
Proof.
  induction rs as [|r rs IH]; intros st st' Hst Hrun; simpl in Hrun.
  - apply ret_inv in Hrun as [_ <-]. split; [exact Hst|apply poolsExtend_refl].
  - unfold bind in Hrun.
    destruct (generateRule lower ast nm r st) as [[[]| |] st1] eqn:E;
      try discriminate.
    apply generateRule_indexed in E as [Hst1 Hext1]; [|exact Hst].
    apply IH in Hrun as [Hst' Hext']; [|exact Hst1].
    split; [exact Hst'|eapply poolsExtend_trans; eassumption].
Qed.

(** The operands of the generated code that name constants are in range.
    In the code that [generate] returns for an expression, and in the code
    that the pass [generateBytecode] leaves on each rule of a grammar that
    had no code yet, the operand of every [MATCH_STRING], [MATCH_STRING_IC]
    and [ACCEPT_STRING] is an index into the literals of the pass, that of
    every [MATCH_CHAR_CLASS] into its classes, that of every [FAIL] into its
    expectations, and every [CALL] names one of its functions and passes as
    many arguments as that function has parameters; the pools only grow
    while the code is generated. *)
Theorem generated_constants_are_in_the_pools (toLowerCase : string -> string)
    (ast : Grammar) (nm : gmap nat MatchResult) :
  (forall e ctx st out st',
      generate toLowerCase ast nm e ctx st = (Ok out, st') ->
      poolsExtend st st' /\ Indexed st' (out_code out))
  /\ (forall cs cs',
         ast_bytecodes (cs_ast cs) = ∅ ->
         generateBytecode toLowerCase cs = (Ok tt, cs') ->
         exists ls cls es fs,
           pools (cs_ast cs') = Some (ls, cls, es, fs)
           /\ forall k code,
                ast_bytecodes (cs_ast cs') !! k = Some code ->
                Indexed (mkGenState ls cls es fs ∅) code).
Proof.
  split; [intros e ctx st out st'; apply generate_indexed|].
  intros cs cs' Hempty Hrun. unfold generateBytecode in Hrun.
  destruct (generateGrammar toLowerCase (grammar (cs_ast cs))
              (nodeMatch (matches (cs_ast cs)))
              (mkGenState [] [] [] [] (ast_bytecodes (cs_ast cs))))
    as [[[]| |] st'] eqn:E; try discriminate.
  injection Hrun as <-. cbn [cs_ast pools ast_bytecodes].
  apply generateRules_indexed in E as [Hix _].
  - exists (literals st'), (classes st'), (expectations st'), (functions st').
    split; [reflexivity|]. intros k code Hk.
    apply (Indexed_mono st'); [repeat split; reflexivity|].
    exact (Hix k code Hk).
  - intros k code Hk. cbn [bytecodes] in Hk. rewrite Hempty in Hk.
    rewrite lookup_empty in Hk. discriminate.
Qed.

(** ** The rounds of the [rule] handler of the inference *)

Lemma ruleLoop_two_rounds ast bound visit rule left :
  node_id (rule_info rule) ∈ ruleIds ast ->
  (forall st,
      bodyInferred ast bound (rule_expression rule) st
        (visit (rule_expression rule) st)) ->
  forall st,
    ruleMatch st !! node_id (rule_info rule) = None ->
    match ruleLoop (visit (rule_expression rule)) rule (S (S left)) 0
            (mkMatches (<[node_id (rule_info rule) := SOMETIMES]> (ruleMatch st))
               (nodeMatch st)) with
    | (Ok m, st') =>
        ruleMatch st ⊆ ruleMatch st'
        /\ ruleMatch st' !! node_id (rule_info rule) = Some m
    | (OutOfFuel, _) => bound <= undefinedRules ast (ruleMatch st)
    | (Throw _, _) => False
    end.
Proof.
  intros Hin Hvisit st.
  set (k := node_id (rule_info rule)) in *. intros Hk.
  set (st0 := mkMatches (<[k := SOMETIMES]> (ruleMatch st)) (nodeMatch st)).
  assert (Hst0 : ruleMatch st ⊆ ruleMatch st0)
    by (apply insert_subseteq; exact Hk).
  assert (Hu0 : S (undefinedRules ast (ruleMatch st0))
                <= undefinedRules ast (ruleMatch st))
    by (apply undefinedRules_insert; assumption).
  rewrite ruleLoop_step. fold k.
  pose proof (Hvisit st0) as H1.
  destruct (visit (rule_expression rule) st0) as [[m1| |] st1];
    unfold bodyInferred in H1; cbv iota beta; [|contradiction|lia].
  destruct H1 as (Hsub1 & Hknown1 & Hm1).
  cbv zeta. change (Nat.ltb 6 1) with false. cbv iota.
  assert (Hk1 : ruleMatch st1 !! k = Some SOMETIMES).
  { apply (lookup_weaken (ruleMatch st0)); [|exact Hsub1].
    apply lookup_insert_eq. }
  replace (ruleMatch st0 !! k) with (Some SOMETIMES)
    by (symmetry; apply lookup_insert_eq).
  destruct (decide (Some SOMETIMES = Some m1)) as [Heq|Hne].
  - injection Heq as <-. rewrite (insert_id _ _ _ Hk1).
    split; [etransitivity; eassumption|]. auto.
  - set (st1' := mkMatches (<[k := m1]> (ruleMatch st1)) (nodeMatch st1)).
    assert (Hsub1' : ruleMatch st ⊆ ruleMatch st1').
    { simpl. apply insert_subseteq_r; [exact Hk|].
      etransitivity; eassumption. }
    rewrite ruleLoop_step. fold k.
    pose proof (Hvisit st1') as H2.
    destruct (visit (rule_expression rule) st1') as [[m2| |] st2];
      unfold bodyInferred in H2; cbv iota beta; [|contradiction|].
    + destruct H2 as (Hsub2 & Hknown2 & Hm2).
      cbv zeta. change (Nat.ltb 6 2) with false. cbv iota.
      assert (Hknown1' : refsKnown ast (ruleMatch st1')
                           (rule_expression rule)).
      { apply (refsKnown_weaken ast (ruleMatch st1)); [|exact Hknown1].
        intros j Hj. simpl. destruct (decide (k = j)) as [<-|Hkj].
        - rewrite lookup_insert_eq. eauto.
        - now rewrite lookup_insert_ne. }
      assert (Hmono : refines m1 m2).
      { rewrite Hm1, Hm2.
        rewrite (specMatch_known _ _ _ _ Hsub2 Hknown1').
        apply specMatch_refines. intros j. unfold ruleTag. simpl.
        destruct (decide (k = j)) as [<-|Hkj].
        - rewrite Hk1, lookup_insert_eq. now left.
        - rewrite lookup_insert_ne by exact Hkj. apply refines_refl. }
      destruct Hmono as [->|<-]; [congruence|].
      replace (ruleMatch st1' !! k) with (Some m1)
        by (symmetry; apply lookup_insert_eq).
      destruct (decide (Some m1 = Some m1)) as [_|Hc]; [|congruence].
      assert (Hk2 : ruleMatch st2 !! k = Some m1).
      { apply (lookup_weaken (ruleMatch st1')); [|exact Hsub2].
        apply lookup_insert_eq. }
      rewrite (insert_id _ _ _ Hk2).
      split; [etransitivity; eassumption|]. auto.
    + assert (Hle0 : undefinedRules ast (ruleMatch st1')
                     <= undefinedRules ast (ruleMatch st0)).
      { apply undefinedRules_dom. simpl. rewrite dom_insert.
        apply subseteq_dom in Hsub1. set_solver. }
      lia.
Qed.

Lemma ruleLoop_more_rounds body r left :
  forall count st m st' extra,
    ruleLoop body r left count st = (Ok m, st') ->
    ruleLoop body r (left + extra) count st = (Ok m, st').
Proof.
  induction left as [|left IH]; intros count st m st' extra Hrun;
    [discriminate|].
  change (S left + extra)%nat with (S (left + extra)).
  rewrite ruleLoop_step in Hrun |- *.
  destruct (body st) as [[m1| |] st1]; try discriminate.
  cbv zeta in Hrun |- *.
  destruct (Nat.ltb 6 (S count)); [discriminate|].
  destruct (decide (ruleMatch st !! node_id (rule_info r) = Some m1));
    [exact Hrun|]. now apply IH.
Qed.

(** The loop of the [rule] handler ends within two rounds.  For a rule of the
    grammar that has no tag yet, the [do ... while] of the handler, started
    from SOMETIMES, returns although it is allowed two rounds only, with the
    result and the annotations that the handler itself returns: the body of
    the rule is inferred at most twice, and the count that the source
    compares with 6 never gets past 2. *)
Theorem rule_loop_ends_within_two_rounds (ast : Grammar) (rule : Rule)
    (st : Matches) :
  In rule (rules ast) ->
  ruleMatch st !! node_id (rule_info rule) = None ->
  exists m st',
    ruleLoop
      (inference ast (undefinedRules ast (ruleMatch st))
         (rule_expression rule)) rule 2 0
      (snd (setRuleMatch rule SOMETIMES st))
    = (Ok m, st')
    /\ inferenceNode ast (undefinedRules ast (ruleMatch st)) (NRule rule) st
       = (Ok m, st').
Proof.
  intros Hin Hk.
  set (fuel := undefinedRules ast (ruleMatch st)).
  assert (Hid : node_id (rule_info rule) ∈ ruleIds ast).
  { unfold ruleIds. apply elem_of_list_to_set, list_elem_of_In, in_map_iff.
    eauto. }
  assert (Hbody : forall st0,
             bodyInferred ast (S fuel) (rule_expression rule) st0
               (inference ast fuel (rule_expression rule) st0)).
  { intros st0.
    pose proof (inference_inferred ast fuel (rule_expression rule) st0) as H.
    destruct (inference ast fuel (rule_expression rule) st0)
      as [[m| |] st1]; simpl in H |- *; [tauto | exact H | lia]. }
  pose proof (ruleLoop_two_rounds ast (S fuel) (inference ast fuel) rule 0
                Hid Hbody st Hk) as H.
  cbn [setRuleMatch snd].
  destruct (ruleLoop (inference ast fuel (rule_expression rule)) rule 2 0 _)
    as [[m| |] st'] eqn:E; [|contradiction|unfold fuel in H; lia].
  exists m, st'. split; [reflexivity|].
  cbn [inferenceNode]. unfold inferenceRule, bind, getRuleMatch.
  rewrite Hk. cbn [setRuleMatch].
  exact (ruleLoop_more_rounds _ _ 2 0 _ m st' 5 E).
Qed.

Lemma rule_loop_ends_within_two_rounds_witness :
  exists m st',
    ruleLoop
      (inference literalGrammar
         (undefinedRules literalGrammar (ruleMatch noMatches))
         (Literal (mkInfo 2 (span 8 11)) "a" false))
      (mkRule (mkInfo 1 (span 0 11)) "start" (span 0 5)
         (Literal (mkInfo 2 (span 8 11)) "a" false)) 2 0
      (snd (setRuleMatch
              (mkRule (mkInfo 1 (span 0 11)) "start" (span 0 5)
                 (Literal (mkInfo 2 (span 8 11)) "a" false))
              SOMETIMES noMatches))
    = (Ok m, st')
    /\ inferenceNode literalGrammar
         (undefinedRules literalGrammar (ruleMatch noMatches))
         (NRule (mkRule (mkInfo 1 (span 0 11)) "start" (span 0 5)
                   (Literal (mkInfo 2 (span 8 11)) "a" false))) noMatches
       = (Ok m, st').
Proof.
  apply (rule_loop_ends_within_two_rounds literalGrammar
           (mkRule (mkInfo 1 (span 0 11)) "start" (span 0 5)
              (Literal (mkInfo 2 (span 8 11)) "a" false)) noMatches).
  - left. reflexivity.
  - reflexivity.
Defined.

(** ** [reportInfiniteRepetition] *)

Lemma infiniteRepetition_check_reports ast cfuel e :
  Forall (fun rep =>
            exists b, alwaysConsumesOnSuccess ast cfuel (NExpr (snd rep))
                      = Ok b) (outerRepetitions e) ->
  reports (infiniteRepetition_check ast cfuel e)
    (map repetitionProblem
       (List.filter (mayNotConsume ast cfuel) (outerRepetitions e))).
Proof.
  induction e using Expr_forall_ind;
    cbn [infiniteRepetition_check outerRepetitions]; intros Hret;
    try (now apply IHe); try apply reports_ret.
  - rewrite filter_flat_map, map_flat_map.
    apply reports_forEach, Forall_forall. intros x Hx.
    rewrite Forall_forall in H. apply (H x Hx).
    apply Forall_forall. intros rep Hrep.
    rewrite Forall_forall in Hret. apply Hret, in_flat_map. eauto.
  - rewrite filter_flat_map, map_flat_map.
    apply reports_forEach, Forall_forall. intros x Hx.
    rewrite Forall_forall in H. apply (H x Hx).
    apply Forall_forall. intros rep Hrep.
    rewrite Forall_forall in Hret. apply Hret, in_flat_map. eauto.
  - inversion Hret as [|rep l [b Hb] _]; subst. cbn [snd] in Hb.
    cbn [List.filter]. unfold mayNotConsume. cbn [snd].
    intros s st Hst. unfold bind, liftRes. rewrite Hb.
    destruct b; cbn [map].
    + exists tt. now rewrite withErrors_nil.
    + apply Session_error_reports. exact Hst.
  - inversion Hret as [|rep l [b Hb] _]; subst. cbn [snd] in Hb.
    cbn [List.filter]. unfold mayNotConsume. cbn [snd].
    intros s st Hst. unfold bind, liftRes. rewrite Hb.
    destruct b; cbn [map].
    + exists tt. now rewrite withErrors_nil.
    + apply Session_error_reports. exact Hst.
Qed.

(** [reportInfiniteRepetition] reports the outermost repetitions whose body
    may succeed without consuming input, and nothing else: when the question
    [alwaysConsumesOnSuccess] returns for the body of every repetition that
    is not inside another repetition, the pass, on a session whose stage is
    set, returns with one error at each such repetition for which the answer
    is no, in the order of the text; a repetition inside the body of another
    repetition is not examined. *)
Theorem reportInfiniteRepetition_reports_outer_repetitions (ast : Grammar)
    (cfuel : nat) (s : Session) (st : Stage) :
  stageSet (stage s) = Some st ->
  Forall (fun rep =>
            exists b, alwaysConsumesOnSuccess ast cfuel (NExpr (snd rep))
                      = Ok b)
    (flat_map (fun r => outerRepetitions (rule_expression r)) (rules ast)) ->
  reportInfiniteRepetition cfuel ast s
  = (Ok tt,
     withErrors st
       (map repetitionProblem
          (List.filter (mayNotConsume ast cfuel)
             (flat_map (fun r => outerRepetitions (rule_expression r))
                (rules ast)))) s).
Proof.
  intros Hst Hret.
  assert (H : reports (reportInfiniteRepetition cfuel ast)
                (map repetitionProblem
                   (List.filter (mayNotConsume ast cfuel)
                      (flat_map
                         (fun r => outerRepetitions (rule_expression r))
                         (rules ast))))).
  { unfold reportInfiniteRepetition. rewrite filter_flat_map, map_flat_map.
    apply reports_forEach, Forall_forall. intros r Hr.
    apply infiniteRepetition_check_reports.
    apply Forall_forall. intros rep Hrep.
    rewrite Forall_forall in Hret. apply Hret, in_flat_map. eauto. }
  destruct (H s st Hst) as [[] ->]. reflexivity.
Qed.

Lemma reportInfiniteRepetition_reports_outer_repetitions_witness :
  reportInfiniteRepetition 0 repetitionGrammar
    (snd (setStage "check" newSession))
  = (Ok tt,
     withErrors "check"
       [mkProblem SevError infiniteRepetitionMessage (Some (span 8 15)) None;
        mkProblem SevError infiniteRepetitionMessage (Some (span 16 22)) None]
       (snd (setStage "check" newSession))).
Proof.
  apply (reportInfiniteRepetition_reports_outer_repetitions repetitionGrammar
           0 (snd (setStage "check" newSession)) "check").
  - reflexivity.
  - repeat constructor; eexists; reflexivity.
Defined.

(** ** The constant pools: adding a constant *)

Lemma indexOf_app_fresh {A : Type} `{EqDecision A} (x : A) pool :
  indexOf x pool = None -> indexOf x (pool ++ [x]) = Some (length pool).
Proof.
  induction pool as [|y pool IH]; simpl.
  - intros _. now destruct (decide (x = x)).
  - destruct (decide (y = x)); [discriminate|].
    destruct (indexOf x pool); [discriminate|].
    intros _. now rewrite IH.
Qed.

Lemma indexOf_found {A : Type} `{EqDecision A} (x : A) pool :
  In x pool -> indexOf x pool <> None.
Proof.
  intros Hin Hnone. exact (indexOf_None x pool Hnone Hin).
Qed.

(** Adding a constant to a pool, as [addLiteralConst], [addClassConst],
    [addExpectedConst] and [addFunctionConst] do: the index returned is that
    of the constant in the pool afterwards; the entries the pool had stay at
    their indices; a pool without repetition stays without; a constant that
    is in the pool already leaves the pool as it is; and adding the same
    constant again returns the same index and changes nothing. *)
Theorem addConst_keeps_the_pool {A : Type} `{EqDecision A} (x : A)
    (pool : list A) :
  snd (addConst x pool) !! fst (addConst x pool) = Some x
  /\ (forall j y, pool !! j = Some y -> snd (addConst x pool) !! j = Some y)
  /\ (NoDup pool -> NoDup (snd (addConst x pool)))
  /\ (In x pool -> snd (addConst x pool) = pool)
  /\ addConst x (snd (addConst x pool)) = addConst x pool.
Proof.
  destruct (addConst_spec x pool) as (Hi & Hpre & Hnd).
  split; [exact Hi|]. split; [|split; [exact Hnd|]].
  - intros j y Hj. eapply prefix_lookup; eassumption.
  - unfold addConst. destruct (indexOf x pool) as [i|] eqn:E; simpl.
    + split; [reflexivity|]. now rewrite E.
    + split; [intros Hin; exfalso; exact (indexOf_found x pool Hin E)|].
      now rewrite (indexOf_app_fresh x pool E).
Qed.

(** ** The generator returns *)

Ltac fwd_when :=
  match goal with
  | |- context [whenM ?b ?c ?st] =>
      let k := fresh "k" in
      let st1 := fresh "st" in
      let E := fresh "E" in
      destruct (whenM_extends b c _ st
                  ltac:(first [ apply addLiteralConst_extends
                              | apply addClassConst_extends
                              | apply addExpectedConst_extends
                              | apply addFunctionConst_extends ]))
        as (k & st1 & E & _ & _);
      rewrite E; clear E
  end.

Ltac fwd_add :=
  match goal with
  | |- context [addFunctionConst ?p ?ps ?node ?st] =>
      let k := fresh "k" in
      let st1 := fresh "st" in
      let E := fresh "E" in
      destruct (addFunctionConst_extends p ps node st)
        as (k & st1 & E & _);
      rewrite E; clear E
  end.

Ltac fwd_done :=
  unfold ret; eexists; eexists; split; [reflexivity|];
  cbn [out_pluck pluck]; auto.

(** Runs the visitor on the child, in a context without a [pluck] list. *)
Ltac fwd_child IH :=
  match goal with
  | |- context [generate ?lower ?ast ?nm ?e ?ctx ?st] =>
      let o := fresh "o" in
      let st1 := fresh "st" in
      let E := fresh "E" in
      destruct (IH ctx st ltac:(discriminate)) as (o & st1 & E & _);
      rewrite E; clear E
  end.

Lemma buildAlternativesCode_returns lower ast nm context l :
  l <> [] ->
  Forall (fun e => generates (generate lower ast nm e) false) l ->
  forall st,
    exists code st',
      buildAlternativesCode nm (generate lower ast nm) context l st
      = (Ok code, st').
Proof.
  intros Hne Hall. induction Hall as [|x l Hx _ IH]; [congruence|].
  intros st. cbn [buildAlternativesCode]. unfold bind.
  destruct (Hx (mkContext (sp context) (env context) None None) st
              ltac:(discriminate)) as (o & st1 & -> & _).
  destruct (isAlways (matchOf nm x)); [unfold ret; eauto|].
  destruct l as [|y l]; [unfold ret; eauto|].
  destruct (IH ltac:(discriminate) st1) as (rest & st2 & ->).
  unfold ret. eauto.
Qed.

Lemma buildElementsCode_returns lower ast nm total l :
  Forall (fun e => generates (generate lower ast nm e) true) l ->
  forall context st,
    pluck context <> None ->
    exists r st',
      buildElementsCode nm (generate lower ast nm) total l context st
      = (Ok r, st').
Proof.
  induction 1 as [|x l Hx _ IH]; intros context st Hpl;
    cbn [buildElementsCode].
  - destruct (pluck context) as [[|p pl]|]; try (unfold ret; eauto; fail);
      destruct (action context) as [a|]; try (unfold ret; eauto; fail);
      unfold bind; fwd_add; unfold ret; eauto.
  - unfold bind.
    destruct (Hx (mkContext (sp context) (env context) (pluck context) None)
                st ltac:(intros _; exact Hpl)) as (o & st1 & -> & Hout).
    destruct (IH (mkContext (sp context + 1) (out_env o) (out_pluck o)
                    (action context)) st1 (Hout Hpl)) as (r & st2 & ->).
    unfold ret. eauto.
Qed.

Lemma generate_generates lower ast nm e :
  forall inSequence,
    plucksPlaced inSequence e = true ->
    generates (generate lower ast nm e) inSequence.
Proof.
  induction e using Expr_forall_ind; intros inSequence Hplaced ctx st Hpl;
    cbn [plucksPlaced] in Hplaced; cbn [generate]; unfold bind;
    try (specialize (IHe false Hplaced));
    try (fwd_child IHe; fwd_done; fail);
    try (repeat fwd_when; fwd_done; fail);
    try (fwd_add; fwd_done; fail).
  - (* named *)
    fwd_when.
    destruct (IHe inSequence Hplaced ctx st0 Hpl) as (o & st1 & -> & Hout).
    fwd_done.
  - (* choice *)
    apply andb_true_iff in Hplaced as [Hne Hall].
    destruct (buildAlternativesCode_returns lower ast nm ctx l) with (st := st)
      as (code & st1 & ->).
    + destruct l; [discriminate|discriminate].
    + rewrite forallb_forall in Hall. rewrite Forall_forall in H |- *.
      intros x Hx. apply (H x Hx). auto.
    + fwd_done.
  - (* action *)
    fwd_child IHe. fwd_when. fwd_done.
  - (* sequence *)
    destruct (buildElementsCode_returns lower ast nm (length l) l) with
      (context := mkContext (sp ctx + 1) (env ctx) (Some []) (action ctx))
      (st := st) as (r & st1 & ->).
    + rewrite forallb_forall in Hplaced. rewrite Forall_forall in H |- *.
      intros x Hx. apply (H x Hx). auto.
    + discriminate.
    + fwd_done.
  - (* labeled *)
    apply andb_true_iff in Hplaced as [Hpick Hplaced].
    specialize (IHe false Hplaced).
    destruct p.
    + destruct inSequence; [|discriminate].
      destruct (pluck ctx) as [pl|] eqn:Epl;
        [|exfalso; now apply (Hpl eq_refl)].
      unfold ret at 1. fwd_child IHe. fwd_done.
    + unfold ret at 1. fwd_child IHe. fwd_done.
  - (* literal *)
    destruct (Nat.ltb 0 (String.length v)); [|fwd_done].
    repeat fwd_when. fwd_done.
Qed.

(** [generate] returns on every expression whose picks sit in sequences and
    whose choices have an alternative, whatever the [match] annotations and
    the references: the only throws of the visitor are the [Impossible] of a
    pick in a context without a [pluck] list and the read of the first
    alternative of a choice without alternatives.  So the pass
    [generateBytecode] returns on a grammar whose rules are all of this kind,
    and leaves a code on every rule. *)
Theorem generate_returns_when_plucks_are_placed (toLowerCase : string -> string)
    (ast : Grammar) (nm : gmap nat MatchResult) :
  (forall e ctx st,
      plucksPlaced true e = true ->
      pluck ctx <> None ->
      exists out st', generate toLowerCase ast nm e ctx st = (Ok out, st'))
  /\ (forall st,
         forallb (fun r => plucksPlaced true (rule_expression r)) (rules ast)
         = true ->
         exists st',
           generateGrammar toLowerCase ast nm st = (Ok tt, st')
           /\ forall r, In r (rules ast) ->
                        is_Some (bytecodes st' !! node_id (rule_info r)))
  /\ (forall i ctx st,
         fst (generate toLowerCase ast nm (Choice i []) ctx st)
         = Throw TypeError)
  /\ (forall i label labelLocation e ctx st,
         pluck ctx = None ->
         fst (generate toLowerCase ast nm
                (Labeled i true label labelLocation e) ctx st)
         = Throw (JsError "Impossible")).
Proof.
  split; [|split; [|split]].
  - intros e ctx st Hplaced Hpl.
    destruct (generate_generates toLowerCase ast nm e true Hplaced ctx st
                ltac:(intros _; exact Hpl)) as (out & st' & E & _).
    eauto.
  - intros st Hall. unfold generateGrammar.
    rewrite forallb_forall in Hall.
    assert (Hrun : forall rs st0,
               (forall r, In r rs -> In r (rules ast)) ->
               exists st',
                 forEach (generateRule toLowerCase ast nm) rs st0
                 = (Ok tt, st')
                 /\ (forall k, is_Some (bytecodes st0 !! k) ->
                               is_Some (bytecodes st' !! k))
                 /\ forall r, In r rs ->
                              is_Some (bytecodes st' !! node_id (rule_info r))).
    { induction rs as [|r rs IH]; intros st0 Hsub; simpl.
      - exists st0. split; [reflexivity|]. split; [auto|]. intros r [].
      - unfold bind at 1. unfold generateRule at 1. unfold bind at 1.
        destruct (generate_generates toLowerCase ast nm (rule_expression r)
                    true (Hall r (Hsub r (or_introl eq_refl)))
                    (mkContext (-1) [] (Some []) None) st0
                    ltac:(discriminate)) as (o & st1 & E & _).
        rewrite E. cbn [setBytecode].
        pose proof (generate_frame _ _ _ _ _ _ _ _ E) as Hframe.
        destruct (IH (mkGenState (literals st1) (classes st1)
                        (expectations st1) (functions st1)
                        (<[node_id (rule_info r) := out_code o]>
                           (bytecodes st1)))
                    ltac:(intros x Hx; apply Hsub; now right))
          as (st' & Hrun & Hkeep & Hrules).
        exists st'. split; [exact Hrun|]. split.
        + intros k Hk. apply Hkeep. cbn [bytecodes]. rewrite Hframe.
          destruct (decide (node_id (rule_info r) = k)) as [<-|Hne].
          * rewrite lookup_insert_eq. eauto.
          * now rewrite lookup_insert_ne.
        + intros x [<-|Hx]; [|now apply Hrules].
          apply Hkeep. cbn [bytecodes]. rewrite lookup_insert_eq. eauto. }
    destruct (Hrun (rules ast) st ltac:(auto)) as (st' & E & _ & Hrules).
    eauto.
  - intros i ctx st. reflexivity.
  - intros i label labelLocation e ctx st Hnone.
    cbn [generate]. unfold bind. rewrite Hnone. reflexivity.
Qed.

(** ** The check stage on a grammar without circular references *)













(** ** The constant pools hold no constant twice *)

Lemma keepsNoDup_ret {A : Type} (a : A) : keepsNoDup (ret a).
Proof. intros st b st' H. apply ret_inv in H as [_ <-]. auto. Qed.

Lemma keepsNoDup_throw {A : Type} exn : keepsNoDup (@throw GenState A exn).
Proof. intros st b st' H. discriminate. Qed.

Lemma keepsNoDup_bind {A B : Type} (c : M GenState A) (k : A -> M GenState B) :
  keepsNoDup c -> (forall a, keepsNoDup (k a)) -> keepsNoDup (bind c k).
Proof.
  intros Hc Hk st b st' Hrun Hnd. unfold bind in Hrun.
  destruct (c st) as [[a| |] st1] eqn:E; try discriminate.
  eapply Hk; [exact Hrun|]. eapply Hc; eassumption.
Qed.

Lemma keepsNoDup_whenM {A : Type} b (c : M GenState A) :
  keepsNoDup c -> keepsNoDup (whenM b c).
Proof.
  intros Hc. unfold whenM. destruct b; [|apply keepsNoDup_ret].
  apply keepsNoDup_bind; [exact Hc|]. intros a. apply keepsNoDup_ret.
Qed.

Lemma addLiteralConst_keepsNoDup value : keepsNoDup (addLiteralConst value).
Proof.
  intros st i st' Hrun (Hl & Hc & He & Hf). unfold addLiteralConst in Hrun.
  destruct (addConst_spec value (literals st)) as (_ & _ & Hnd).
  destruct (addConst value (literals st)) as [j pool].
  injection Hrun as _ <-. repeat split; auto.
Qed.

Lemma addClassConst_keepsNoDup parts inverted ignoreCase :
  keepsNoDup (addClassConst parts inverted ignoreCase).
Proof.
  intros st i st' Hrun (Hl & Hc & He & Hf). unfold addClassConst in Hrun.
  destruct (addConst_spec (mkCharClassDesc parts inverted ignoreCase)
              (classes st)) as (_ & _ & Hnd).
  destruct (addConst _ (classes st)) as [j pool].
  injection Hrun as _ <-. repeat split; auto.
Qed.

Lemma addExpectedConst_keepsNoDup expected :
  keepsNoDup (addExpectedConst expected).
Proof.
  intros st i st' Hrun (Hl & Hc & He & Hf). unfold addExpectedConst in Hrun.
  destruct (addConst_spec expected (expectations st)) as (_ & _ & Hnd).
  destruct (addConst expected (expectations st)) as [j pool].
  injection Hrun as _ <-. repeat split; auto.
Qed.

Lemma addFunctionConst_keepsNoDup predicate params node :
  keepsNoDup (addFunctionConst predicate params node).
Proof.
  intros st i st' Hrun (Hl & Hc & He & Hf). unfold addFunctionConst in Hrun.
  destruct (addConst_spec
              (mkFunctionDesc predicate params (cn_code node)
                 (cn_codeLocation node)) (functions st)) as (_ & _ & Hnd).
  destruct (addConst _ (functions st)) as [j pool].
  injection Hrun as _ <-. repeat split; auto.
Qed.

Ltac keeps_step :=
  first
    [ assumption
    | apply keepsNoDup_ret
    | apply keepsNoDup_throw
    | apply keepsNoDup_whenM
    | apply addLiteralConst_keepsNoDup
    | apply addClassConst_keepsNoDup
    | apply addExpectedConst_keepsNoDup
    | apply addFunctionConst_keepsNoDup
    | apply keepsNoDup_bind; [|intros ?]
    | match goal with
      | IH : forall ctx, keepsNoDup (generate _ _ _ ?e ctx)
        |- keepsNoDup (generate _ _ _ ?e _) => apply IH
      | |- keepsNoDup (match ?x with _ => _ end) => destruct x
      | |- keepsNoDup (if ?x then _ else _) => destruct x
      end ].

Lemma buildAlternativesCode_keepsNoDup lower ast nm l :
  Forall (fun e => forall ctx, keepsNoDup (generate lower ast nm e ctx)) l ->
  forall context,
    keepsNoDup (buildAlternativesCode nm (generate lower ast nm) context l).
Proof.
  induction 1 as [|x l Hx _ IH]; intros context;
    cbn [buildAlternativesCode]; [apply keepsNoDup_throw|].
  apply keepsNoDup_bind; [apply Hx|]. intros out.
  destruct (isAlways (matchOf nm x)); [apply keepsNoDup_ret|].
  destruct l as [|y l]; [apply keepsNoDup_ret|].
  apply keepsNoDup_bind; [apply IH|]. intros rest. apply keepsNoDup_ret.
Qed.

Lemma buildElementsCode_keepsNoDup lower ast nm total l :
  Forall (fun e => forall ctx, keepsNoDup (generate lower ast nm e ctx)) l ->
  forall context,
    keepsNoDup (buildElementsCode nm (generate lower ast nm) total l context).
Proof.
  induction 1 as [|x l Hx _ IH]; intros context; cbn [buildElementsCode].
  - repeat keeps_step.
  - apply keepsNoDup_bind; [apply Hx|]. intros out.
    apply keepsNoDup_bind; [apply IH|]. intros rest. apply keepsNoDup_ret.
Qed.

Lemma generate_keepsNoDup lower ast nm e :
  forall ctx, keepsNoDup (generate lower ast nm e ctx).
Proof.
  induction e using Expr_forall_ind; intros ctx; cbn [generate];
    try (repeat keeps_step; fail).
  - apply keepsNoDup_bind; [|intros ?; apply keepsNoDup_ret].
    now apply buildAlternativesCode_keepsNoDup.
  - apply keepsNoDup_bind; [|intros ?; apply keepsNoDup_ret].
    now apply buildElementsCode_keepsNoDup.
Qed.

Lemma generateGrammar_keepsNoDup lower ast nm :
  keepsNoDup (generateGrammar lower ast nm).
Proof.
  unfold generateGrammar. induction (rules ast) as [|r rs IH]; simpl.
  - apply keepsNoDup_ret.
  - apply keepsNoDup_bind; [|intros ?; exact IH].
    unfold generateRule. apply keepsNoDup_bind;
      [apply generate_keepsNoDup|].
    intros out st [] st' Hrun Hnd. unfold setBytecode in Hrun.
    injection Hrun as <-. exact Hnd.
Qed.

(** The constants of the generated parser are shared: in the pools that
    [generateBytecode] leaves on the grammar, no literal, no class, no
    expectation and no function occurs twice, and the code that [generate]
    returns for an expression keeps pools of this kind so. *)
Theorem generated_pools_hold_no_constant_twice
    (toLowerCase : string -> string) :
  (forall ast nm e ctx st out st',
      generate toLowerCase ast nm e ctx st = (Ok out, st') ->
      poolsNoDup st -> poolsNoDup st')
  /\ (forall cs cs' ls cls es fs,
         generateBytecode toLowerCase cs = (Ok tt, cs') ->
         pools (cs_ast cs') = Some (ls, cls, es, fs) ->
         NoDup ls /\ NoDup cls /\ NoDup es /\ NoDup fs).
Proof.
  split.
  - intros ast nm e ctx st out st' Hrun.
    exact (generate_keepsNoDup toLowerCase ast nm e ctx st out st' Hrun).
  - intros cs cs' ls cls es fs Hrun Hpools. unfold generateBytecode in Hrun.
    destruct (generateGrammar toLowerCase (grammar (cs_ast cs))
                (nodeMatch (matches (cs_ast cs)))
                (mkGenState [] [] [] [] (ast_bytecodes (cs_ast cs))))
      as [[[]| |] st] eqn:E; try discriminate.
    injection Hrun as <-. cbn [cs_ast pools] in Hpools.
    injection Hpools as <- <- <- <-.
    apply (generateGrammar_keepsNoDup _ _ _ _ _ _ E).
    repeat split; apply NoDup_nil_2.
Qed.

(** ** [compile] with options that hold no [info] callback *)

Lemma parseOptions_callbacks getFirstRule raw options :
  parseOptions getFirstRule raw = Ok options ->
  callbacksOf options
  = mkCallbacks (opt_error raw) (opt_warning raw) (opt_info raw).
Proof.
  unfold parseOptions. cbv zeta. intros H.
  destruct (opt_allowedStartRules raw) as [allowed|];
    [|destruct getFirstRule as [first| |]; try discriminate];
    (destruct (truthy (opt_output raw)) as [o|];
     [destruct (memberb o ["parser"; "ast"]);
      [|destruct (memberb o ["source"; "source-and-map";
                             "source-with-inline-map"]);
        [|discriminate]]|]);
    injection H as <-; reflexivity.
Qed.

Lemma checkStartRules_callbacks ast options options' :
  checkStartRules ast options = Ok options' ->
  callbacksOf options' = callbacksOf options.
Proof.
  unfold checkStartRules. intros H.
  destruct (memberb "*" (allowedStartRules options));
    [now injection H as <-|].
  destruct (List.find _ (allowedStartRules options)); [discriminate|].
  now injection H as <-.
Qed.

(** [compile] does not get to a pass when the options hold no [info]
    callback, as the default options [{}] do not: whatever the grammar and
    the passes, once the options are accepted, the session is made from them
    with [undefined] for the callback, and the first [session.info], at the
    head of the first stage, records its problem and ends in a [TypeError].
    The grammar is as it was and no error is counted. *)
Theorem compile_without_info_callback_throws (ast : Ast) (st : Stage)
    (passes : list Pass) (rest : Stages) (rawOptions : RawOptions)
    (parsed options : ParsedOptions) :
  opt_info rawOptions = Undefined ->
  st <> EmptyString ->
  parseOptions (firstRuleName (grammar ast)) rawOptions = Ok parsed ->
  checkStartRules (grammar ast) parsed = Ok options ->
  checkGrammarSource options = Ok tt ->
  compile ast ((st, passes) :: rest) rawOptions
  = (Throw TypeError,
     mkCompilerState ast
       {| problems := [mkProblem SevInfo ("Process stage " ++ st) None None];
          stage := Some st;
          firstError := None;
          errors := 0;
          notified := [] |}).
Proof.
  intros Hinfo Hst Hparse Hstart Hsource.
  pose proof (parseOptions_callbacks _ _ _ Hparse) as Hcb.
  rewrite <- (checkStartRules_callbacks _ _ _ Hstart), Hinfo in Hcb.
  unfold compile, bind, liftRes. rewrite Hparse, Hstart, Hsource.
  cbn [forEach]. rewrite Hcb. unfold runStage. cbn [fst snd].
  unfold bind, inSession, zoom, setStage, Session_info, callCallback,
    stageSet.
  cbn [cs_session cs_ast stage pushProblem newSession call_info problems
       firstError errors notified app].
  destruct (String.eqb_spec st EmptyString); [congruence|reflexivity].
Qed.

(** [start = "a"] with the default stages and the default options. *)
Lemma compile_without_info_callback_throws_witness :
  compile (parsedAst literalGrammar)
    (defaultStages 10 (fun x => x) silentEmitter) noOptions
  = (Throw TypeError,
     mkCompilerState (parsedAst literalGrammar)
       {| problems := [mkProblem SevInfo "Process stage check" None None];
          stage := Some "check";
          firstError := None;
          errors := 0;
          notified := [] |}).
Proof.
  exact (compile_without_info_callback_throws (parsedAst literalGrammar)
           "check" (checkPasses 10) _ noOptions
           (mkParsedOptions "parser" ["start"] false false None (Some "bare")
              Undefined Undefined Undefined)
           (mkParsedOptions "parser" ["start"] false false None (Some "bare")
              Undefined Undefined Undefined)
           eq_refl ltac:(discriminate) eq_refl eq_refl eq_refl).
Defined.
